(** * lilypad-leap-claims: the Merkle core of the claim generators

    A shallow embedding of the Merkle helpers of [scripts/gen-merkle.mjs]
    (both revisions kept in that file) and [scripts/ gen-merkle.mjs], and of
    the leaf hashing that [scripts/generate-claims.mjs] delegates to
    OpenZeppelin's [StandardMerkleTree].

    Layout:
    - [Keccak]   : the Keccak-256 primitive on byte lists;
    - JavaScript strings and arrays as the scripts use them;
    - [Viem]     : the three viem functions the scripts import;
    - [GenMerkle1], [GenMerkle2], [GenMerkle3] : the three script variants;
    - [GenerateClaims] : the leaf of the OpenZeppelin based script;
    - the properties of the tree builder and of the proof extractor. *)

From Stdlib Require Import ZArith String Ascii List Lia Bool Arith Permutation.
From Equations Require Import Equations.
Import ListNotations.

Open Scope string_scope.
Open Scope list_scope.
Open Scope Z_scope.

(* ===================================================================== *)
(** ** Bytes *)
(* ===================================================================== *)

(** A byte is an integer in [0, 256); a byte string is a list of them. *)
Definition bytes := list Z.

Definition isByte (b : Z) : Prop := 0 <= b < 256.

(** Byte-lexicographic "strictly less" on byte strings. *)
Fixpoint bytesLt (x y : bytes) : bool :=
  match x, y with
  | _, [] => false
  | [], _ :: _ => true
  | a :: x', b :: y' =>
      if a <? b then true else if b <? a then false else bytesLt x' y'
  end.

Definition bytesMin (x y : bytes) : bytes := if bytesLt y x then y else x.
Definition bytesMax (x y : bytes) : bytes := if bytesLt y x then x else y.

(** The [k] low-order bytes of [n], most significant first. *)
Fixpoint bytesBE (k : nat) (n : Z) : bytes :=
  match k with
  | O => []
  | S k' => bytesBE k' (n / 256) ++ [n mod 256]
  end.

(* ===================================================================== *)
(** ** Keccak-256

    The hash primitive behind viem's [keccak256] (original Keccak padding
    [0x01 .. 0x80], rate 136 bytes, capacity 512 bits, 32 bytes of output).
    The state is the list of 25 lanes, lane [(x, y)] at position [x + 5 y],
    each lane a 64-bit integer. *)
(* ===================================================================== *)

Module Keccak.

Definition mask64 : Z := 0xFFFFFFFFFFFFFFFF.

Definition rotl64 (v n : Z) : Z :=
  Z.lor (Z.land (Z.shiftl v n) mask64) (Z.shiftr v (64 - n)).

Definition rotationOffsets : list Z :=
  [ 0;  1; 62; 28; 27;
   36; 44;  6; 55; 20;
    3; 10; 43; 25; 39;
   41; 45; 15; 21;  8;
   18;  2; 61; 56; 14].

Definition roundConstants : list Z :=
  [0x0000000000000001; 0x0000000000008082; 0x800000000000808A;
   0x8000000080008000; 0x000000000000808B; 0x0000000080000001;
   0x8000000080008081; 0x8000000000008009; 0x000000000000008A;
   0x0000000000000088; 0x0000000080008009; 0x000000008000000A;
   0x000000008000808B; 0x800000000000008B; 0x8000000000008089;
   0x8000000000008003; 0x8000000000008002; 0x8000000000000080;
   0x000000000000800A; 0x800000008000000A; 0x8000000080008081;
   0x8000000000008080; 0x0000000080000001; 0x8000000080008008].

Definition laneAt (st : list Z) (x y : nat) : Z :=
  nth ((x mod 5) + 5 * (y mod 5)) st 0.

Definition coords : list (nat * nat) :=
  flat_map (fun y => map (fun x => (x, y)) (seq 0 5)) (seq 0 5).

Definition theta (st : list Z) : list Z :=
  let C x := fold_left Z.lxor (map (fun y => laneAt st x y) (seq 1 4)) (laneAt st x 0) in
  let D x := Z.lxor (C (x + 4)%nat) (rotl64 (C (x + 1)%nat) 1) in
  map (fun '(x, y) => Z.lxor (laneAt st x y) (D x)) coords.

(** rho and pi together: lane [(X, Y)] of the result is lane [(x, y)] of the
    input rotated by its offset, where [(X, Y) = (y, 2x + 3y)]. *)
Definition rhoPi (st : list Z) : list Z :=
  map (fun '(X, Y) =>
         let x := ((X + 3 * Y) mod 5)%nat in
         let y := X in
         rotl64 (laneAt st x y) (nth (x + 5 * y) rotationOffsets 0)) coords.

Definition chi (st : list Z) : list Z :=
  map (fun '(x, y) =>
         Z.lxor (laneAt st x y)
                (Z.land (Z.lxor (laneAt st (x + 1) y) mask64) (laneAt st (x + 2) y)))
      coords.

Definition iota (rc : Z) (st : list Z) : list Z :=
  match st with
  | a :: rest => Z.lxor a rc :: rest
  | [] => []
  end.

Definition round (st : list Z) (rc : Z) : list Z :=
  iota rc (chi (rhoPi (theta st))).

Definition keccak_f (st : list Z) : list Z := fold_left round roundConstants st.

Definition rate : nat := 136.

(** Little-endian packing of bytes into a lane and back. *)
Fixpoint laneOfBytes (bs : bytes) : Z :=
  match bs with
  | [] => 0
  | b :: rest => b + 256 * laneOfBytes rest
  end.

Fixpoint lanesOfBytes (n : nat) (bs : bytes) : list Z :=
  match n with
  | O => []
  | S n' => laneOfBytes (firstn 8 bs) :: lanesOfBytes n' (skipn 8 bs)
  end.

Fixpoint bytesOfLane (n : nat) (v : Z) : bytes :=
  match n with
  | O => []
  | S n' => (v mod 256) :: bytesOfLane n' (v / 256)
  end.

Fixpoint xorInto (st blk : list Z) : list Z :=
  match st, blk with
  | s :: st', b :: blk' => Z.lxor s b :: xorInto st' blk'
  | _, _ => st
  end.

Fixpoint absorb (nblocks : nat) (st : list Z) (msg : bytes) : list Z :=
  match nblocks with
  | O => st
  | S n' =>
      absorb n' (keccak_f (xorInto st (lanesOfBytes 17 (firstn rate msg))))
             (skipn rate msg)
  end.

Definition pad (msg : bytes) : bytes :=
  let q := (rate - (List.length msg mod rate))%nat in
  match q with
  | 1%nat => msg ++ [0x81]
  | _ => msg ++ [0x01] ++ repeat 0 (q - 2) ++ [0x80]
  end.

Definition keccak256 (msg : bytes) : bytes :=
  let p := pad msg in
  let st := absorb (List.length p / rate) (repeat 0 25) p in
  flat_map (bytesOfLane 8) (firstn 4 st).

End Keccak.

(* ===================================================================== *)
(** ** JavaScript values used by the scripts *)
(* ===================================================================== *)

(** What a script can throw. *)
Inductive error : Type :=
| NoLeaves            (* Error("No leaves") *)
| LeafNotFound        (* Error("Leaf not found in layer 0") *)
| TypeError           (* property access on undefined *)
| SyntaxError         (* BigInt of a string that is no integer literal *)
| BadAddress          (* generate-claims: Error("Bad address: ...") *)
| BadUint             (* generate-claims: Error("... must be uint256 decimal string ...") *)
| InvalidArgument     (* ethers: a value that does not fit its ABI type *)
| InvalidAddress      (* viem: InvalidAddressError *)
| IntegerOutOfRange   (* viem: IntegerOutOfRangeError *)
| BytesSizeMismatch   (* viem: BytesSizeMismatchError *)
| InvalidHex.         (* viem: invalid byte sequence while decoding hex *)

Inductive result (A : Type) : Type :=
| Ok (a : A)
| Err (e : error).
Arguments Ok {A} a.
Arguments Err {A} e.

Definition bind {A B : Type} (r : result A) (k : A -> result B) : result B :=
  match r with
  | Ok a => k a
  | Err e => Err e
  end.

Notation "x <- e ;; k" := (bind e (fun x => k))
  (at level 61, e at next level, right associativity).

(** Strings are sequences of code units; every string the Merkle helpers
    handle is ASCII (hexadecimal text), so a code unit is an [ascii]. *)
Definition code (c : ascii) : Z := Z.of_N (N_of_ascii c).

Definition chr (n : Z) : ascii := ascii_of_N (Z.to_N n).

(** [String.prototype.toLowerCase], on ASCII text. *)
Definition lowerChar (c : ascii) : ascii :=
  if (65 <=? code c) && (code c <=? 90) then chr (code c + 32) else c.

Fixpoint toLowerCase (s : string) : string :=
  match s with
  | EmptyString => EmptyString
  | String c s' => String (lowerChar c) (toLowerCase s')
  end.

(** The relational operator [<] on two strings: code units compared from
    the left, a proper prefix being smaller. *)
Fixpoint strLt (s t : string) : bool :=
  match s, t with
  | _, EmptyString => false
  | EmptyString, String _ _ => true
  | String c s', String d t' =>
      if code c <? code d then true
      else if code d <? code c then false
      else strLt s' t'
  end.

(** [a[i]] for an array [a] and an integer [i]: [None] stands for
    [undefined], the value of an index outside the array. *)
Definition arrayGet {A : Type} (a : list A) (i : Z) : option A :=
  if i <? 0 then None else nth_error a (Z.to_nat i).

Definition arrayLength {A : Type} (a : list A) : Z := Z.of_nat (List.length a).

(** [a.indexOf(x)] on an array of strings: strict equality, first match,
    [-1] when there is none. *)
Fixpoint indexOfFrom (x : string) (a : list string) (i : Z) : Z :=
  match a with
  | [] => -1
  | y :: rest => if String.eqb y x then i else indexOfFrom x rest (i + 1)
  end.

Definition indexOf (a : list string) (x : string) : Z := indexOfFrom x a 0.

(** The value of a digit in a radix up to 16, letters of either case. *)
Definition hexDigitVal (c : ascii) : option Z :=
  if (48 <=? code c) && (code c <=? 57) then Some (code c - 48)
  else if (97 <=? code c) && (code c <=? 102) then Some (code c - 87)
  else if (65 <=? code c) && (code c <=? 70) then Some (code c - 55)
  else None.

Fixpoint digitsValue (radix acc : Z) (s : string) : option Z :=
  match s with
  | EmptyString => Some acc
  | String c s' =>
      match hexDigitVal c with
      | Some d => if d <? radix then digitsValue radix (radix * acc + d) s' else None
      | None => None
      end
  end.

(** The value of a non-empty run of digits of the radix; [parseDigits 10]
    is defined exactly on the matches of [/^\d+$/]. *)
Definition parseDigits (radix : Z) (s : string) : option Z :=
  match s with
  | EmptyString => None
  | String _ _ => digitsValue radix 0 s
  end.

(** White space and line terminators, within ASCII. *)
Definition isBlank (c : ascii) : bool :=
  (9 <=? code c) && (code c <=? 13) || (code c =? 32).

Fixpoint trimStart (s : string) : string :=
  match s with
  | EmptyString => EmptyString
  | String c s' => if isBlank c then trimStart s' else s
  end.

Fixpoint trimEnd (s : string) : string :=
  match s with
  | EmptyString => EmptyString
  | String c s' =>
      match trimEnd s' with
      | EmptyString => if isBlank c then EmptyString else String c EmptyString
      | String _ _ as t => String c t
      end
  end.

(** [BigInt(s)]: the integer that the text [s] spells.  Blanks around the
    literal are skipped; no literal at all is 0; a decimal literal may
    carry a sign; a literal with the prefix [0x], [0o] or [0b], of either
    case, carries none; any other text is a [SyntaxError]. *)
Definition BigInt (s : string) : result Z :=
  let t := trimEnd (trimStart s) in
  let parsed :=
    match t with
    | EmptyString => Some 0
    | String c0 rest0 =>
        if code c0 =? 43 then parseDigits 10 rest0
        else if code c0 =? 45 then option_map Z.opp (parseDigits 10 rest0)
        else
          match rest0 with
          | String c1 rest1 =>
              if (code c0 =? 48) && ((code c1 =? 120) || (code c1 =? 88))
              then parseDigits 16 rest1
              else if (code c0 =? 48) && ((code c1 =? 111) || (code c1 =? 79))
              then parseDigits 8 rest1
              else if (code c0 =? 48) && ((code c1 =? 98) || (code c1 =? 66))
              then parseDigits 2 rest1
              else parseDigits 10 t
          | EmptyString => parseDigits 10 t
          end
    end in
  match parsed with
  | Some n => Ok n
  | None => Err SyntaxError
  end.

(** The object [{ root, layers }] that [buildTree] returns; [root] is
    [None] when the script would hand back [undefined]. *)
Record Tree : Type := mkTree { root : option string; layers : list (list string) }.

(** A value together with the equation that names it, for the loops whose
    termination depends on what a test or a call returned. *)
Definition inspect {A : Type} (x : A) : {y : A | x = y} := exist _ x eq_refl.

(** Lists read two elements at a time, the way the tree builder does. *)
Lemma list_pair_ind {A : Type} (P : list A -> Prop) :
  P [] ->
  (forall x, P [x]) ->
  (forall x y l, P l -> P (x :: y :: l)) ->
  forall l, P l.
Proof.
  intros Hnil Hone Hstep.
  assert (H : forall l, P l /\ forall x, P (x :: l)).
  { induction l as [|y l [IH1 IH2]]; split; auto. }
  intro l. apply H.
Qed.

(** Each variant's [for] loop halves the level, rounding up ... *)
Ltac solve_for_length hp level :=
  match goal with
  | |- forall next, _ -> _ =>
      induction level as [|x|x y rest IH] using list_pair_ind;
      intros next H; cbn [List.length] in *; simpl in H;
      [ inversion H; reflexivity
      | destruct (hp x x); simpl in H; inversion H; reflexivity
      | destruct (hp x y); simpl in H; [|discriminate];
        match type of H with
        | context [bind ?r _] =>
            destruct r as [nx|] eqn:Hrest; simpl in H; [|discriminate]
        end;
        inversion H; subst; cbn [List.length];
        rewrite (IH _ eq_refl);
        change (S (S (S (List.length rest)))) with (1 * 2 + S (List.length rest))%nat;
        rewrite Nat.div_add_l by lia; reflexivity ]
  end.

(** ... so each variant's [while] loop runs on a shorter level every time. *)
Ltac solve_while_decreases len_lemma :=
  match goal with
  | Hnext : _ = Ok ?next, Hgt : (1 <? arrayLength ?level) = true |- _ =>
      apply len_lemma in Hnext;
      apply Z.ltb_lt in Hgt; unfold arrayLength in Hgt;
      rewrite Hnext;
      apply Nat.Div0.div_lt_upper_bound; lia
  end.

(* ===================================================================== *)
(** ** viem

    The scripts import [keccak256], [encodePacked] and [isAddress] from
    viem; they are library code, modelled here on the values the Merkle
    helpers pass to them.  Hexadecimal text is [0x] followed by two digits
    per byte, digits of either case on input, lower case on output. *)
(* ===================================================================== *)

Module Viem.

Definition hexDigitChar (v : Z) : ascii :=
  if v <? 10 then chr (48 + v) else chr (87 + v).

(** The text after a leading [0x], when there is one. *)
Definition strip0x (s : string) : option string :=
  match s with
  | String c0 (String c1 body) =>
      if (code c0 =? 48) && (code c1 =? 120) then Some body else None
  | _ => None
  end.

(** [x.replace("0x", "")]: the text without its first [0x]. *)
Fixpoint remove0x (s : string) : string :=
  match s with
  | EmptyString => s
  | String c0 tail =>
      match tail with
      | EmptyString => s
      | String c1 rest =>
          if (code c0 =? 48) && (code c1 =? 120) then rest
          else String c0 (remove0x tail)
      end
  end.

Definition with0x (body : string) : string := String "0" (String "x" body).

Fixpoint hexBody (s : string) : option bytes :=
  match s with
  | EmptyString => Some []
  | String h (String l rest) =>
      match hexDigitVal h, hexDigitVal l, hexBody rest with
      | Some a, Some b, Some bs => Some (16 * a + b :: bs)
      | _, _, _ => None
      end
  | String _ EmptyString => None
  end.

(** [hexToBytes]: defined on [0x] followed by an even number of digits. *)
Definition hexToBytes (h : string) : option bytes :=
  match strip0x h with
  | Some body => hexBody body
  | None => None
  end.

Fixpoint hexOfBytes (bs : bytes) : string :=
  match bs with
  | [] => EmptyString
  | b :: rest =>
      String (hexDigitChar (b / 16)) (String (hexDigitChar (b mod 16)) (hexOfBytes rest))
  end.

Definition bytesToHex (bs : bytes) : string := with0x (hexOfBytes bs).

(** [keccak256(value)] for hexadecimal [value]: decode, hash, encode. *)
Definition keccak256 (value : string) : result string :=
  match hexToBytes value with
  | Some bs => Ok (bytesToHex (Keccak.keccak256 bs))
  | None => Err InvalidHex
  end.

Fixpoint allHexDigits (s : string) : bool :=
  match s with
  | EmptyString => true
  | String c s' =>
      match hexDigitVal c with
      | Some _ => allHexDigits s'
      | None => false
      end
  end.

(** [isAddress]: the test [/^0x[a-fA-F0-9]{40}$/].  (The checksum test that
    viem adds for text of mixed case is not modelled: [readCsv] lowers every
    address before it is used.) *)
Definition isAddress (a : string) : bool :=
  match strip0x a with
  | Some body => (String.length body =? 40)%nat && allHexDigits body
  | None => false
  end.

(** A value paired with its Solidity type, for the three types in use. *)
Inductive packed : Type :=
| PAddress (a : string)     (* "address" *)
| PUint256 (n : Z)          (* "uint256" *)
| PBytes32 (h : string).    (* "bytes32" *)

(** [k] hexadecimal digits of [n], most significant first: what
    [n.toString(16).padStart(k, "0")] is for [0 <= n < 16^k]. *)
Fixpoint hexDigitsBE (k : nat) (n : Z) : string :=
  match k with
  | O => EmptyString
  | S k' => String.append (hexDigitsBE k' (n / 16)) (String (hexDigitChar (n mod 16)) EmptyString)
  end.

Definition encode (v : packed) : result string :=
  match v with
  | PAddress a =>
      if isAddress a then Ok (toLowerCase a) else Err InvalidAddress
  | PUint256 n =>
      if (0 <=? n) && (n <? 2 ^ 256) then Ok (with0x (hexDigitsBE 64 n))
      else Err IntegerOutOfRange
  | PBytes32 h =>
      if (String.length h =? 66)%nat then Ok h else Err BytesSizeMismatch
  end.

Fixpoint encodeAll (vs : list packed) : result (list string) :=
  match vs with
  | [] => Ok []
  | v :: rest =>
      h <- encode v ;;
      hs <- encodeAll rest ;;
      Ok (h :: hs)
  end.

Definition concatHex (parts : list string) : string :=
  with0x (String.concat EmptyString (map remove0x parts)).

(** [encodePacked(types, values)]: each value encoded at its own width,
    the encodings concatenated with nothing in between. *)
Definition encodePacked (vs : list packed) : result string :=
  parts <- encodeAll vs ;;
  Ok (concatHex parts).

End Viem.

(* ===================================================================== *)
(** ** scripts/gen-merkle.mjs, first revision (lines 64-119) *)
(* ===================================================================== *)

Module GenMerkle1.
Import Viem.

Definition leafPacked (address amount generatedLoss : string) : result string :=
  a <- BigInt amount ;;
  g <- BigInt generatedLoss ;;
  p <- encodePacked [PAddress address; PUint256 a; PUint256 g] ;;
  keccak256 p.

Definition hashPair (a b : string) : result string :=
  let A := toLowerCase a in
  let B := toLowerCase b in
  p <- encodePacked (if strLt A B then [PBytes32 a; PBytes32 b]
                     else [PBytes32 b; PBytes32 a]) ;;
  keccak256 p.

(** The [for] loop of [buildTree]: [i] runs over the even positions of
    [level]; [right] is [level[i + 1]] when that exists and [level[i]]
    otherwise. *)
Fixpoint buildTree_for (level : list string) : result (list string) :=
  match level with
  | [] => Ok []
  | [left_] =>
      h <- hashPair left_ left_ ;;
      Ok [h]
  | left_ :: right_ :: rest =>
      h <- hashPair left_ right_ ;;
      next <- buildTree_for rest ;;
      Ok (h :: next)
  end.

Lemma buildTree_for_length1 (level : list string) :
  forall next, buildTree_for level = Ok next ->
  List.length next = (S (List.length level) / 2)%nat.
Proof. solve_for_length hashPair level. Qed.

(** The [while] loop of [buildTree]: [layers] already ends with [level]. *)
Equations? buildTree_while (level : list string) (layers : list (list string))
  : result (list (list string)) by wf (List.length level) lt :=
  buildTree_while level layers with inspect (1 <? arrayLength level) := {
    | exist _ false _ => Ok layers
    | exist _ true Hgt with inspect (buildTree_for level) := {
        | exist _ (Err e) _ => Err e
        | exist _ (Ok next) Hnext => buildTree_while next (layers ++ [next]) } }.
Proof. solve_while_decreases buildTree_for_length1. Qed.

Definition buildTree (leaves : list string) : result Tree :=
  if arrayLength leaves =? 0 then Err NoLeaves
  else
    layers <- buildTree_while leaves [leaves] ;;
    match arrayGet layers (arrayLength layers - 1) with
    | Some top => Ok (mkTree (arrayGet top 0) layers)
    | None => Err TypeError
    end.

(** The [for] loop of [getProof], started at [level = 0] with the whole
    of [layers]: it runs while a further layer follows the current one. *)
Fixpoint getProof_for (layers : list (list string)) (idx : Z) : list (option string) :=
  match layers with
  | [] => []
  | [_] => []
  | layer :: ((_ :: _) as rest) =>
      let isRightNode := Z.rem idx 2 =? 1 in
      let pairIndex := if isRightNode then idx - 1 else idx + 1 in
      let sibling :=
        if pairIndex <? arrayLength layer then arrayGet layer pairIndex
        else arrayGet layer idx in
      sibling :: getProof_for rest (idx / 2)
  end.

Definition getProof (leaf : string) (layers : list (list string))
  : result (list (option string)) :=
  match arrayGet layers 0 with
  | None => Err TypeError
  | Some layer0 =>
      let idx := indexOf layer0 leaf in
      if idx =? -1 then Err LeafNotFound
      else Ok (getProof_for layers idx)
  end.

End GenMerkle1.


(* ===================================================================== *)
(** ** scripts/gen-merkle.mjs, second revision (lines 258-310) *)
(* ===================================================================== *)

Module GenMerkle2.
Import Viem.

Definition leafPacked (address amount generatedLoss : string) : result string :=
  a <- BigInt amount ;;
  g <- BigInt generatedLoss ;;
  p <- encodePacked [PAddress address; PUint256 a; PUint256 g] ;;
  keccak256 p.

Definition hashPair (a b : string) : result string :=
  p <- encodePacked (if strLt (toLowerCase a) (toLowerCase b)
                     then [PBytes32 a; PBytes32 b]
                     else [PBytes32 b; PBytes32 a]) ;;
  keccak256 p.

(** The [for] loop of [buildTree]: [i] runs over the even positions of
    [level]; [right] is [level[i + 1]] when that exists and [level[i]]
    otherwise. *)
Fixpoint buildTree_for (level : list string) : result (list string) :=
  match level with
  | [] => Ok []
  | [left_] =>
      h <- hashPair left_ left_ ;;
      Ok [h]
  | left_ :: right_ :: rest =>
      h <- hashPair left_ right_ ;;
      next <- buildTree_for rest ;;
      Ok (h :: next)
  end.

Lemma buildTree_for_length2 (level : list string) :
  forall next, buildTree_for level = Ok next ->
  List.length next = (S (List.length level) / 2)%nat.
Proof. solve_for_length hashPair level. Qed.

(** The [while] loop of [buildTree]: [layers] already ends with [level]. *)
Equations? buildTree_while (level : list string) (layers : list (list string))
  : result (list (list string)) by wf (List.length level) lt :=
  buildTree_while level layers with inspect (1 <? arrayLength level) := {
    | exist _ false _ => Ok layers
    | exist _ true Hgt with inspect (buildTree_for level) := {
        | exist _ (Err e) _ => Err e
        | exist _ (Ok next) Hnext => buildTree_while next (layers ++ [next]) } }.
Proof. solve_while_decreases buildTree_for_length2. Qed.

Definition buildTree (leaves : list string) : result Tree :=
  if arrayLength leaves =? 0 then Err NoLeaves
  else
    layers <- buildTree_while leaves [leaves] ;;
    match arrayGet layers (arrayLength layers - 1) with
    | Some top => Ok (mkTree (arrayGet top 0) layers)
    | None => Err TypeError
    end.

(** The [for] loop of [getProof], started at [level = 0] with the whole
    of [layers]: it runs while a further layer follows the current one. *)
Fixpoint getProof_for (layers : list (list string)) (idx : Z) : list (option string) :=
  match layers with
  | [] => []
  | [_] => []
  | layer :: ((_ :: _) as rest) =>
      let isRightNode := Z.rem idx 2 =? 1 in
      let pairIndex := if isRightNode then idx - 1 else idx + 1 in
      let sibling :=
        if pairIndex <? arrayLength layer then arrayGet layer pairIndex
        else arrayGet layer idx in
      sibling :: getProof_for rest (idx / 2)
  end.

Definition getProof (leaf : string) (layers : list (list string))
  : result (list (option string)) :=
  match arrayGet layers 0 with
  | None => Err TypeError
  | Some layer0 =>
      let idx := indexOf layer0 leaf in
      if idx =? -1 then Err LeafNotFound
      else Ok (getProof_for layers idx)
  end.

End GenMerkle2.


(* ===================================================================== *)
(** ** scripts/ gen-merkle.mjs (lines 69-124) *)
(* ===================================================================== *)

Module GenMerkle3.
Import Viem.

Definition leafPacked (address amount generatedLoss : string) : result string :=
  a <- BigInt amount ;;
  g <- BigInt generatedLoss ;;
  p <- encodePacked [PAddress address; PUint256 a; PUint256 g] ;;
  keccak256 p.

Definition hashPair (a b : string) : result string :=
  let aa := toLowerCase a in
  let bb := toLowerCase b in
  let '(left_, right_) := if strLt aa bb then (a, b) else (b, a) in
  p <- encodePacked [PBytes32 left_; PBytes32 right_] ;;
  keccak256 p.

(** The [for] loop of [buildTree]: [i] runs over the even positions of
    [level]; [right] is [level[i + 1]] when that exists and [level[i]]
    otherwise. *)
Fixpoint buildTree_for (level : list string) : result (list string) :=
  match level with
  | [] => Ok []
  | [left_] =>
      h <- hashPair left_ left_ ;;
      Ok [h]
  | left_ :: right_ :: rest =>
      h <- hashPair left_ right_ ;;
      next <- buildTree_for rest ;;
      Ok (h :: next)
  end.

Lemma buildTree_for_length3 (level : list string) :
  forall next, buildTree_for level = Ok next ->
  List.length next = (S (List.length level) / 2)%nat.
Proof. solve_for_length hashPair level. Qed.

(** The [while] loop of [buildTree]: [layers] already ends with [level]. *)
Equations? buildTree_while (level : list string) (layers : list (list string))
  : result (list (list string)) by wf (List.length level) lt :=
  buildTree_while level layers with inspect (1 <? arrayLength level) := {
    | exist _ false _ => Ok layers
    | exist _ true Hgt with inspect (buildTree_for level) := {
        | exist _ (Err e) _ => Err e
        | exist _ (Ok next) Hnext => buildTree_while next (layers ++ [next]) } }.
Proof. solve_while_decreases buildTree_for_length3. Qed.

Definition buildTree (leaves : list string) : result Tree :=
  if arrayLength leaves =? 0 then Err NoLeaves
  else
    layers <- buildTree_while leaves [leaves] ;;
    match arrayGet layers (arrayLength layers - 1) with
    | Some top => Ok (mkTree (arrayGet top 0) layers)
    | None => Err TypeError
    end.

(** The [for] loop of [getProof], started at [level = 0] with the whole
    of [layers]: it runs while a further layer follows the current one. *)
Fixpoint getProof_for (layers : list (list string)) (idx : Z) : list (option string) :=
  match layers with
  | [] => []
  | [_] => []
  | layer :: ((_ :: _) as rest) =>
      let isRight := Z.rem idx 2 =? 1 in
      let pairIndex := if isRight then idx - 1 else idx + 1 in
      let sibling :=
        if pairIndex <? arrayLength layer then arrayGet layer pairIndex
        else arrayGet layer idx in
      sibling :: getProof_for rest (idx / 2)
  end.

Definition getProof (leaf : string) (layers : list (list string))
  : result (list (option string)) :=
  match arrayGet layers 0 with
  | None => Err TypeError
  | Some layer0 =>
      let idx := indexOf layer0 leaf in
      if idx =? -1 then Err LeafNotFound
      else Ok (getProof_for layers idx)
  end.

End GenMerkle3.


(* ===================================================================== *)
(** ** scripts/generate-claims.mjs

    This script builds no tree of its own: it hands its entries to
    [StandardMerkleTree.of(entries, ["address", "uint256", "uint256"])] of
    @openzeppelin/merkle-tree.  That library hashes a leaf as
    [keccak256(keccak256(abi.encode(types, values)))]: the standard ABI
    encoding, every field in a 32-byte word (the address padded on the left
    with 12 zero bytes), hashed twice. *)
(* ===================================================================== *)

Module GenerateClaims.
Import Viem.

(** [normAddr] of the script. *)
Definition normAddr (a : string) : string :=
  let x := toLowerCase a in
  match strip0x x with
  | Some _ => if (String.length x =? 42)%nat then x else EmptyString
  | None => EmptyString
  end.

(** [asUintStr] of the script: the test [/^[0-9]+$/]. *)
Definition asUintStr (x : string) : result string :=
  match parseDigits 10 x with
  | Some _ => Ok x
  | None => Err BadUint
  end.

(** One turn of the loop that collects the entries. *)
Definition entryOf (address amount generatedLoss : string)
  : result (string * string * string) :=
  let a := normAddr address in
  if (String.length a =? 0)%nat then Err BadAddress
  else
    am <- asUintStr amount ;;
    gl <- asUintStr generatedLoss ;;
    Ok (a, am, gl).

(** [abi.encode(["address", "uint256", "uint256"], [address, amount,
    generatedLoss])] of the library, the amounts being decimal strings. *)
Definition abiEncode (address amount generatedLoss : string) : result string :=
  if isAddress address then
    match parseDigits 10 amount, parseDigits 10 generatedLoss with
    | Some a, Some g =>
        if (a <? 2 ^ 256) && (g <? 2 ^ 256) then
          Ok (concatHex [with0x (hexDigitsBE 24 0); toLowerCase address;
                         with0x (hexDigitsBE 64 a); with0x (hexDigitsBE 64 g)])
        else Err InvalidArgument
    | _, _ => Err InvalidArgument
    end
  else Err InvalidArgument.

(** The leaf hash of [StandardMerkleTree]. *)
Definition standardLeafHash (address amount generatedLoss : string) : result string :=
  e <- abiEncode address amount generatedLoss ;;
  h <- keccak256 e ;;
  keccak256 h.

(** The leaf that the script's tree holds for one row of the CSV. *)
Definition rowLeaf (address amount generatedLoss : string) : result string :=
  entry <- entryOf address amount generatedLoss ;;
  let '(a, am, gl) := entry in
  standardLeafHash a am gl.

End GenerateClaims.

(* ===================================================================== *)
(** ** The verifier's walk *)
(* ===================================================================== *)

(** Modelled from the spec: the scripts contain no verifier (it lives in
    the contract); the specification describes it as recomputing the root
    from a leaf and its proof by applying the sorted-pair combine up the
    proof path.  [processProof] is that fold, with the [hashPair] of the
    first revision. *)
Fixpoint processProof (computed : string) (proof : list string) : result string :=
  match proof with
  | [] => Ok computed
  | sibling :: rest =>
      h <- GenMerkle1.hashPair computed sibling ;;
      processProof h rest
  end.

(** A well-formed 32-byte hash: [0x] and 64 hexadecimal digits. *)
Definition isBytes32 (h : string) : bool :=
  match Viem.hexToBytes h with
  | Some bs => (List.length bs =? 32)%nat
  | None => false
  end.

Definition allBytes32 (hs : list string) : bool := forallb isBytes32 hs.


(* ===================================================================== *)
(** ** What the proof extractor reads *)
(* ===================================================================== *)

(** The index at which one turn of [getProof]'s loop reads the sibling:
    [pairIndex] when that lies before the end of the layer, [idx] itself
    otherwise. *)
Definition siblingIndex (layer : list string) (idx : Z) : Z :=
  let isRightNode := Z.rem idx 2 =? 1 in
  let pairIndex := if isRightNode then idx - 1 else idx + 1 in
  if pairIndex <? arrayLength layer then pairIndex else idx.

(** One turn of the loop, as the array positions it touches: the running
    index in [layer], the position the sibling is read at, and the index
    carried to [next], the layer above. *)
Record access : Type := mkAccess {
  accLayer : list string;
  accIndex : Z;
  accSibling : Z;
  accNext : list string;
  accNextIndex : Z
}.

Fixpoint getProof_accesses (layers : list (list string)) (idx : Z) : list access :=
  match layers with
  | layer :: ((next :: _) as rest) =>
      mkAccess layer idx (siblingIndex layer idx) next (idx / 2)
      :: getProof_accesses rest (idx / 2)
  | _ => []
  end.

Definition validIndex (a : list string) (i : Z) : Prop := 0 <= i < arrayLength a.

Definition inBounds (a : access) : Prop :=
  validIndex (accLayer a) (accIndex a) /\
  validIndex (accLayer a) (accSibling a) /\
  validIndex (accNext a) (accNextIndex a).

(** The layers that the [while] loop of [buildTree] stacks on a level:
    none when the level has at most one element, otherwise the result of
    the [for] loop followed by what is stacked on that. *)
Inductive stacked : list string -> list (list string) -> Prop :=
| stacked_top (level : list string) :
    arrayLength level <= 1 -> stacked level []
| stacked_next (level next : list string) (rest : list (list string)) :
    1 < arrayLength level ->
    GenMerkle1.buildTree_for level = Ok next ->
    stacked next rest ->
    stacked level (next :: rest).

(** A list of well-formed 32-byte hashes. *)
Definition wellFormed (hs : list string) : Prop :=
  Forall (fun h => isBytes32 h = true) hs.

(** The three-leaf tree of the odd-layer property: layer 1 is
    [[combine(L0, L1); combine(L2, L2)]] and the root combines the two. *)
Definition oddLayerTree (L0 L1 L2 c01 c22 r : string) : Prop :=
  GenMerkle1.hashPair L0 L1 = Ok c01 /\
  GenMerkle1.hashPair L2 L2 = Ok c22 /\
  GenMerkle1.hashPair c01 c22 = Ok r /\
  GenMerkle1.buildTree [L0; L1; L2]
  = Ok (mkTree (Some r) [[L0; L1; L2]; [c01; c22]; [r]]).

(** The odd-layer property as the specification words it: the tree above,
    and [[L2; layer1[0]]] as the proof of [L2]. *)
Definition oddLayerShape (L0 L1 L2 : string) : Prop :=
  exists c01 c22 r,
    oddLayerTree L0 L1 L2 c01 c22 r /\
    GenMerkle1.getProof L2 [[L0; L1; L2]; [c01; c22]; [r]]
    = Ok [Some L2; Some c01].

(** Three well-formed hashes to run the definitions on: the digests of
    the one-byte strings [01], [02] and [03]. *)
Definition sample1 : string :=
  "0x5fe7f977e71dba2ea1a68e21057beebb9be2ac30c6410aa38d4f3fbe41dcffd2".
Definition sample2 : string :=
  "0xf2ee15ea639b73fa3db9b34a245bdfa015c260c598b211bf05a1ecc4b3e3b4f2".
Definition sample3 : string :=
  "0x69c322e3248a5dfc29d73c5b0553b0185a35cd5bb6386747517ef7e53b15e287".

(** A record to run the leaf builders on. *)
Definition sampleAddress : string := "0x00000000000000000000000000000000000000ff".

(** The unsigned integer that a big-endian byte string stands for. *)
Definition beValue (bs : bytes) : Z := fold_left (fun acc b => 256 * acc + b) bs 0.

(** Two different 64-byte messages with one Keccak-256 digest. *)
Definition keccakCollision : Prop :=
  exists m1 m2 : bytes,
    List.length m1 = 64%nat /\ List.length m2 = 64%nat /\
    m1 <> m2 /\ Keccak.keccak256 m1 = Keccak.keccak256 m2.


(* ===================================================================== *)
(** ** scripts/gen-merkle.mjs, first revision: the rest of the script

    [readCsv] (lines 35-62) and the top-level run (lines 129-177).  The
    file system is modelled by the list of operations performed on it, in
    order, each of them taken to succeed; [console.log] is left out.
    ([scripts/ gen-merkle.mjs] has the same [readCsv] and the same run.) *)
(* ===================================================================== *)

Module Script1.
Import Viem.

(** What the script itself throws, next to what its helpers throw. *)
Inductive exn : Type :=
| CsvTooShort            (* "CSV must have header + at least 1 row" *)
| CsvBadHeader           (* "CSV header must include: address,amount,generatedLoss" *)
| BadAddressOnLine (line : Z) (text : string)
| BadAmountOnLine (line : Z) (text : string)
| BadGeneratedLossOnLine (line : Z) (text : string)
| Raised (e : error).    (* from the Merkle helpers and the libraries *)

Inductive outcome (A : Type) : Type :=
| Returned (a : A)
| Threw (e : exn).
Arguments Returned {A} a.
Arguments Threw {A} e.

Definition lift {A : Type} (r : result A) : outcome A :=
  match r with
  | Ok a => Returned a
  | Err e => Threw (Raised e)
  end.

(** [String.prototype.trim], on ASCII text. *)
Definition trim (s : string) : string := trimEnd (trimStart s).

Definition consChar (c : ascii) (parts : list string) : list string :=
  match parts with
  | [] => [String c EmptyString]
  | p :: ps => String c p :: ps
  end.

(** [s.split(",")]. *)
Fixpoint splitComma (s : string) : list string :=
  match s with
  | EmptyString => [EmptyString]
  | String c s' =>
      if code c =? 44 then EmptyString :: splitComma s'
      else consChar c (splitComma s')
  end.

(** [s.split(/\r?\n/)]: a line ends at a line feed, which takes a carriage
    return just before it along. *)
Fixpoint splitLines (s : string) : list string :=
  match s with
  | EmptyString => [EmptyString]
  | String c s' =>
      match s' with
      | String d s'' =>
          if (code c =? 13) && (code d =? 10) then EmptyString :: splitLines s''
          else if code c =? 10 then EmptyString :: splitLines s'
          else consChar c (splitLines s')
      | EmptyString =>
          if code c =? 10 then [EmptyString; EmptyString]
          else [String c EmptyString]
      end
  end.

Definition nonEmpty (s : string) : bool :=
  match s with
  | EmptyString => false
  | String _ _ => true
  end.

(** [raw.split(/\r?\n/).filter(Boolean)] for the trimmed content. *)
Definition linesOf (content : string) : list string :=
  filter nonEmpty (splitLines (trim content)).

(** [cell || fallback]: the fallback replaces a missing or empty cell. *)
Definition orElse (cell : option string) (fallback : string) : string :=
  match cell with
  | Some (String _ _ as s) => s
  | _ => fallback
  end.

(** [/^\d+$/.test(s)]. *)
Definition isDecimal (s : string) : bool :=
  match parseDigits 10 s with
  | Some _ => true
  | None => false
  end.

Record Row : Type := mkRow {
  address : string;
  amount : string;
  generatedLoss : string
}.

(** The loop over the lines after the header; [i] is the loop counter. *)
Fixpoint readRows (idxAddr idxAmt idxLoss : Z) (i : Z) (lines : list string)
  : outcome (list Row) :=
  match lines with
  | [] => Returned []
  | line :: rest =>
      let cols := map trim (splitComma line) in
      let address := toLowerCase (orElse (arrayGet cols idxAddr) EmptyString) in
      let amount := orElse (arrayGet cols idxAmt) "0" in
      let generatedLoss := orElse (arrayGet cols idxLoss) "0" in
      if negb (isAddress address) then Threw (BadAddressOnLine (i + 1) address)
      else if negb (isDecimal amount) then Threw (BadAmountOnLine (i + 1) amount)
      else if negb (isDecimal generatedLoss)
      then Threw (BadGeneratedLossOnLine (i + 1) generatedLoss)
      else
        match readRows idxAddr idxAmt idxLoss (i + 1) rest with
        | Returned rows => Returned (mkRow address amount generatedLoss :: rows)
        | Threw e => Threw e
        end
  end.

(** [readCsv], given the content of the file. *)
Definition readCsv (content : string) : outcome (list Row) :=
  let lines := linesOf content in
  if arrayLength lines <? 2 then Threw CsvTooShort
  else
    match arrayGet lines 0 with
    | None => Threw (Raised TypeError)
    | Some first =>
        let header := map trim (splitComma first) in
        let idxAddr := indexOf header "address" in
        let idxAmt := indexOf header "amount" in
        let idxLoss := indexOf header "generatedLoss" in
        if (idxAddr <? 0) || (idxAmt <? 0) || (idxLoss <? 0) then Threw CsvBadHeader
        else readRows idxAddr idxAmt idxLoss 1 (tl lines)
    end.

(** What [readCsv] has checked of a row it returns. *)
Definition validRow (r : Row) : Prop :=
  isAddress (address r) = true /\ toLowerCase (address r) = address r /\
  isDecimal (amount r) = true /\ isDecimal (generatedLoss r) = true.

(** The cells of the header line. *)
Definition headerOf (line : string) : list string := map trim (splitComma line).


(** [n.toString()] for a BigInt [n]. *)
Equations? digitsOf (n : Z) (acc : string) : string by wf (Z.to_nat (Z.log2 n)) lt :=
  digitsOf n acc with inspect (n <? 10) := {
    | exist _ true _ => String (hexDigitChar n) acc
    | exist _ false Hge => digitsOf (n / 10) (String (hexDigitChar (n mod 10)) acc) }.
Proof.
  apply Z.ltb_ge in Hge.
  assert (H2 : Z.log2 (n / 10) <= Z.log2 (Z.shiftr n 1)).
  { apply Z.log2_le_mono. rewrite Z.shiftr_div_pow2 by lia.
    change (2 ^ 1) with 2.
    apply Z.div_le_lower_bound; [lia|].
    pose proof (Z.mul_div_le n 10). lia. }
  rewrite Z.log2_shiftr in H2 by lia.
  assert (3 <= Z.log2 n) by (apply Z.log2_le_pow2; simpl; lia).
  pose proof (Z.log2_nonneg (n / 10)). lia.
Qed.

Definition toString (n : Z) : string :=
  if n <? 0 then String "-" (digitsOf (- n) EmptyString)
  else digitsOf n EmptyString.

(** [path.join] of segments that need no normalising: a directory that
    does not end in a separator, fixed names, the text of a number,
    [<address>.json] for an address that [isAddress] accepts. *)
Definition pathJoin (segments : list string) : string := String.concat "/" segments.

(** What the run takes from its surroundings.  [CHAIN_ID] and [EPOCH_ID]
    are JavaScript numbers, of which only the text [String(n)] matters to
    the run; [ROOT] is [process.cwd()]; [now] is
    [new Date().toISOString()]; [sortRows] is
    [rows.sort((a, b) => a.address.localeCompare(b.address))], whose order
    is the host's collation. *)
Record Env : Type := mkEnv {
  num : Type;
  numText : num -> string;
  CHAIN_ID : num;
  EPOCH_ID : num;
  ROOT : string;
  now : string;
  sortRows : list Row -> list Row
}.

Section Run.

Variable env : Env.

(** The object written to [claims/<chainId>/<address>.json]. *)
Record Bundle : Type := mkBundle {
  out_epochId : num env;
  out_amount : string;
  out_generatedLoss : string;
  out_proof : list (option string)
}.

(** The object written to [epochs/<chainId>/<epochId>.json] and
    [latest.json]. *)
Record EpochMeta : Type := mkEpochMeta {
  meta_chainId : num env;
  meta_epochId : num env;
  meta_merkleRoot : option string;
  meta_count : Z;
  meta_totalAmount : string;
  meta_totalGeneratedLoss : string;
  meta_input : string;
  meta_generatedAt : string
}.

Inductive json : Type :=
| JBundle (b : Bundle)
| JMeta (m : EpochMeta).

Inductive fsOp : Type :=
| Mkdir (path : string)                   (* fs.mkdirSync(p, { recursive: true }) *)
| WriteJson (path : string) (obj : json). (* fs.writeFileSync(file, JSON.stringify(obj, ...)) *)

(** A step of the script: from the operations done so far to the
    operations done after it, with what it returned or threw. *)
Definition prog (A : Type) : Type := list fsOp -> list fsOp * outcome A.

Definition ret {A : Type} (a : A) : prog A := fun ops => (ops, Returned a).

Definition andThen {A B : Type} (p : prog A) (k : A -> prog B) : prog B :=
  fun ops =>
    match p ops with
    | (ops', Returned a) => k a ops'
    | (ops', Threw e) => (ops', Threw e)
    end.

Definition pure {A : Type} (r : result A) : prog A := fun ops => (ops, lift r).

Definition ensureDir (p : string) : prog unit :=
  fun ops => (ops ++ [Mkdir p], Returned tt).

Definition writeJson (file : string) (obj : json) : prog unit :=
  fun ops => (ops ++ [WriteJson file obj], Returned tt).

(** [rows.map((r) => leafPacked(r.address, r.amount, r.generatedLoss))]. *)
Fixpoint leavesOf (rows : list Row) : result (list string) :=
  match rows with
  | [] => Ok []
  | r :: rest =>
      leaf <- GenMerkle1.leafPacked (address r) (amount r) (generatedLoss r) ;;
      leaves <- leavesOf rest ;;
      Ok (leaf :: leaves)
  end.

(** [getProof(leaves[i], layers)]; a missing leaf is [undefined], which no
    layer of strings holds. *)
Definition getProofAt (leaves : list string) (i : Z) (layers : list (list string))
  : result (list (option string)) :=
  match arrayGet leaves i with
  | Some leaf => GenMerkle1.getProof leaf layers
  | None =>
      match arrayGet layers 0 with
      | Some _ => Err LeafNotFound
      | None => Err TypeError
      end
  end.

Definition claimsDir : string := pathJoin [ROOT env; "claims"; numText env (CHAIN_ID env)].
Definition epochsDir : string := pathJoin [ROOT env; "epochs"; numText env (CHAIN_ID env)].

Definition claimFile (address : string) : string :=
  pathJoin [claimsDir; String.append address ".json"].

Definition epochFile : string :=
  pathJoin [epochsDir; String.append (numText env (EPOCH_ID env)) ".json"].

Definition latestFile : string := pathJoin [epochsDir; "latest.json"].

(** The loop that writes one bundle per row: [i] is the loop counter, the
    totals are the running sums. *)
Fixpoint writeClaims (leaves : list string) (layers : list (list string))
  (rows : list Row) (i : Z) (totalAmount totalLoss : Z) : prog (Z * Z) :=
  match rows with
  | [] => ret (totalAmount, totalLoss)
  | r :: rest =>
      andThen (pure (getProofAt leaves i layers)) (fun proof =>
      andThen (pure (BigInt (amount r))) (fun a =>
      andThen (pure (BigInt (generatedLoss r))) (fun g =>
      andThen (writeJson (claimFile (address r))
                 (JBundle (mkBundle (EPOCH_ID env) (amount r) (generatedLoss r) proof)))
              (fun _ =>
      writeClaims leaves layers rest (i + 1) (totalAmount + a) (totalLoss + g)))))
  end.

Definition epochMetaOf (rows : list Row) (root : option string) (totals : Z * Z)
  : EpochMeta :=
  mkEpochMeta (CHAIN_ID env) (EPOCH_ID env) root (arrayLength rows)
    (toString (fst totals)) (toString (snd totals))
    (String.concat EmptyString
       ["inputs/"; numText env (CHAIN_ID env); "/epoch-";
        numText env (EPOCH_ID env); ".csv"])
    (now env).

(** The run from the sorted rows on (lines 134-177). *)
Definition run (rows : list Row) : prog unit :=
  andThen (pure (leavesOf rows)) (fun leaves =>
  andThen (pure (GenMerkle1.buildTree leaves)) (fun t =>
  andThen (ensureDir claimsDir) (fun _ =>
  andThen (ensureDir epochsDir) (fun _ =>
  andThen (writeClaims leaves (layers t) rows 0 0 0) (fun totals =>
  let epochMeta := epochMetaOf rows (root t) totals in
  andThen (writeJson epochFile (JMeta epochMeta)) (fun _ =>
  writeJson latestFile (JMeta epochMeta))))))).

(** The whole script (lines 129-177), given the content of the input
    file. *)
Definition script (content : string) : prog unit :=
  fun ops =>
    match readCsv content with
    | Returned rows => run (sortRows env rows) ops
    | Threw e => (ops, Threw e)
    end.

(** The file a path holds after a run of operations: what was written to
    it last. *)
Fixpoint fileAfter (ops : list fsOp) (path : string) (before : option json)
  : option json :=
  match ops with
  | [] => before
  | WriteJson p obj :: rest =>
      fileAfter rest path (if String.eqb p path then Some obj else before)
  | Mkdir _ :: rest => fileAfter rest path before
  end.

(** The write that the loop does for a row whose leaf is [leaf]. *)
Definition proofOf (layers : list (list string)) (leaf : string)
  : list (option string) :=
  match GenMerkle1.getProof leaf layers with
  | Ok proof => proof
  | Err _ => []
  end.

Definition claimWrite (layers : list (list string)) (entry : Row * string) : fsOp :=
  WriteJson (claimFile (address (fst entry)))
    (JBundle (mkBundle (EPOCH_ID env) (amount (fst entry))
                (generatedLoss (fst entry)) (proofOf layers (snd entry)))).

(** The value of a row's amount, for the totals. *)
Definition valueOf (text : string) : Z :=
  match BigInt text with
  | Ok n => n
  | Err _ => 0
  end.

Definition sumZ (values : list Z) : Z := fold_right Z.add 0 values.

(** The two totals of the run: the sums of the rows' amounts and of their
    generated losses. *)
Definition totalsOf (rows : list Row) : Z * Z :=
  (sumZ (map (fun r => valueOf (amount r)) rows),
   sumZ (map (fun r => valueOf (generatedLoss r)) rows)).

(** A row that [leafPacked] turns down for its size. *)
Definition oversized (r : Row) : Prop :=
  2 ^ 256 <= valueOf (amount r) \/ 2 ^ 256 <= valueOf (generatedLoss r).

Definition inRange (r : Row) : Prop :=
  valueOf (amount r) < 2 ^ 256 /\ valueOf (generatedLoss r) < 2 ^ 256.

End Run.

End Script1.

(* ===================================================================== *)
(** ** scripts/gen-merkle.mjs, second revision: [readCsv] (lines 228-256)

    The cells of the header are lowered as well as trimmed, and the third
    column is looked up as [generatedloss]; the loop over the rows is that
    of the first revision. *)
(* ===================================================================== *)

Module Script2.
Import Viem.

Definition headerOf (line : string) : list string :=
  map (fun s => toLowerCase (Script1.trim s)) (Script1.splitComma line).

Definition readCsv (content : string) : Script1.outcome (list Script1.Row) :=
  let lines := Script1.linesOf content in
  if arrayLength lines <? 2 then Script1.Threw Script1.CsvTooShort
  else
    match arrayGet lines 0 with
    | None => Script1.Threw (Script1.Raised TypeError)
    | Some first =>
        let header := headerOf first in
        let idxAddr := indexOf header "address" in
        let idxAmt := indexOf header "amount" in
        let idxLoss := indexOf header "generatedloss" in
        if (idxAddr <? 0) || (idxAmt <? 0) || (idxLoss <? 0)
        then Script1.Threw Script1.CsvBadHeader
        else Script1.readRows idxAddr idxAmt idxLoss 1 (tl lines)
    end.

End Script2.


(** Sample input for the script. *)
Definition newline : string := String (chr 10) EmptyString.

(** Numbers are given by their text; the rows are in order already. *)
Definition sampleEnv : Script1.Env :=
  Script1.mkEnv string (fun text => text) "59144" "12" "/repo"
    "2026-01-01T00:00:00.000Z" (fun rows => rows).

Definition sampleCsv : string :=
  String.concat newline
    ["address,amount,generatedLoss";
     "0x0000000000000000000000000000000000000001,5,0";
     "0x00000000000000000000000000000000000000FF, 100 ,7";
     "0x00000000000000000000000000000000000000ff,8,";
     ""].

Definition sampleRows : list Script1.Row :=
  [Script1.mkRow "0x0000000000000000000000000000000000000001" "5" "0";
   Script1.mkRow sampleAddress "100" "7";
   Script1.mkRow sampleAddress "8" "0"].

(** The operations of the run on the sample rows. *)
Definition sampleOps : list (Script1.fsOp sampleEnv) :=
  fst (Script1.run sampleEnv sampleRows []).

(** The tree over the three sample hashes. *)
Definition sampleTree : Tree :=
  match GenMerkle1.buildTree [sample1; sample2; sample3] with
  | Ok t => t
  | Err _ => mkTree None []
  end.

(** An input with an amount of [2^256]. *)
Definition oversizedCsv : string :=
  String.concat newline
    ["address,amount,generatedLoss";
     "0x0000000000000000000000000000000000000001,115792089237316195423570985008687907853269984665640564039457584007913129639936,0"].

Definition oversizedRows : list Script1.Row :=
  [Script1.mkRow "0x0000000000000000000000000000000000000001"
     "115792089237316195423570985008687907853269984665640564039457584007913129639936"
     "0"].


(** An input whose header has a column name twice, in two cases. *)
Definition mixedCaseCsv : string :=
  String.concat newline
    ["Amount,address,amount,generatedLoss";
     "1,0x00000000000000000000000000000000000000ff,2,3"].

(* ===================================================================== *)
(** ** Code units and hexadecimal digits *)
(* ===================================================================== *)

Import Viem.

Lemma code_range (c : ascii) : 0 <= code c < 256.
Proof.
  unfold code. pose proof (N_ascii_bounded c). lia.
Qed.

Lemma code_chr (n : Z) : 0 <= n < 256 -> code (chr n) = n.
Proof.
  intros Hn. unfold code, chr.
  rewrite N_ascii_embedding by lia. lia.
Qed.

Lemma code_inj (c d : ascii) : code c = code d -> c = d.
Proof.
  unfold code. intros H.
  rewrite <- (ascii_N_embedding c), <- (ascii_N_embedding d).
  f_equal. lia.
Qed.

Lemma code_lowerChar (c : ascii) :
  (65 <= code c <= 90 /\ code (lowerChar c) = code c + 32) \/
  (~ 65 <= code c <= 90 /\ lowerChar c = c).
Proof.
  unfold lowerChar. pose proof (code_range c).
  destruct (Z.leb_spec 65 (code c)); destruct (Z.leb_spec (code c) 90);
    cbn [andb]; try (right; split; [lia | reflexivity]).
  left. split; [lia|]. apply code_chr. lia.
Qed.

(** The three ranges of hexadecimal digits. *)
Inductive hexDigit (c : ascii) (v : Z) : Prop :=
| hexDecimal : 48 <= code c <= 57 -> v = code c - 48 -> hexDigit c v
| hexLower : 97 <= code c <= 102 -> v = code c - 87 -> hexDigit c v
| hexUpper : 65 <= code c <= 70 -> v = code c - 55 -> hexDigit c v.

Lemma hexDigitVal_spec (c : ascii) (v : Z) :
  hexDigitVal c = Some v <-> hexDigit c v.
Proof.
  unfold hexDigitVal. split.
  - intros H.
    destruct (Z.leb_spec 48 (code c)); destruct (Z.leb_spec (code c) 57);
      cbn [andb] in H; try (inversion H; apply hexDecimal; lia);
      destruct (Z.leb_spec 97 (code c)); destruct (Z.leb_spec (code c) 102);
      cbn [andb] in H; try (inversion H; apply hexLower; lia);
      destruct (Z.leb_spec 65 (code c)); destruct (Z.leb_spec (code c) 70);
      cbn [andb] in H; try (inversion H; apply hexUpper; lia);
      discriminate.
  - intros [H1 H2|H1 H2|H1 H2]; subst v.
    + replace (48 <=? code c) with true by (symmetry; apply Z.leb_le; lia).
      replace (code c <=? 57) with true by (symmetry; apply Z.leb_le; lia).
      reflexivity.
    + replace (48 <=? code c) with true by (symmetry; apply Z.leb_le; lia).
      replace (code c <=? 57) with false by (symmetry; apply Z.leb_gt; lia).
      replace (97 <=? code c) with true by (symmetry; apply Z.leb_le; lia).
      replace (code c <=? 102) with true by (symmetry; apply Z.leb_le; lia).
      reflexivity.
    + replace (48 <=? code c) with true by (symmetry; apply Z.leb_le; lia).
      replace (code c <=? 57) with false by (symmetry; apply Z.leb_gt; lia).
      replace (97 <=? code c) with false by (symmetry; apply Z.leb_gt; lia).
      replace (65 <=? code c) with true by (symmetry; apply Z.leb_le; lia).
      replace (code c <=? 70) with true by (symmetry; apply Z.leb_le; lia).
      reflexivity.
Qed.

Lemma hexDigitVal_range (c : ascii) (v : Z) :
  hexDigitVal c = Some v -> 0 <= v < 16.
Proof.
  intros H. apply hexDigitVal_spec in H. destruct H; lia.
Qed.

Lemma hexDigit_lowerChar (c : ascii) (v : Z) :
  hexDigit c v -> hexDigit (lowerChar c) v.
Proof.
  intros H. destruct (code_lowerChar c) as [[Hr Hc]|[Hr Hc]].
  - destruct H as [H1 H2|H1 H2|H1 H2]; try lia.
    apply hexLower; lia.
  - rewrite Hc. exact H.
Qed.

Lemma hexDigitVal_lowerChar (c : ascii) :
  hexDigitVal (lowerChar c) = hexDigitVal c.
Proof.
  destruct (hexDigitVal c) as [v|] eqn:E.
  - apply hexDigitVal_spec, hexDigit_lowerChar, hexDigitVal_spec, E.
  - destruct (hexDigitVal (lowerChar c)) as [v|] eqn:E'; [|reflexivity].
    apply hexDigitVal_spec in E'.
    assert (Hc : hexDigit c v).
    { destruct (code_lowerChar c) as [[Hr Hc]|[Hr Hc]].
      - destruct E' as [H1 H2|H1 H2|H1 H2]; try lia.
        apply hexUpper; lia.
      - rewrite Hc in E'. exact E'. }
    apply hexDigitVal_spec in Hc. congruence.
Qed.

Lemma hexDigitVal_hexDigitChar (v : Z) :
  0 <= v < 16 -> hexDigitVal (hexDigitChar v) = Some v.
Proof.
  intros Hv. apply hexDigitVal_spec. unfold hexDigitChar.
  destruct (Z.ltb_spec v 10).
  - apply hexDecimal; rewrite code_chr by lia; lia.
  - apply hexLower; rewrite code_chr by lia; lia.
Qed.

(** Lower-cased hexadecimal digits are ordered by code unit exactly as
    their values are. *)
Lemma hexDigit_order (c d : ascii) (u v : Z) :
  hexDigitVal c = Some u -> hexDigitVal d = Some v ->
  (code (lowerChar c) <? code (lowerChar d)) = (u <? v).
Proof.
  intros Hc Hd.
  apply hexDigitVal_spec, hexDigit_lowerChar in Hc.
  apply hexDigitVal_spec, hexDigit_lowerChar in Hd.
  assert (Hlc : ~ 65 <= code (lowerChar c) <= 70).
  { destruct (code_lowerChar c) as [[? ?]|[? E]]; [lia | rewrite E; lia]. }
  assert (Hld : ~ 65 <= code (lowerChar d) <= 70).
  { destruct (code_lowerChar d) as [[? ?]|[? E]]; [lia | rewrite E; lia]. }
  destruct Hc as [H1 H2|H1 H2|H1 H2]; destruct Hd as [H3 H4|H3 H4|H3 H4];
    try lia; subst u v;
    destruct (Z.ltb_spec (code (lowerChar c)) (code (lowerChar d)));
    symmetry; (apply Z.ltb_lt || apply Z.ltb_ge); lia.
Qed.

(* ===================================================================== *)
(** ** Hexadecimal text and the bytes it stands for *)
(* ===================================================================== *)

Lemma hexBody_nil_inv (s : string) : hexBody s = Some [] -> s = EmptyString.
Proof.
  destruct s as [|h [|l rest]]; cbn [hexBody]; intros H;
    [reflexivity | discriminate |].
  destruct (hexDigitVal h), (hexDigitVal l), (hexBody rest); discriminate.
Qed.

Lemma hexBody_cons_inv (s : string) (b : Z) (bs : bytes) :
  hexBody s = Some (b :: bs) ->
  exists h l rest u v,
    s = String h (String l rest) /\
    hexDigitVal h = Some u /\ hexDigitVal l = Some v /\
    b = 16 * u + v /\ hexBody rest = Some bs.
Proof.
  destruct s as [|h [|l rest]]; cbn [hexBody]; intros H; try discriminate.
  destruct (hexDigitVal h) as [u|] eqn:Hh; [|discriminate].
  destruct (hexDigitVal l) as [v|] eqn:Hl; [|discriminate].
  destruct (hexBody rest) as [bs'|] eqn:Hr; [|discriminate].
  inversion H; subst. exists h, l, rest, u, v. auto.
Qed.

Lemma hexBody_cons (h l : ascii) (rest : string) (u v : Z) (bs : bytes) :
  hexDigitVal h = Some u -> hexDigitVal l = Some v -> hexBody rest = Some bs ->
  hexBody (String h (String l rest)) = Some (16 * u + v :: bs).
Proof.
  intros Hh Hl Hr. cbn [hexBody]. rewrite Hh, Hl, Hr. reflexivity.
Qed.

Lemma hexBody_app (x y : bytes) :
  forall s t, hexBody s = Some x -> hexBody t = Some y ->
  hexBody (String.append s t) = Some (x ++ y).
Proof.
  induction x as [|b x IH]; intros s t Hs Ht.
  - apply hexBody_nil_inv in Hs. subst s. exact Ht.
  - apply hexBody_cons_inv in Hs.
    destruct Hs as (h & l & rest & u & v & -> & Hh & Hl & -> & Hr).
    cbn [String.append app]. apply hexBody_cons; auto.
Qed.

Lemma hexBody_length (x : bytes) :
  forall s, hexBody s = Some x -> String.length s = (2 * List.length x)%nat.
Proof.
  induction x as [|b x IH]; intros s Hs.
  - apply hexBody_nil_inv in Hs. subst s. reflexivity.
  - apply hexBody_cons_inv in Hs.
    destruct Hs as (h & l & rest & u & v & -> & Hh & Hl & -> & Hr).
    cbn [String.length List.length]. rewrite (IH rest Hr). lia.
Qed.

Lemma hexBody_isByte (x : bytes) :
  forall s, hexBody s = Some x -> Forall isByte x.
Proof.
  induction x as [|b x IH]; intros s Hs; constructor.
  - apply hexBody_cons_inv in Hs.
    destruct Hs as (h & l & rest & u & v & -> & Hh & Hl & -> & Hr).
    apply hexDigitVal_range in Hh, Hl. unfold isByte. lia.
  - apply hexBody_cons_inv in Hs.
    destruct Hs as (h & l & rest & u & v & -> & Hh & Hl & -> & Hr).
    eapply IH; eauto.
Qed.

Lemma hexBody_hexOfBytes (x : bytes) :
  Forall isByte x -> hexBody (hexOfBytes x) = Some x.
Proof.
  induction 1 as [|b x Hb Hx IH]; [reflexivity|].
  unfold isByte in Hb. cbn [hexOfBytes].
  replace (b :: x) with (16 * (b / 16) + b mod 16 :: x)
    by (f_equal; pose proof (Z.div_mod b 16); lia).
  apply hexBody_cons; auto; apply hexDigitVal_hexDigitChar.
  - split; [apply Z.div_pos; lia | apply Z.div_lt_upper_bound; lia].
  - apply Z.mod_pos_bound. lia.
Qed.

Lemma hexBody_toLowerCase (x : bytes) :
  forall s, hexBody s = Some x -> hexBody (toLowerCase s) = Some x.
Proof.
  induction x as [|b x IH]; intros s Hs.
  - apply hexBody_nil_inv in Hs. subst s. reflexivity.
  - apply hexBody_cons_inv in Hs.
    destruct Hs as (h & l & rest & u & v & -> & Hh & Hl & -> & Hr).
    cbn [toLowerCase]. apply hexBody_cons; auto;
      rewrite hexDigitVal_lowerChar; assumption.
Qed.

(** The comparison the scripts make, on lower-cased text, is the
    byte-lexicographic comparison of the values the text stands for. *)
Lemma strLt_hexBody (x : bytes) :
  forall y s t,
    hexBody s = Some x -> hexBody t = Some y ->
    List.length x = List.length y ->
    strLt (toLowerCase s) (toLowerCase t) = bytesLt x y.
Proof.
  induction x as [|a x IH]; intros [|b y] s t Hs Ht Hlen; try discriminate.
  - apply hexBody_nil_inv in Hs, Ht. subst. reflexivity.
  - apply hexBody_cons_inv in Hs, Ht.
    destruct Hs as (h1 & l1 & r1 & u1 & v1 & -> & Hh1 & Hl1 & -> & Hr1).
    destruct Ht as (h2 & l2 & r2 & u2 & v2 & -> & Hh2 & Hl2 & -> & Hr2).
    cbn [toLowerCase strLt bytesLt].
    rewrite (hexDigit_order h1 h2 u1 u2), (hexDigit_order h2 h1 u2 u1),
            (hexDigit_order l1 l2 v1 v2), (hexDigit_order l2 l1 v2 v1) by assumption.
    rewrite (IH y r1 r2 Hr1 Hr2) by (simpl in Hlen; lia).
    apply hexDigitVal_range in Hh1, Hl1, Hh2, Hl2.
    destruct (Z.ltb_spec u1 u2); destruct (Z.ltb_spec u2 u1); try lia;
      destruct (Z.ltb_spec (16 * u1 + v1) (16 * u2 + v2));
      destruct (Z.ltb_spec (16 * u2 + v2) (16 * u1 + v1)); try lia;
      try reflexivity;
      destruct (Z.ltb_spec v1 v2); destruct (Z.ltb_spec v2 v1); try lia;
      reflexivity.
Qed.

Lemma strip0x_inv (h body : string) :
  strip0x h = Some body -> h = with0x body.
Proof.
  destruct h as [|c0 [|c1 rest]]; cbn [strip0x]; try discriminate.
  destruct (Z.eqb_spec (code c0) 48); destruct (Z.eqb_spec (code c1) 120);
    cbn [andb]; try discriminate.
  intros H. inversion H; subst. unfold with0x.
  f_equal; [|f_equal]; apply code_inj; assumption.
Qed.

Lemma strip0x_with0x (body : string) : strip0x (with0x body) = Some body.
Proof. reflexivity. Qed.

Lemma remove0x_with0x (body : string) : remove0x (with0x body) = body.
Proof. reflexivity. Qed.

Lemma hexToBytes_inv (h : string) (x : bytes) :
  hexToBytes h = Some x ->
  exists body, h = with0x body /\ hexBody body = Some x.
Proof.
  unfold hexToBytes. destruct (strip0x h) as [body|] eqn:E; [|discriminate].
  intros H. exists body. split; [apply strip0x_inv, E | exact H].
Qed.

Lemma hexToBytes_with0x (body : string) : hexToBytes (with0x body) = hexBody body.
Proof. reflexivity. Qed.

Lemma toLowerCase_with0x (body : string) :
  toLowerCase (with0x body) = with0x (toLowerCase body).
Proof. reflexivity. Qed.

Lemma strLt_with0x (s t : string) : strLt (with0x s) (with0x t) = strLt s t.
Proof. reflexivity. Qed.

Lemma hexToBytes_bytesToHex (x : bytes) :
  Forall isByte x -> hexToBytes (bytesToHex x) = Some x.
Proof.
  intros H. unfold bytesToHex. rewrite hexToBytes_with0x.
  apply hexBody_hexOfBytes, H.
Qed.

Lemma hexToBytes_length (h : string) (x : bytes) :
  hexToBytes h = Some x -> String.length h = (2 + 2 * List.length x)%nat.
Proof.
  intros H. apply hexToBytes_inv in H. destruct H as (body & -> & Hb).
  cbn [with0x String.length]. rewrite (hexBody_length x body Hb). lia.
Qed.

(** Byte strings of one length are totally ordered by [bytesLt]. *)
Lemma bytesLt_asym (x : bytes) :
  forall y, bytesLt x y = true -> bytesLt y x = false.
Proof.
  induction x as [|a x IH]; intros [|b y]; cbn [bytesLt]; try congruence.
  destruct (Z.ltb_spec a b); destruct (Z.ltb_spec b a); try lia; auto.
Qed.

Lemma bytesLt_total (x : bytes) :
  forall y, List.length x = List.length y ->
  bytesLt x y = false -> bytesLt y x = false -> x = y.
Proof.
  induction x as [|a x IH]; intros [|b y] Hlen; cbn [bytesLt];
    try discriminate; [reflexivity|].
  destruct (Z.ltb_spec a b); destruct (Z.ltb_spec b a);
    try discriminate; try lia.
  intros H1 H2. f_equal; [lia|]. apply IH; auto.
Qed.

Lemma bytesMin_bytesMax_comm (x y : bytes) :
  List.length x = List.length y ->
  bytesMin x y ++ bytesMax x y = bytesMin y x ++ bytesMax y x.
Proof.
  intros Hlen. unfold bytesMin, bytesMax.
  destruct (bytesLt y x) eqn:Hyx; destruct (bytesLt x y) eqn:Hxy;
    try reflexivity.
  - apply bytesLt_asym in Hyx. congruence.
  - rewrite (bytesLt_total x y Hlen Hxy Hyx). reflexivity.
Qed.

(* ===================================================================== *)
(** ** The shape of a Keccak-256 digest *)
(* ===================================================================== *)

Arguments Keccak.keccak256 : simpl never.
Arguments Keccak.keccak_f : simpl never.

Lemma iota_length (rc : Z) (st : list Z) :
  List.length (Keccak.iota rc st) = List.length st.
Proof. destruct st; reflexivity. Qed.

Lemma round_length (st : list Z) (rc : Z) :
  List.length (Keccak.round st rc) = 25%nat.
Proof.
  unfold Keccak.round, Keccak.chi.
  rewrite iota_length, length_map. reflexivity.
Qed.

Lemma keccak_f_length (st : list Z) : List.length (Keccak.keccak_f st) = 25%nat.
Proof.
  unfold Keccak.keccak_f, Keccak.roundConstants.
  cbn [fold_left]. apply round_length.
Qed.

Lemma absorb_length (n : nat) :
  forall st msg, List.length st = 25%nat ->
  List.length (Keccak.absorb n st msg) = 25%nat.
Proof.
  induction n as [|n IH]; intros st msg Hst; cbn [Keccak.absorb]; [exact Hst|].
  apply IH, keccak_f_length.
Qed.

Lemma bytesOfLane_length (n : nat) :
  forall v, List.length (Keccak.bytesOfLane n v) = n.
Proof.
  induction n as [|n IH]; intros v; cbn [Keccak.bytesOfLane List.length];
    [reflexivity | rewrite IH; reflexivity].
Qed.

Lemma bytesOfLane_isByte (n : nat) :
  forall v, Forall isByte (Keccak.bytesOfLane n v).
Proof.
  induction n as [|n IH]; intros v; cbn [Keccak.bytesOfLane]; constructor.
  - unfold isByte. apply Z.mod_pos_bound. lia.
  - apply IH.
Qed.

Lemma keccak256_length (msg : bytes) : List.length (Keccak.keccak256 msg) = 32%nat.
Proof.
  unfold Keccak.keccak256.
  set (st := Keccak.absorb _ _ _).
  assert (Hst : List.length st = 25%nat)
    by (apply absorb_length; reflexivity).
  destruct st as [|a [|b [|c [|d rest]]]]; try discriminate.
  cbn [firstn flat_map]. rewrite !length_app, !bytesOfLane_length. reflexivity.
Qed.

Lemma keccak256_isByte (msg : bytes) : Forall isByte (Keccak.keccak256 msg).
Proof.
  unfold Keccak.keccak256. apply Forall_flat_map.
  apply Forall_forall. intros v _. apply bytesOfLane_isByte.
Qed.

Lemma hexToBytes_digest (msg : bytes) :
  hexToBytes (bytesToHex (Keccak.keccak256 msg)) = Some (Keccak.keccak256 msg).
Proof. apply hexToBytes_bytesToHex, keccak256_isByte. Qed.

Lemma isBytes32_digest (msg : bytes) :
  isBytes32 (bytesToHex (Keccak.keccak256 msg)) = true.
Proof.
  unfold isBytes32. rewrite hexToBytes_digest, keccak256_length. reflexivity.
Qed.

Lemma isBytes32_inv (h : string) :
  isBytes32 h = true ->
  exists x, hexToBytes h = Some x /\ List.length x = 32%nat.
Proof.
  unfold isBytes32. destruct (hexToBytes h) as [x|]; [|discriminate].
  intros H. exists x. split; [reflexivity | apply Nat.eqb_eq, H].
Qed.

(* ===================================================================== *)
(** ** [hashPair] on well-formed hashes *)
(* ===================================================================== *)

(** Packing two 32-byte values and hashing the result. *)
Lemma keccak256_encodePacked_pair (a b : string) (x y : bytes) :
  hexToBytes a = Some x -> hexToBytes b = Some y ->
  List.length x = 32%nat -> List.length y = 32%nat ->
  (p <- encodePacked [PBytes32 a; PBytes32 b] ;; keccak256 p)
  = Ok (bytesToHex (Keccak.keccak256 (x ++ y))).
Proof.
  intros Ha Hb Hx Hy.
  pose proof (hexToBytes_length a x Ha) as La.
  pose proof (hexToBytes_length b y Hb) as Lb.
  apply hexToBytes_inv in Ha, Hb.
  destruct Ha as (sa & -> & Ha). destruct Hb as (sb & -> & Hb).
  unfold encodePacked. cbn [encodeAll encode bind].
  rewrite La, Lb, Hx, Hy. cbn [Nat.eqb Nat.add Nat.mul bind].
  unfold concatHex. cbn [map String.concat]. rewrite !remove0x_with0x.
  unfold keccak256. rewrite hexToBytes_with0x.
  rewrite (hexBody_app x y sa (String.append EmptyString sb) Ha Hb).
  reflexivity.
Qed.

(** The sorted-pair hash, in terms of bytes. *)
Lemma hashPair_bytes (a b : string) (x y : bytes) :
  hexToBytes a = Some x -> hexToBytes b = Some y ->
  List.length x = 32%nat -> List.length y = 32%nat ->
  GenMerkle1.hashPair a b
  = Ok (bytesToHex (Keccak.keccak256 (bytesMin x y ++ bytesMax x y))).
Proof.
  intros Ha Hb Hx Hy. unfold GenMerkle1.hashPair.
  assert (Hlt : strLt (toLowerCase a) (toLowerCase b) = bytesLt x y).
  { destruct (hexToBytes_inv a x Ha) as (sa & -> & Hsa).
    destruct (hexToBytes_inv b y Hb) as (sb & -> & Hsb).
    rewrite !toLowerCase_with0x, strLt_with0x.
    apply strLt_hexBody; auto. congruence. }
  cbv zeta. rewrite Hlt.
  destruct (bytesLt x y) eqn:Hxy.
  - rewrite (keccak256_encodePacked_pair a b x y) by assumption.
    unfold bytesMin, bytesMax. rewrite (bytesLt_asym x y Hxy). reflexivity.
  - rewrite (keccak256_encodePacked_pair b a y x) by assumption.
    unfold bytesMin, bytesMax. destruct (bytesLt y x) eqn:Hyx; [reflexivity|].
    rewrite (bytesLt_total x y) by (auto; congruence). reflexivity.
Qed.

Lemma hashPair_comm (a b : string) :
  isBytes32 a = true -> isBytes32 b = true ->
  GenMerkle1.hashPair a b = GenMerkle1.hashPair b a.
Proof.
  intros Ha Hb.
  apply isBytes32_inv in Ha, Hb.
  destruct Ha as (x & Ha & Hx). destruct Hb as (y & Hb & Hy).
  rewrite (hashPair_bytes a b x y), (hashPair_bytes b a y x) by assumption.
  rewrite bytesMin_bytesMax_comm by congruence. reflexivity.
Qed.

Lemma hashPair_defined (a b : string) :
  isBytes32 a = true -> isBytes32 b = true ->
  exists h, GenMerkle1.hashPair a b = Ok h /\ isBytes32 h = true.
Proof.
  intros Ha Hb.
  apply isBytes32_inv in Ha, Hb.
  destruct Ha as (x & Ha & Hx). destruct Hb as (y & Hb & Hy).
  rewrite (hashPair_bytes a b x y) by assumption.
  eexists. split; [reflexivity | apply isBytes32_digest].
Qed.

(* ===================================================================== *)
(** ** Arrays and indices *)
(* ===================================================================== *)

Lemma arrayGet_nil {A : Type} (i : Z) : arrayGet (@nil A) i = None.
Proof.
  unfold arrayGet. destruct (i <? 0); [reflexivity|].
  destruct (Z.to_nat i); reflexivity.
Qed.

Lemma arrayGet_0 {A : Type} (x : A) (a : list A) : arrayGet (x :: a) 0 = Some x.
Proof. reflexivity. Qed.

Lemma arrayGet_shift1 {A : Type} (x : A) (a : list A) (j : Z) :
  0 <= j -> arrayGet (x :: a) (j + 1) = arrayGet a j.
Proof.
  intros Hj. unfold arrayGet.
  destruct (Z.ltb_spec (j + 1) 0); [lia|].
  destruct (Z.ltb_spec j 0); [lia|].
  replace (Z.to_nat (j + 1)) with (S (Z.to_nat j)) by lia. reflexivity.
Qed.

Lemma arrayGet_shift2 {A : Type} (x y : A) (a : list A) (j : Z) :
  0 <= j -> arrayGet (x :: y :: a) (j + 2) = arrayGet a j.
Proof.
  intros Hj. replace (j + 2) with (j + 1 + 1) by lia.
  rewrite !arrayGet_shift1 by lia. reflexivity.
Qed.

Lemma arrayGet_bounds {A : Type} (a : list A) (i : Z) (x : A) :
  arrayGet a i = Some x -> 0 <= i < arrayLength a.
Proof.
  unfold arrayGet, arrayLength. destruct (Z.ltb_spec i 0) as [Hi|Hi]; [discriminate|].
  intros Hx. assert (Hn : nth_error a (Z.to_nat i) <> None) by congruence.
  apply nth_error_Some in Hn. lia.
Qed.

Lemma arrayGet_defined {A : Type} (a : list A) (i : Z) :
  0 <= i < arrayLength a -> exists x, arrayGet a i = Some x.
Proof.
  unfold arrayGet, arrayLength. intros Hi.
  destruct (Z.ltb_spec i 0); [lia|].
  destruct (nth_error a (Z.to_nat i)) as [x|] eqn:E; [eauto|].
  apply nth_error_None in E. lia.
Qed.

Lemma arrayGet_In {A : Type} (a : list A) (i : Z) (x : A) :
  arrayGet a i = Some x -> In x a.
Proof.
  unfold arrayGet. destruct (i <? 0); [discriminate|]. apply nth_error_In.
Qed.

Lemma arrayGet_last {A : Type} (a : list A) (d : A) :
  a <> [] -> arrayGet a (arrayLength a - 1) = Some (last a d).
Proof.
  intros Ha. unfold arrayGet, arrayLength.
  destruct a as [|x a]; [congruence|]. cbn [List.length].
  destruct (Z.ltb_spec (Z.of_nat (S (List.length a)) - 1) 0); [lia|].
  replace (Z.to_nat (Z.of_nat (S (List.length a)) - 1)) with (List.length a) by lia.
  clear. revert x. induction a as [|y a IH]; intros x; [reflexivity|].
  cbn [List.length nth_error]. rewrite IH. reflexivity.
Qed.

Lemma arrayLength_cons {A : Type} (x : A) (a : list A) :
  arrayLength (x :: a) = arrayLength a + 1.
Proof. unfold arrayLength. cbn [List.length]. lia. Qed.

Lemma arrayLength_nonneg {A : Type} (a : list A) : 0 <= arrayLength a.
Proof. unfold arrayLength. lia. Qed.

(** [indexOf] finds the first position that holds the value. *)
Lemma indexOfFrom_absent (x : string) (a : list string) :
  forall i, ~ In x a -> indexOfFrom x a i = -1.
Proof.
  induction a as [|y a IH]; intros i Hx; cbn [indexOfFrom]; [reflexivity|].
  destruct (String.eqb_spec y x) as [->|Hne].
  - exfalso. apply Hx. left. reflexivity.
  - apply IH. intros Hin. apply Hx. right. exact Hin.
Qed.

Lemma indexOfFrom_first (x : string) (pre post : list string) :
  forall i, ~ In x pre ->
  indexOfFrom x (pre ++ x :: post) i = i + arrayLength pre.
Proof.
  induction pre as [|y pre IH]; intros i Hx; cbn [app indexOfFrom].
  - rewrite String.eqb_refl. unfold arrayLength. cbn. lia.
  - destruct (String.eqb_spec y x) as [->|Hne].
    + exfalso. apply Hx. left. reflexivity.
    + rewrite IH by (intros Hin; apply Hx; right; exact Hin).
      rewrite arrayLength_cons. lia.
Qed.

Lemma in_first_split (x : string) (a : list string) :
  In x a -> exists pre post, a = pre ++ x :: post /\ ~ In x pre.
Proof.
  induction a as [|y a IH]; intros Hin; [contradiction|].
  destruct (string_dec y x) as [->|Hne].
  - exists [], a. split; [reflexivity | intros []].
  - destruct Hin as [E|Hin]; [congruence|].
    destruct (IH Hin) as (pre & post & -> & Hpre).
    exists (y :: pre), post. split; [reflexivity|].
    intros [E|E]; [congruence | auto].
Qed.

Lemma indexOf_absent (a : list string) (x : string) :
  ~ In x a -> indexOf a x = -1.
Proof. apply indexOfFrom_absent. Qed.

Lemma indexOf_first (pre post : list string) (x : string) :
  ~ In x pre -> indexOf (pre ++ x :: post) x = arrayLength pre.
Proof.
  intros Hx. unfold indexOf. rewrite indexOfFrom_first by assumption. lia.
Qed.

Lemma arrayGet_middle {A : Type} (pre post : list A) (x : A) :
  arrayGet (pre ++ x :: post) (arrayLength pre) = Some x.
Proof.
  unfold arrayGet, arrayLength.
  destruct (Z.ltb_spec (Z.of_nat (List.length pre)) 0) as [Hi|Hi]; [lia|].
  rewrite Nat2Z.id. rewrite nth_error_app2 by lia.
  rewrite Nat.sub_diag. reflexivity.
Qed.

(** Where [indexOf] succeeds, the array holds the value at that index. *)
Lemma indexOf_found (a : list string) (x : string) :
  In x a ->
  0 <= indexOf a x < arrayLength a /\ arrayGet a (indexOf a x) = Some x.
Proof.
  intros Hin. destruct (in_first_split x a Hin) as (pre & post & -> & Hpre).
  rewrite indexOf_first by assumption. split.
  - unfold arrayLength. rewrite length_app. cbn [List.length]. lia.
  - apply arrayGet_middle.
Qed.

(* ===================================================================== *)
(** ** The tree builder *)
(* ===================================================================== *)

Lemma allBytes32_wellFormed (hs : list string) :
  allBytes32 hs = true <-> wellFormed hs.
Proof.
  unfold allBytes32, wellFormed. rewrite forallb_forall, Forall_forall. tauto.
Qed.

Lemma buildTree_while_unfold (level : list string) (ls : list (list string)) :
  GenMerkle1.buildTree_while level ls =
  if 1 <? arrayLength level
  then next <- GenMerkle1.buildTree_for level ;;
       GenMerkle1.buildTree_while next (ls ++ [next])
  else Ok ls.
Proof.
  funelim (GenMerkle1.buildTree_while level ls);
    repeat match goal with
           | E : (1 <? arrayLength ?l) = _ |- context [1 <? arrayLength ?l] => rewrite E
           | E : GenMerkle1.buildTree_for ?l = _
             |- context [GenMerkle1.buildTree_for ?l] => rewrite E
           end; reflexivity.
Qed.

(** On well-formed hashes the [for] loop succeeds, and its result is
    well formed again. *)
Lemma buildTree_for_defined (level : list string) :
  wellFormed level ->
  exists next, GenMerkle1.buildTree_for level = Ok next /\ wellFormed next.
Proof.
  unfold wellFormed.
  induction level as [|x|x y rest IH] using list_pair_ind; intros Hwf.
  - exists []. split; [reflexivity | constructor].
  - inversion Hwf as [|? ? Hx _]; subst.
    destruct (hashPair_defined x x Hx Hx) as (h & Hh & Hwh).
    exists [h]. cbn [GenMerkle1.buildTree_for]. rewrite Hh.
    split; [reflexivity | repeat constructor; assumption].
  - inversion Hwf as [|? ? Hx Hwf']; subst.
    inversion Hwf' as [|? ? Hy Hrest]; subst.
    destruct (hashPair_defined x y Hx Hy) as (h & Hh & Hwh).
    destruct (IH Hrest) as (next & Hnext & Hwn).
    exists (h :: next). cbn [GenMerkle1.buildTree_for]. rewrite Hh, Hnext.
    split; [reflexivity | constructor; assumption].
Qed.

Lemma buildTree_for_wellFormed (level next : list string) :
  wellFormed level -> GenMerkle1.buildTree_for level = Ok next -> wellFormed next.
Proof.
  intros Hwf Hnext. destruct (buildTree_for_defined level Hwf) as (n & Hn & Hw).
  congruence.
Qed.

Lemma buildTree_for_arrayLength (level next : list string) :
  GenMerkle1.buildTree_for level = Ok next ->
  arrayLength next = (arrayLength level + 1) / 2.
Proof.
  intros H. apply GenMerkle1.buildTree_for_length1 in H.
  unfold arrayLength. rewrite H.
  rewrite Nat2Z.inj_div. f_equal. lia.
Qed.

(** The [while] loop appends to [layers] exactly the stack over [level],
    and it always comes to an end on well-formed hashes. *)
Lemma buildTree_while_stacked (n : nat) :
  forall level ls, (List.length level <= n)%nat -> wellFormed level ->
  exists rest,
    GenMerkle1.buildTree_while level ls = Ok (ls ++ rest) /\ stacked level rest.
Proof.
  induction n as [|n IH]; intros level ls Hn Hwf;
    rewrite buildTree_while_unfold.
  - destruct (Z.ltb_spec 1 (arrayLength level)) as [Hgt|Hle];
      [unfold arrayLength in Hgt; lia|].
    exists []. rewrite app_nil_r. split; [reflexivity | constructor; assumption].
  - destruct (Z.ltb_spec 1 (arrayLength level)) as [Hgt|Hle].
    + destruct (buildTree_for_defined level Hwf) as (next & Hnext & Hwn).
      rewrite Hnext. cbn [bind].
      pose proof (buildTree_for_arrayLength level next Hnext) as Hlen.
      assert (Hshort : (List.length next <= n)%nat).
      { unfold arrayLength in *.
        assert (Z.of_nat (List.length next) < Z.of_nat (List.length level))
          by (rewrite Hlen; apply Z.div_lt_upper_bound; lia).
        lia. }
      destruct (IH next (ls ++ [next]) Hshort Hwn) as (rest & Hrest & Hst).
      exists (next :: rest). rewrite Hrest, <- app_assoc. cbn [app].
      split; [reflexivity | econstructor; eassumption].
    + exists []. rewrite app_nil_r. split; [reflexivity | constructor; assumption].
Qed.

(** The top of a stack over a non-empty level is a single hash. *)
Lemma stacked_top_single (level : list string) (rest : list (list string)) :
  stacked level rest -> level <> [] ->
  exists r, last (level :: rest) [] = [r].
Proof.
  induction 1 as [level Hle|level next rest Hgt Hnext Hst IH]; intros Hne.
  - destruct level as [|x [|y level]]; [congruence | exists x; reflexivity |].
    unfold arrayLength in Hle. cbn [List.length] in Hle. lia.
  - assert (Hn : next <> []).
    { intros ->. apply buildTree_for_arrayLength in Hnext.
      change (arrayLength (@nil string)) with 0 in Hnext.
      assert (1 <= (arrayLength level + 1) / 2)
        by (apply Z.div_le_lower_bound; lia).
      lia. }
    destruct (IH Hn) as (r & Hr). exists r.
    change (last (level :: next :: rest) []) with (last (next :: rest) (@nil string)).
    exact Hr.
Qed.

(** What [buildTree] returns on a non-empty list of well-formed hashes. *)
Lemma buildTree_stacked (leaves : list string) :
  leaves <> [] -> wellFormed leaves ->
  exists rest r,
    GenMerkle1.buildTree leaves = Ok (mkTree (Some r) (leaves :: rest)) /\
    stacked leaves rest /\
    last (leaves :: rest) [] = [r].
Proof.
  intros Hne Hwf. unfold GenMerkle1.buildTree.
  destruct (Z.eqb_spec (arrayLength leaves) 0) as [E|_].
  { destruct leaves; [congruence|]. rewrite arrayLength_cons in E.
    pose proof (arrayLength_nonneg leaves). lia. }
  destruct (buildTree_while_stacked (List.length leaves) leaves [leaves] (le_n _) Hwf)
    as (rest & Hrest & Hst).
  destruct (stacked_top_single leaves rest Hst Hne) as (r & Hr).
  exists rest, r. rewrite Hrest. cbn [bind app].
  rewrite (arrayGet_last (leaves :: rest) []) by discriminate.
  rewrite Hr. cbn [arrayGet]. auto.
Qed.

(* ===================================================================== *)
(** ** The proof extractor *)
(* ===================================================================== *)

Lemma getProof_for_cons (layer next : list string) (rest : list (list string)) (idx : Z) :
  GenMerkle1.getProof_for (layer :: next :: rest) idx =
  arrayGet layer (siblingIndex layer idx)
  :: GenMerkle1.getProof_for (next :: rest) (idx / 2).
Proof.
  cbn [GenMerkle1.getProof_for]. unfold siblingIndex. cbv zeta.
  destruct (_ <? arrayLength layer); reflexivity.
Qed.

(** [getProof_accesses] lists exactly the reads that [getProof] makes. *)
Lemma getProof_for_accesses (layers : list (list string)) :
  forall idx,
    GenMerkle1.getProof_for layers idx =
    map (fun a => arrayGet (accLayer a) (accSibling a)) (getProof_accesses layers idx).
Proof.
  induction layers as [|layer layers IH]; intros idx; [reflexivity|].
  destruct layers as [|next rest]; [reflexivity|].
  rewrite getProof_for_cons. cbn [getProof_accesses map accLayer accSibling].
  rewrite IH. reflexivity.
Qed.

Lemma rem2_shift (j : Z) : 0 <= j -> Z.rem (j + 2) 2 = Z.rem j 2.
Proof.
  intros Hj. rewrite !Z.rem_mod_nonneg by lia.
  replace (j + 2) with (j + 1 * 2) by lia. apply Z_mod_plus_full.
Qed.

Lemma siblingIndex_shift (x y : string) (layer : list string) (j : Z) :
  0 <= j -> siblingIndex (x :: y :: layer) (j + 2) = siblingIndex layer j + 2.
Proof.
  intros Hj. unfold siblingIndex. rewrite !arrayLength_cons, rem2_shift by lia.
  destruct (Z.rem j 2 =? 1);
    match goal with
    | |- context [?a <? ?b] => destruct (Z.ltb_spec a b)
    end;
    match goal with
    | |- context [?a <? ?b] => destruct (Z.ltb_spec a b)
    end; lia.
Qed.

Lemma siblingIndex_nonneg (layer : list string) (idx : Z) :
  0 <= idx -> 0 <= siblingIndex layer idx.
Proof.
  intros Hi. unfold siblingIndex.
  destruct (Z.eqb_spec (Z.rem idx 2) 1) as [E|E].
  - rewrite Z.rem_mod_nonneg in E by lia.
    assert (idx <> 0) by (intros ->; discriminate).
    destruct (_ <? _); lia.
  - destruct (_ <? _); lia.
Qed.

Lemma half_shift (j : Z) : (j + 2) / 2 = j / 2 + 1.
Proof. replace (j + 2) with (j + 1 * 2) by lia. apply Z.div_add. lia. Qed.

(** One level up: the hash at [idx], paired with the sibling that
    [getProof] reads, gives the hash at [idx / 2] of the next level. *)
Lemma buildTree_for_step (level : list string) :
  forall next idx x,
    GenMerkle1.buildTree_for level = Ok next ->
    wellFormed level ->
    arrayGet level idx = Some x ->
    exists s y,
      arrayGet level (siblingIndex level idx) = Some s /\
      GenMerkle1.hashPair x s = Ok y /\
      arrayGet next (idx / 2) = Some y.
Proof.
  induction level as [|l|l r rest IH] using list_pair_ind;
    intros next idx x Hnext Hwf Hx.
  - rewrite arrayGet_nil in Hx. discriminate.
  - pose proof (arrayGet_bounds _ _ _ Hx) as Hb.
    unfold arrayLength in Hb. cbn [List.length] in Hb.
    assert (idx = 0) by lia. subst idx.
    cbn in Hx. inversion Hx; subst x.
    cbn [GenMerkle1.buildTree_for] in Hnext.
    destruct (GenMerkle1.hashPair l l) as [h|] eqn:Hh; [|discriminate].
    inversion Hnext; subst next.
    exists l, h. repeat split; auto.
  - pose proof (arrayGet_bounds _ _ _ Hx) as Hb.
    inversion Hwf as [|? ? Hl Hwf']; subst.
    inversion Hwf' as [|? ? Hr Hrest]; subst.
    cbn [GenMerkle1.buildTree_for] in Hnext.
    destruct (GenMerkle1.hashPair l r) as [h|] eqn:Hh; [|discriminate].
    destruct (GenMerkle1.buildTree_for rest) as [next'|] eqn:Hn'; [|discriminate].
    cbn [bind] in Hnext. inversion Hnext; subst next.
    destruct (Z.eq_dec idx 0) as [->|H0]; [|destruct (Z.eq_dec idx 1) as [->|H1]].
    + cbn in Hx. inversion Hx; subst x.
      exists r, h. split; [|split; [assumption | reflexivity]].
      unfold siblingIndex. rewrite !arrayLength_cons.
      change (Z.rem 0 2 =? 1) with false. cbv iota.
      pose proof (arrayLength_nonneg rest).
      destruct (Z.ltb_spec (0 + 1) (arrayLength rest + 1 + 1)); [reflexivity | lia].
    + cbn in Hx. inversion Hx; subst x.
      exists l, h. split; [reflexivity | split; [|reflexivity]].
      rewrite hashPair_comm by assumption. exact Hh.
    + set (j := idx - 2).
      assert (Hj : 0 <= j) by lia.
      assert (E : idx = j + 2) by lia.
      clearbody j. subst idx.
      rewrite arrayGet_shift2 in Hx by assumption.
      destruct (IH next' j x eq_refl Hrest Hx) as (s & y & Hs & Hy & Hup).
      exists s, y. rewrite siblingIndex_shift, half_shift by assumption.
      rewrite arrayGet_shift2 by (apply siblingIndex_nonneg; assumption).
      rewrite arrayGet_shift1
        by (apply Z.div_pos; lia).
      auto.
Qed.

(** The whole walk: from any position of the bottom level, the siblings
    that [getProof] collects hash up to the single element of the top
    level, and every read on the way is inside its layer. *)
Lemma stacked_walk (level : list string) (rest : list (list string)) :
  stacked level rest ->
  wellFormed level ->
  forall idx x,
    arrayGet level idx = Some x ->
    exists proof r,
      GenMerkle1.getProof_for (level :: rest) idx = map Some proof /\
      processProof x proof = Ok r /\
      last (level :: rest) [] = [r] /\
      Forall inBounds (getProof_accesses (level :: rest) idx).
Proof.
  induction 1 as [level Hle|level next rest Hgt Hnext Hst IH];
    intros Hwf idx x Hx.
  - pose proof (arrayGet_bounds _ _ _ Hx) as Hb.
    destruct level as [|l [|l' level]].
    + rewrite arrayGet_nil in Hx. discriminate.
    + unfold arrayLength in Hb. cbn [List.length] in Hb.
      assert (idx = 0) by lia. subst idx. cbn in Hx. inversion Hx; subst x.
      exists [], l. repeat split; constructor.
    + unfold arrayLength in Hle. cbn [List.length] in Hle. lia.
  - destruct (buildTree_for_step level next idx x Hnext Hwf Hx)
      as (s & y & Hs & Hy & Hup).
    pose proof (buildTree_for_wellFormed level next Hwf Hnext) as Hwn.
    destruct (IH Hwn (idx / 2) y Hup) as (proof & r & Hp & Hr & Hlast & Hacc).
    exists (s :: proof), r.
    assert (Hnext_shape : exists n ns, next = n :: ns).
    { destruct next as [|n ns]; [rewrite arrayGet_nil in Hup; discriminate | eauto]. }
    destruct Hnext_shape as (n & ns & ->).
    rewrite getProof_for_cons, Hs, Hp.
    cbn [map processProof getProof_accesses]. rewrite Hy. cbn [bind].
    repeat split; auto.
    constructor; [|exact Hacc].
    unfold inBounds, validIndex. cbn [accLayer accIndex accSibling accNext accNextIndex].
    repeat split;
      eauto using arrayGet_bounds;
      try (eapply arrayGet_bounds; eassumption).
Qed.

(* ===================================================================== *)
(** ** The Keccak-256 model against known digests *)
(* ===================================================================== *)

Example keccak256_empty :
  keccak256 "0x"
  = Ok "0xc5d2460186f7233c927e7db2dcc703c0e500b653ca82273b7bfad8045d85a470".
Proof. vm_compute. reflexivity. Qed.

Example keccak256_abc :
  keccak256 "0x616263"
  = Ok "0x4e03657aea45a94fc7d47ba826c8d667c0d1e6e33a64a036ec44f58fa12d6c45".
Proof. vm_compute. reflexivity. Qed.

(** A message of two blocks: the bytes 0, 1, ..., 199. *)
Example keccak256_two_blocks :
  bytesToHex (Keccak.keccak256 (map Z.of_nat (seq 0 200)))
  = "0xbfb0aa97863e797943cf7c33bb7e880bb4543f3d2703c0923c6901c2af57b890".
Proof. vm_compute. reflexivity. Qed.

Example keccak256_samples :
  keccak256 "0x01" = Ok sample1 /\ keccak256 "0x02" = Ok sample2 /\
  keccak256 "0x03" = Ok sample3.
Proof. vm_compute. auto. Qed.

(* ===================================================================== *)
(** ** Properties of the Merkle core *)
(* ===================================================================== *)

(** C5 (single leaf).  For every leaf [L], [buildTree([L])] returns the
    root [L] and the layers [[[L]]], no hash being computed, and
    [getProof(L, layers)] on that tree is the empty proof. *)
Theorem single_leaf_tree (L : string) :
  GenMerkle1.buildTree [L] = Ok (mkTree (Some L) [[L]]) /\
  GenMerkle1.getProof L [[L]] = Ok [].
Proof.
  split.
  - unfold GenMerkle1.buildTree.
    change (arrayLength [L] =? 0) with false. cbv iota.
    rewrite buildTree_while_unfold.
    change (1 <? arrayLength [L]) with false. cbv iota. reflexivity.
  - unfold GenMerkle1.getProof. cbn [arrayGet Z.ltb Z.compare Z.to_nat nth_error].
    unfold indexOf. cbn [indexOfFrom]. rewrite String.eqb_refl. reflexivity.
Qed.

(** No pair is combined on the way: the single leaf need not even be a
    hash that [hashPair] accepts. *)
Example single_leaf_any_text :
  GenMerkle1.hashPair "leaf" "leaf" = Err BytesSizeMismatch /\
  GenMerkle1.buildTree ["leaf"] = Ok (mkTree (Some "leaf") [["leaf"]]) /\
  GenMerkle1.getProof "leaf" [["leaf"]] = Ok [].
Proof. repeat split; reflexivity. Qed.

(** C7 (empty input).  [buildTree] on the empty list raises "No leaves"
    and returns nothing; on every non-empty list of 32-byte hashes it
    returns a tree. *)
Theorem buildTree_raises_iff_empty :
  GenMerkle1.buildTree [] = Err NoLeaves /\
  forall leaves : list string,
    leaves <> [] -> allBytes32 leaves = true ->
    exists t, GenMerkle1.buildTree leaves = Ok t.
Proof.
  split; [reflexivity|].
  intros leaves Hne Hwf. apply allBytes32_wellFormed in Hwf.
  destruct (buildTree_stacked leaves Hne Hwf) as (rest & r & Ht & _).
  eauto.
Qed.

Lemma buildTree_raises_iff_empty_witness :
  exists t, GenMerkle1.buildTree [sample1; sample2; sample3] = Ok t.
Proof.
  apply (proj2 buildTree_raises_iff_empty); [discriminate | reflexivity].
Defined.

(** Strings that are no 32-byte hashes are another matter: viem refuses
    them when the first pair is combined. *)
Example buildTree_malformed_leaves :
  GenMerkle1.buildTree ["0x12"; "0x34"] = Err BytesSizeMismatch.
Proof. reflexivity. Qed.

(** C6 (leaf lookup).  [getProof(leaf, layers)] raises exactly when
    [leaf] does not occur in layer 0; when it occurs, the proof is the one
    computed from its first position. *)
Theorem getProof_raises_iff_absent (leaf : string) (layers : list (list string)) :
  ((exists e, GenMerkle1.getProof leaf layers = Err e) <->
   ~ (exists layer0, arrayGet layers 0 = Some layer0 /\ In leaf layer0)) /\
  (forall layer0 pre post,
      arrayGet layers 0 = Some layer0 ->
      layer0 = pre ++ leaf :: post -> ~ In leaf pre ->
      GenMerkle1.getProof leaf layers
      = Ok (GenMerkle1.getProof_for layers (arrayLength pre))).
Proof.
  unfold GenMerkle1.getProof. split; [split|].
  - intros [e He] (layer0 & H0 & Hin). rewrite H0 in He.
    destruct (indexOf_found layer0 leaf Hin) as [Hr _].
    destruct (Z.eqb_spec (indexOf layer0 leaf) (-1)); [lia | discriminate].
  - intros Habs. destruct (arrayGet layers 0) as [layer0|]; [|eauto].
    rewrite indexOf_absent; [exists LeafNotFound; reflexivity|].
    intros Hin. apply Habs. eauto.
  - intros layer0 pre post H0 -> Hpre. rewrite H0.
    rewrite indexOf_first by assumption.
    pose proof (arrayLength_nonneg pre).
    destruct (Z.eqb_spec (arrayLength pre) (-1)); [lia | reflexivity].
Qed.

Lemma getProof_raises_iff_absent_witness :
  GenMerkle1.getProof sample2
    [[sample1; sample2; sample2; sample3]; [sample1; sample3]; [sample2]]
  = Ok (GenMerkle1.getProof_for
          [[sample1; sample2; sample2; sample3]; [sample1; sample3]; [sample2]]
          (arrayLength [sample1])).
Proof.
  apply (proj2 (getProof_raises_iff_absent sample2
                  [[sample1; sample2; sample2; sample3]; [sample1; sample3]; [sample2]])
               [sample1; sample2; sample2; sample3] [sample1] [sample2; sample3]).
  - reflexivity.
  - reflexivity.
  - intros [E|[]]. discriminate E.
Defined.

Example getProof_first_of_two :
  GenMerkle1.getProof sample2 [[sample1; sample2; sample2; sample3]; [sample1; sample3]; [sample2]]
  = Ok [Some sample1; Some sample3].
Proof. reflexivity. Qed.

(** C1 (round trip).  For every non-empty list of 32-byte leaves,
    [buildTree] returns a tree whose layer 0 is that list, and for every
    leaf occurring in it, folding [hashPair] over [getProof(leaf, layers)]
    from the leaf gives exactly the root. *)
Theorem proof_verifies_against_root (leaves : list string) (leaf : string) :
  leaves <> [] -> allBytes32 leaves = true -> In leaf leaves ->
  exists t r proof,
    GenMerkle1.buildTree leaves = Ok t /\
    arrayGet (layers t) 0 = Some leaves /\
    root t = Some r /\
    GenMerkle1.getProof leaf (layers t) = Ok (map Some proof) /\
    processProof leaf proof = Ok r.
Proof.
  intros Hne Hwf Hin. apply allBytes32_wellFormed in Hwf.
  destruct (buildTree_stacked leaves Hne Hwf) as (rest & r & Ht & Hst & Hlast).
  destruct (indexOf_found leaves leaf Hin) as [Hidx Hget].
  destruct (stacked_walk leaves rest Hst Hwf _ _ Hget)
    as (proof & r' & Hp & Hr & Hlast' & _).
  assert (r' = r) by congruence. subst r'.
  exists (mkTree (Some r) (leaves :: rest)), r, proof.
  cbn [layers root]. repeat split; auto.
  unfold GenMerkle1.getProof. cbn [arrayGet Z.ltb Z.compare Z.to_nat nth_error].
  destruct (Z.eqb_spec (indexOf leaves leaf) (-1)); [lia|].
  rewrite Hp. reflexivity.
Qed.

Lemma proof_verifies_against_root_witness :
  exists t r proof,
    GenMerkle1.buildTree [sample1; sample2; sample3] = Ok t /\
    arrayGet (layers t) 0 = Some [sample1; sample2; sample3] /\
    root t = Some r /\
    GenMerkle1.getProof sample3 (layers t) = Ok (map Some proof) /\
    processProof sample3 proof = Ok r.
Proof.
  apply (proof_verifies_against_root [sample1; sample2; sample3] sample3).
  - discriminate.
  - reflexivity.
  - right. right. left. reflexivity.
Defined.

(** C10 (reads in bounds).  On the layers that [buildTree] returns for a
    non-empty list of 32-byte leaves, and for a leaf of that list, every
    array read of [getProof] is inside its array: the running index is a
    position of the current layer, the sibling is read at a position of
    that layer, and the halved index is a position of the next layer. *)
Theorem getProof_reads_in_bounds (leaves : list string) (leaf : string) :
  leaves <> [] -> allBytes32 leaves = true -> In leaf leaves ->
  exists t,
    GenMerkle1.buildTree leaves = Ok t /\
    arrayGet (layers t) 0 = Some leaves /\
    validIndex leaves (indexOf leaves leaf) /\
    GenMerkle1.getProof leaf (layers t)
    = Ok (map (fun a => arrayGet (accLayer a) (accSibling a))
              (getProof_accesses (layers t) (indexOf leaves leaf))) /\
    Forall inBounds (getProof_accesses (layers t) (indexOf leaves leaf)).
Proof.
  intros Hne Hwf Hin. apply allBytes32_wellFormed in Hwf.
  destruct (buildTree_stacked leaves Hne Hwf) as (rest & r & Ht & Hst & Hlast).
  destruct (indexOf_found leaves leaf Hin) as [Hidx Hget].
  destruct (stacked_walk leaves rest Hst Hwf _ _ Hget)
    as (proof & r' & Hp & Hr & Hlast' & Hacc).
  exists (mkTree (Some r) (leaves :: rest)).
  cbn [layers]. repeat split; auto; try apply Hidx.
  unfold GenMerkle1.getProof. cbn [arrayGet Z.ltb Z.compare Z.to_nat nth_error].
  destruct (Z.eqb_spec (indexOf leaves leaf) (-1)); [lia|].
  rewrite getProof_for_accesses. reflexivity.
Qed.

Lemma getProof_reads_in_bounds_witness :
  exists t,
    GenMerkle1.buildTree [sample1; sample2; sample3] = Ok t /\
    arrayGet (layers t) 0 = Some [sample1; sample2; sample3] /\
    validIndex [sample1; sample2; sample3] (indexOf [sample1; sample2; sample3] sample3) /\
    GenMerkle1.getProof sample3 (layers t)
    = Ok (map (fun a => arrayGet (accLayer a) (accSibling a))
              (getProof_accesses (layers t)
                 (indexOf [sample1; sample2; sample3] sample3))) /\
    Forall inBounds
      (getProof_accesses (layers t) (indexOf [sample1; sample2; sample3] sample3)).
Proof.
  apply (getProof_reads_in_bounds [sample1; sample2; sample3] sample3).
  - discriminate.
  - reflexivity.
  - right. right. left. reflexivity.
Defined.

Lemma strLt_hexToBytes (a b : string) (x y : bytes) :
  hexToBytes a = Some x -> hexToBytes b = Some y ->
  List.length x = List.length y ->
  strLt (toLowerCase a) (toLowerCase b) = bytesLt x y.
Proof.
  intros Ha Hb Hlen.
  destruct (hexToBytes_inv a x Ha) as (sa & -> & Hsa).
  destruct (hexToBytes_inv b y Hb) as (sb & -> & Hsb).
  rewrite !toLowerCase_with0x, strLt_with0x.
  apply strLt_hexBody; assumption.
Qed.

(** C3 (sorted pair).  For 32-byte hashes [a] and [b], standing for the
    byte strings [x] and [y]: the comparison of the lower-cased texts is
    the byte-lexicographic comparison of [x] and [y]; [hashPair(a, b)] is
    the Keccak-256 digest of the 64 bytes [min(x, y) ++ max(x, y)]; and
    [hashPair(a, b) = hashPair(b, a)]. *)
Theorem hashPair_sorted_pair (a b : string) (x y : bytes) :
  hexToBytes a = Some x -> hexToBytes b = Some y ->
  List.length x = 32%nat -> List.length y = 32%nat ->
  strLt (toLowerCase a) (toLowerCase b) = bytesLt x y /\
  List.length (bytesMin x y ++ bytesMax x y) = 64%nat /\
  GenMerkle1.hashPair a b
  = Ok (bytesToHex (Keccak.keccak256 (bytesMin x y ++ bytesMax x y))) /\
  GenMerkle1.hashPair a b = GenMerkle1.hashPair b a.
Proof.
  intros Ha Hb Hx Hy. repeat split.
  - apply strLt_hexToBytes; congruence.
  - unfold bytesMin, bytesMax. destruct (bytesLt y x);
      rewrite length_app; lia.
  - apply hashPair_bytes; assumption.
  - apply hashPair_comm; unfold isBytes32.
    + rewrite Ha, Hx. reflexivity.
    + rewrite Hb, Hy. reflexivity.
Qed.

Lemma hashPair_sorted_pair_witness :
  strLt (toLowerCase sample1) (toLowerCase sample2)
  = bytesLt (Keccak.keccak256 [1]) (Keccak.keccak256 [2]) /\
  List.length (bytesMin (Keccak.keccak256 [1]) (Keccak.keccak256 [2]) ++
               bytesMax (Keccak.keccak256 [1]) (Keccak.keccak256 [2])) = 64%nat /\
  GenMerkle1.hashPair sample1 sample2
  = Ok (bytesToHex
          (Keccak.keccak256
             (bytesMin (Keccak.keccak256 [1]) (Keccak.keccak256 [2]) ++
              bytesMax (Keccak.keccak256 [1]) (Keccak.keccak256 [2])))) /\
  GenMerkle1.hashPair sample1 sample2 = GenMerkle1.hashPair sample2 sample1.
Proof.
  apply (hashPair_sorted_pair sample1 sample2
           (Keccak.keccak256 [1]) (Keccak.keccak256 [2]));
    vm_compute; reflexivity.
Defined.

(** Case does not matter to [hashPair]: an upper-case spelling of a hash
    combines to the same digest. *)
Example hashPair_upper_case :
  GenMerkle1.hashPair
    "0x5FE7F977E71DBA2EA1A68E21057BEEBB9BE2AC30C6410AA38D4F3FBE41DCFFD2" sample2
  = GenMerkle1.hashPair sample2 sample1.
Proof. vm_compute. reflexivity. Qed.

(** C4 (odd layer), as amended.  For every three 32-byte leaves the tree
    has the shape the specification gives: layer 1 is
    [[combine(L0, L1); combine(L2, L2)]] and the root combines these two.
    The proof of [L2] is [[L2; layer1[0]]] when [L2] differs from [L0] and
    from [L1]. *)
Theorem odd_layer_duplicates_last (L0 L1 L2 : string) :
  allBytes32 [L0; L1; L2] = true ->
  exists c01 c22 r,
    oddLayerTree L0 L1 L2 c01 c22 r /\
    (L2 <> L0 -> L2 <> L1 ->
     GenMerkle1.getProof L2 [[L0; L1; L2]; [c01; c22]; [r]]
     = Ok [Some L2; Some c01]).
Proof.
  intros Hwf. apply allBytes32_wellFormed in Hwf.
  inversion Hwf as [|? ? W0 Hwf1]; subst.
  inversion Hwf1 as [|? ? W1 Hwf2]; subst.
  inversion Hwf2 as [|? ? W2 _]; subst.
  destruct (hashPair_defined L0 L1 W0 W1) as (c01 & H01 & Wc01).
  destruct (hashPair_defined L2 L2 W2 W2) as (c22 & H22 & Wc22).
  destruct (hashPair_defined c01 c22 Wc01 Wc22) as (r & Hr & _).
  exists c01, c22, r. split; [repeat split; try assumption|].
  - unfold GenMerkle1.buildTree.
    change (arrayLength [L0; L1; L2] =? 0) with false. cbv iota.
    rewrite buildTree_while_unfold.
    change (1 <? arrayLength [L0; L1; L2]) with true. cbv iota.
    cbn [GenMerkle1.buildTree_for]. rewrite H01, H22. cbn [bind app].
    rewrite buildTree_while_unfold.
    change (1 <? arrayLength [c01; c22]) with true. cbv iota.
    cbn [GenMerkle1.buildTree_for]. rewrite Hr. cbn [bind app].
    rewrite buildTree_while_unfold.
    change (1 <? arrayLength [r]) with false. cbv iota.
    reflexivity.
  - intros H20 H21.
    unfold GenMerkle1.getProof. cbn [arrayGet Z.ltb Z.compare Z.to_nat nth_error].
    unfold indexOf. cbn [indexOfFrom].
    destruct (String.eqb_spec L0 L2) as [E|_]; [congruence|].
    destruct (String.eqb_spec L1 L2) as [E|_]; [congruence|].
    rewrite String.eqb_refl. reflexivity.
Qed.

Lemma odd_layer_duplicates_last_witness :
  exists c01 c22 r,
    oddLayerTree sample1 sample2 sample3 c01 c22 r /\
    (sample3 <> sample1 -> sample3 <> sample2 ->
     GenMerkle1.getProof sample3 [[sample1; sample2; sample3]; [c01; c22]; [r]]
     = Ok [Some sample3; Some c01]).
Proof.
  apply (odd_layer_duplicates_last sample1 sample2 sample3). reflexivity.
Defined.

(** C4 as the specification states it, for every three leaves, fails when
    the third leaf repeats the first: [getProof] then finds position 0 and
    returns the proof of that position. *)
Lemma odd_layer_repeated_leaf : ~ oddLayerShape sample1 sample2 sample1.
Proof.
  intros (c01 & c22 & r & _ & Hp).
  unfold GenMerkle1.getProof in Hp.
  cbn [arrayGet Z.ltb Z.compare Z.to_nat nth_error] in Hp.
  change (indexOf [sample1; sample2; sample1] sample1) with 0 in Hp.
  change (0 =? -1) with false in Hp. cbv iota in Hp.
  rewrite getProof_for_cons in Hp.
  change (siblingIndex [sample1; sample2; sample1] 0) with 1 in Hp.
  cbn [arrayGet Z.ltb Z.compare Z.to_nat nth_error] in Hp.
  inversion Hp.
Qed.

Example odd_layer_repeated_leaf_proof :
  exists t c22,
    GenMerkle1.buildTree [sample1; sample2; sample1] = Ok t /\
    GenMerkle1.hashPair sample1 sample1 = Ok c22 /\
    GenMerkle1.getProof sample1 (layers t) = Ok [Some sample2; Some c22].
Proof. vm_compute. eauto. Qed.

(* ===================================================================== *)
(** ** The three variants compared *)
(* ===================================================================== *)

Lemma buildTree_while_unfold2 (level : list string) (ls : list (list string)) :
  GenMerkle2.buildTree_while level ls =
  if 1 <? arrayLength level
  then next <- GenMerkle2.buildTree_for level ;;
       GenMerkle2.buildTree_while next (ls ++ [next])
  else Ok ls.
Proof.
  funelim (GenMerkle2.buildTree_while level ls);
    repeat match goal with
           | E : (1 <? arrayLength ?l) = _ |- context [1 <? arrayLength ?l] => rewrite E
           | E : GenMerkle2.buildTree_for ?l = _
             |- context [GenMerkle2.buildTree_for ?l] => rewrite E
           end; reflexivity.
Qed.

Lemma buildTree_while_unfold3 (level : list string) (ls : list (list string)) :
  GenMerkle3.buildTree_while level ls =
  if 1 <? arrayLength level
  then next <- GenMerkle3.buildTree_for level ;;
       GenMerkle3.buildTree_while next (ls ++ [next])
  else Ok ls.
Proof.
  funelim (GenMerkle3.buildTree_while level ls);
    repeat match goal with
           | E : (1 <? arrayLength ?l) = _ |- context [1 <? arrayLength ?l] => rewrite E
           | E : GenMerkle3.buildTree_for ?l = _
             |- context [GenMerkle3.buildTree_for ?l] => rewrite E
           end; reflexivity.
Qed.

Lemma hashPair_1_2 (a b : string) : GenMerkle1.hashPair a b = GenMerkle2.hashPair a b.
Proof. reflexivity. Qed.

Lemma hashPair_1_3 (a b : string) : GenMerkle1.hashPair a b = GenMerkle3.hashPair a b.
Proof.
  unfold GenMerkle1.hashPair, GenMerkle3.hashPair. cbv zeta.
  destruct (strLt (toLowerCase a) (toLowerCase b)); reflexivity.
Qed.

Lemma buildTree_for_1_2 (level : list string) :
  GenMerkle1.buildTree_for level = GenMerkle2.buildTree_for level.
Proof.
  induction level as [|x|x y rest IH] using list_pair_ind;
    cbn [GenMerkle1.buildTree_for GenMerkle2.buildTree_for];
    rewrite ?hashPair_1_2, ?IH; reflexivity.
Qed.

Lemma buildTree_for_1_3 (level : list string) :
  GenMerkle1.buildTree_for level = GenMerkle3.buildTree_for level.
Proof.
  induction level as [|x|x y rest IH] using list_pair_ind;
    cbn [GenMerkle1.buildTree_for GenMerkle3.buildTree_for];
    rewrite ?hashPair_1_3, ?IH; reflexivity.
Qed.

Lemma buildTree_while_agree (n : nat) :
  forall level ls, (List.length level <= n)%nat ->
  GenMerkle1.buildTree_while level ls = GenMerkle2.buildTree_while level ls /\
  GenMerkle1.buildTree_while level ls = GenMerkle3.buildTree_while level ls.
Proof.
  induction n as [|n IH]; intros level ls Hn;
    rewrite buildTree_while_unfold, buildTree_while_unfold2, buildTree_while_unfold3;
    generalize (buildTree_for_1_2 level), (buildTree_for_1_3 level);
    generalize (GenMerkle2.buildTree_for level), (GenMerkle3.buildTree_for level);
    intros r2 r3 <- <-;
    destruct (Z.ltb_spec 1 (arrayLength level)) as [Hgt|Hle]; auto.
  - unfold arrayLength in Hgt. lia.
  - destruct (GenMerkle1.buildTree_for level) as [next|e] eqn:Hnext; cbn [bind]; auto.
    apply IH. apply GenMerkle1.buildTree_for_length1 in Hnext.
    unfold arrayLength in Hgt.
    assert ((S (List.length level) / 2 < List.length level)%nat)
      by (apply Nat.Div0.div_lt_upper_bound; lia).
    lia.
Qed.

Lemma getProof_for_cons2 (layer next : list string) (rest : list (list string)) (idx : Z) :
  GenMerkle2.getProof_for (layer :: next :: rest) idx =
  arrayGet layer (siblingIndex layer idx)
  :: GenMerkle2.getProof_for (next :: rest) (idx / 2).
Proof.
  cbn [GenMerkle2.getProof_for]. unfold siblingIndex. cbv zeta.
  destruct (_ <? arrayLength layer); reflexivity.
Qed.

Lemma getProof_for_cons3 (layer next : list string) (rest : list (list string)) (idx : Z) :
  GenMerkle3.getProof_for (layer :: next :: rest) idx =
  arrayGet layer (siblingIndex layer idx)
  :: GenMerkle3.getProof_for (next :: rest) (idx / 2).
Proof.
  cbn [GenMerkle3.getProof_for]. unfold siblingIndex. cbv zeta.
  destruct (_ <? arrayLength layer); reflexivity.
Qed.

Lemma getProof_for_agree (ls : list (list string)) :
  forall idx,
    GenMerkle1.getProof_for ls idx = GenMerkle2.getProof_for ls idx /\
    GenMerkle1.getProof_for ls idx = GenMerkle3.getProof_for ls idx.
Proof.
  induction ls as [|layer ls IH]; intros idx; [split; reflexivity|].
  destruct ls as [|next rest]; [split; reflexivity|].
  rewrite getProof_for_cons, getProof_for_cons2, getProof_for_cons3.
  destruct (IH (idx / 2)) as [<- <-]. split; reflexivity.
Qed.

(** C9 (variants).  The Merkle helpers of the three viem-based variants
    are extensionally equal: [leafPacked], [hashPair], [buildTree] and
    [getProof] return the same result, or raise the same error, on every
    input. *)
Theorem variants_agree :
  (forall address amount generatedLoss : string,
      GenMerkle1.leafPacked address amount generatedLoss
      = GenMerkle2.leafPacked address amount generatedLoss /\
      GenMerkle1.leafPacked address amount generatedLoss
      = GenMerkle3.leafPacked address amount generatedLoss) /\
  (forall a b : string,
      GenMerkle1.hashPair a b = GenMerkle2.hashPair a b /\
      GenMerkle1.hashPair a b = GenMerkle3.hashPair a b) /\
  (forall leaves : list string,
      GenMerkle1.buildTree leaves = GenMerkle2.buildTree leaves /\
      GenMerkle1.buildTree leaves = GenMerkle3.buildTree leaves) /\
  (forall (leaf : string) (ls : list (list string)),
      GenMerkle1.getProof leaf ls = GenMerkle2.getProof leaf ls /\
      GenMerkle1.getProof leaf ls = GenMerkle3.getProof leaf ls).
Proof.
  split; [|split; [|split]].
  - intros. split; reflexivity.
  - intros a b. split; [apply hashPair_1_2 | apply hashPair_1_3].
  - intros leaves.
    unfold GenMerkle1.buildTree, GenMerkle2.buildTree, GenMerkle3.buildTree.
    destruct (buildTree_while_agree (List.length leaves) leaves [leaves] (le_n _))
      as [<- <-].
    split; reflexivity.
  - intros leaf ls.
    unfold GenMerkle1.getProof, GenMerkle2.getProof, GenMerkle3.getProof.
    destruct (arrayGet ls 0) as [layer0|]; [|split; reflexivity].
    destruct (getProof_for_agree ls (indexOf layer0 leaf)) as [<- <-].
    split; reflexivity.
Qed.

Example variants_agree_on_samples :
  GenMerkle2.buildTree [sample1; sample2; sample3]
  = GenMerkle3.buildTree [sample1; sample2; sample3] /\
  exists t, GenMerkle3.buildTree [sample1; sample2; sample3] = Ok t /\
            root t = Some "0x41018595206752552113afefd2e76718ba8a13a420c5d92398dd10a1acb491d5".
Proof. vm_compute. eauto. Qed.

(* ===================================================================== *)
(** ** The leaf encodings *)
(* ===================================================================== *)

Lemma bytesBE_length (k : nat) : forall n, List.length (bytesBE k n) = k.
Proof.
  induction k as [|k IH]; intros n; cbn [bytesBE]; [reflexivity|].
  rewrite length_app, IH. cbn [List.length]. lia.
Qed.

Lemma beValue_snoc (bs : bytes) (b : Z) : beValue (bs ++ [b]) = 256 * beValue bs + b.
Proof. unfold beValue. rewrite fold_left_app. reflexivity. Qed.

(** [bytesBE k n] is the base-256 expansion of [n] on [k] digits. *)
Lemma beValue_bytesBE (k : nat) :
  forall n, 0 <= n < 256 ^ Z.of_nat k -> beValue (bytesBE k n) = n.
Proof.
  induction k as [|k IH]; intros n Hn.
  - change (256 ^ Z.of_nat 0) with 1 in Hn. cbn. lia.
  - cbn [bytesBE]. rewrite beValue_snoc.
    rewrite Nat2Z.inj_succ, Z.pow_succ_r in Hn by lia.
    rewrite IH.
    + pose proof (Z.div_mod n 256). lia.
    + split; [apply Z.div_pos; lia | apply Z.div_lt_upper_bound; lia].
Qed.

Lemma hexBody_snoc2 (s : string) (x : bytes) (u v : Z) :
  hexBody s = Some x -> 0 <= u < 16 -> 0 <= v < 16 ->
  hexBody (String.append (String.append s (String (hexDigitChar u) EmptyString))
                         (String (hexDigitChar v) EmptyString))
  = Some (x ++ [16 * u + v]).
Proof.
  intros Hs Hu Hv.
  replace (String.append (String.append s (String (hexDigitChar u) EmptyString))
                         (String (hexDigitChar v) EmptyString))
    with (String.append s (String (hexDigitChar u) (String (hexDigitChar v) EmptyString))).
  - apply hexBody_app; [assumption|].
    apply hexBody_cons; [apply hexDigitVal_hexDigitChar .. | reflexivity]; assumption.
  - clear. induction s as [|c s IH]; cbn [String.append]; [reflexivity|].
    rewrite IH. reflexivity.
Qed.

Lemma byte_of_nibbles (n : Z) : 16 * (n / 16 mod 16) + n mod 16 = n mod 256.
Proof.
  apply Z.mod_unique with (q := n / 16 / 16).
  - pose proof (Z.mod_pos_bound n 16). pose proof (Z.mod_pos_bound (n / 16) 16). lia.
  - pose proof (Z.div_mod n 16). pose proof (Z.div_mod (n / 16) 16). lia.
Qed.

(** Sixty-four digits, most significant first, are the thirty-two
    big-endian bytes of the same number. *)
Lemma hexBody_hexDigitsBE (k : nat) :
  forall n, hexBody (hexDigitsBE (2 * k) n) = Some (bytesBE k n).
Proof.
  induction k as [|k IH]; intros n; [reflexivity|].
  replace (2 * S k)%nat with (S (S (2 * k))) by lia.
  cbn [hexDigitsBE bytesBE].
  rewrite (hexBody_snoc2 _ (bytesBE k (n / 16 / 16)) (n / 16 mod 16) (n mod 16)).
  - rewrite Z.div_div by lia. change (16 * 16) with 256.
    rewrite byte_of_nibbles. reflexivity.
  - apply IH.
  - apply Z.mod_pos_bound. lia.
  - apply Z.mod_pos_bound. lia.
Qed.

Lemma hexBody_defined (n : nat) :
  forall body, String.length body = (2 * n)%nat -> allHexDigits body = true ->
  exists bs, hexBody body = Some bs /\ List.length bs = n.
Proof.
  induction n as [|n IH]; intros body Hlen Hhex.
  - destruct body; [|discriminate]. exists []. split; reflexivity.
  - destruct body as [|h [|l rest]]; try (cbn in Hlen; lia).
    cbn [allHexDigits] in Hhex.
    destruct (hexDigitVal h) as [u|] eqn:Hh; [|discriminate].
    destruct (hexDigitVal l) as [v|] eqn:Hl; [|discriminate].
    destruct (IH rest) as (bs & Hbs & Hn); [cbn in Hlen; lia | assumption |].
    exists (16 * u + v :: bs). split; [apply hexBody_cons; assumption|].
    cbn [List.length]. lia.
Qed.

Lemma isAddress_bytes (address : string) :
  isAddress address = true ->
  exists body addr,
    address = with0x body /\ hexBody body = Some addr /\ List.length addr = 20%nat.
Proof.
  unfold isAddress. destruct (strip0x address) as [body|] eqn:E; [|discriminate].
  intros H. apply andb_prop in H. destruct H as [Hlen Hhex].
  apply Nat.eqb_eq in Hlen.
  destruct (hexBody_defined 20 body Hlen Hhex) as (addr & Ha & Hl).
  exists body, addr. split; [apply strip0x_inv, E | auto].
Qed.

Lemma digitsValue_nonneg (radix : Z) (s : string) :
  forall acc n, 0 < radix -> 0 <= acc -> digitsValue radix acc s = Some n -> 0 <= n.
Proof.
  induction s as [|c s IH]; intros acc n Hr Hacc; cbn [digitsValue].
  - intros H. inversion H. lia.
  - destruct (hexDigitVal c) as [d|] eqn:Hd; [|discriminate].
    apply hexDigitVal_range in Hd.
    destruct (d <? radix); [|discriminate].
    apply IH; [assumption|]. nia.
Qed.

Lemma parseDigits_nonneg (s : string) (n : Z) : parseDigits 10 s = Some n -> 0 <= n.
Proof.
  destruct s as [|c s]; [discriminate|]. unfold parseDigits.
  apply digitsValue_nonneg; lia.
Qed.

(** A decimal digit is no blank, no sign and no radix letter. *)
Lemma decimal_digit_code (c : ascii) (d : Z) :
  hexDigitVal c = Some d -> d < 10 -> 48 <= code c <= 57.
Proof.
  intros H Hd. apply hexDigitVal_spec in H. destruct H; lia.
Qed.

Lemma digitsValue_head (s : string) (c : ascii) (acc n : Z) :
  digitsValue 10 acc (String c s) = Some n -> 48 <= code c <= 57.
Proof.
  cbn [digitsValue]. destruct (hexDigitVal c) as [d|] eqn:Hd; [|discriminate].
  destruct (Z.ltb_spec d 10); [|discriminate].
  intros _. eapply decimal_digit_code; eassumption.
Qed.

Lemma digitsValue_tail (s : string) (c : ascii) (acc n : Z) :
  digitsValue 10 acc (String c s) = Some n ->
  exists acc', digitsValue 10 acc' s = Some n.
Proof.
  cbn [digitsValue]. destruct (hexDigitVal c) as [d|]; [|discriminate].
  destruct (d <? 10); [|discriminate]. eauto.
Qed.

Lemma isBlank_decimal (c : ascii) : 48 <= code c <= 57 -> isBlank c = false.
Proof.
  intros Hc. unfold isBlank.
  destruct (Z.leb_spec 9 (code c)); destruct (Z.leb_spec (code c) 13);
    destruct (Z.eqb_spec (code c) 32); try reflexivity; lia.
Qed.

Lemma trimEnd_decimal (s : string) :
  forall acc n, digitsValue 10 acc s = Some n -> trimEnd s = s.
Proof.
  induction s as [|c s IH]; intros acc n H; [reflexivity|].
  pose proof (digitsValue_head s c acc n H) as Hc.
  destruct (digitsValue_tail s c acc n H) as (acc' & H').
  cbn [trimEnd]. rewrite (IH acc' n H'), (isBlank_decimal c Hc).
  destruct s; reflexivity.
Qed.

(** On the matches of [/^\d+$/], [BigInt] is the decimal value. *)
Lemma BigInt_decimal (s : string) (n : Z) :
  parseDigits 10 s = Some n -> BigInt s = Ok n.
Proof.
  intros H. destruct s as [|c0 rest0]; [discriminate|].
  unfold parseDigits in H.
  pose proof (digitsValue_head _ _ _ _ H) as H0.
  unfold BigInt.
  assert (Ht : trimEnd (trimStart (String c0 rest0)) = String c0 rest0).
  { cbn [trimStart]. rewrite (isBlank_decimal c0 H0).
    eapply trimEnd_decimal; eassumption. }
  rewrite Ht. cbv zeta.
  destruct (Z.eqb_spec (code c0) 43); [lia|].
  destruct (Z.eqb_spec (code c0) 45); [lia|].
  destruct rest0 as [|c1 rest1].
  - unfold parseDigits. rewrite H. reflexivity.
  - destruct (digitsValue_tail _ _ _ _ H) as (acc' & H').
    pose proof (digitsValue_head _ _ _ _ H') as H1.
    destruct (Z.eqb_spec (code c1) 120); [lia|].
    destruct (Z.eqb_spec (code c1) 88); [lia|].
    destruct (Z.eqb_spec (code c1) 111); [lia|].
    destruct (Z.eqb_spec (code c1) 79); [lia|].
    destruct (Z.eqb_spec (code c1) 98); [lia|].
    destruct (Z.eqb_spec (code c1) 66); [lia|].
    rewrite !andb_false_r. unfold parseDigits. rewrite H. reflexivity.
Qed.

(** The packed encoding of a record, decoded. *)
Lemma keccak256_encodePacked_record (address : string) (addr : bytes) (a g : Z) :
  isAddress address = true ->
  hexToBytes address = Some addr ->
  0 <= a < 2 ^ 256 -> 0 <= g < 2 ^ 256 ->
  (p <- encodePacked [PAddress address; PUint256 a; PUint256 g] ;; keccak256 p)
  = Ok (bytesToHex (Keccak.keccak256 (addr ++ bytesBE 32 a ++ bytesBE 32 g))).
Proof.
  intros Haddr Hbytes Ha Hg.
  apply hexToBytes_inv in Hbytes. destruct Hbytes as (body & Hbody & Hb).
  unfold encodePacked. cbn [encodeAll encode]. rewrite Haddr.
  replace ((0 <=? a) && (a <? 2 ^ 256)) with true
    by (symmetry; apply andb_true_intro; split; [apply Z.leb_le | apply Z.ltb_lt]; lia).
  replace ((0 <=? g) && (g <? 2 ^ 256)) with true
    by (symmetry; apply andb_true_intro; split; [apply Z.leb_le | apply Z.ltb_lt]; lia).
  cbn [bind]. unfold concatHex. cbn [map String.concat].
  rewrite Hbody, toLowerCase_with0x, !remove0x_with0x.
  unfold keccak256. rewrite hexToBytes_with0x.
  cbn [String.append].
  rewrite (hexBody_app addr (bytesBE 32 a ++ bytesBE 32 g)); [reflexivity | |].
  - apply hexBody_toLowerCase, Hb.
  - apply hexBody_app; apply (hexBody_hexDigitsBE 32).
Qed.

(** The standard ABI encoding of a record, decoded and hashed twice. *)
Lemma standardLeafHash_bytes (address amount generatedLoss : string) (addr : bytes) (a g : Z) :
  isAddress address = true ->
  hexToBytes address = Some addr ->
  parseDigits 10 amount = Some a -> parseDigits 10 generatedLoss = Some g ->
  a < 2 ^ 256 -> g < 2 ^ 256 ->
  GenerateClaims.standardLeafHash address amount generatedLoss
  = Ok (bytesToHex
          (Keccak.keccak256
             (Keccak.keccak256 (repeat 0 12 ++ addr ++ bytesBE 32 a ++ bytesBE 32 g)))).
Proof.
  intros Haddr Hbytes Ha Hg Hamax Hgmax.
  apply hexToBytes_inv in Hbytes. destruct Hbytes as (body & Hbody & Hb).
  unfold GenerateClaims.standardLeafHash, GenerateClaims.abiEncode.
  rewrite Haddr, Ha, Hg.
  replace ((a <? 2 ^ 256) && (g <? 2 ^ 256)) with true
    by (symmetry; apply andb_true_intro; split; apply Z.ltb_lt; assumption).
  cbn [bind]. unfold concatHex. cbn [map String.concat].
  rewrite Hbody, toLowerCase_with0x, !remove0x_with0x.
  unfold keccak256 at 1. rewrite hexToBytes_with0x.
  cbn [String.append].
  rewrite (hexBody_app (repeat 0 12) (addr ++ bytesBE 32 a ++ bytesBE 32 g)).
  - cbn [bind]. unfold keccak256. rewrite hexToBytes_digest. reflexivity.
  - apply (hexBody_hexDigitsBE 12 0).
  - apply hexBody_app; [apply hexBody_toLowerCase, Hb|].
    apply hexBody_app; apply (hexBody_hexDigitsBE 32).
Qed.

(** For a row that passes the script's own checks, the leaf is the
    library's leaf of the row as it stands. *)
Lemma rowLeaf_standard (address amount generatedLoss : string) (a g : Z) :
  isAddress address = true -> toLowerCase address = address ->
  parseDigits 10 amount = Some a -> parseDigits 10 generatedLoss = Some g ->
  GenerateClaims.rowLeaf address amount generatedLoss
  = GenerateClaims.standardLeafHash address amount generatedLoss.
Proof.
  intros Haddr Hlow Ha Hg.
  destruct (isAddress_bytes address Haddr) as (body & addr & E & Hb & Hlen).
  pose proof (hexBody_length addr body Hb) as Hbody.
  unfold GenerateClaims.rowLeaf, GenerateClaims.entryOf, GenerateClaims.normAddr,
    GenerateClaims.asUintStr.
  cbv zeta. rewrite Hlow, Ha, Hg. subst address.
  rewrite strip0x_with0x. cbn [with0x String.length].
  rewrite Hbody, Hlen. reflexivity.
Qed.

(** C2 (leaf encoding), as amended.  For a record that [readCsv] lets
    through (a lower-case address, decimal amounts) with amounts below
    [2^256], the leaf of each of the three gen-merkle variants is the
    Keccak-256 digest of the 84 packed bytes: the 20 bytes of the address,
    then the 32-byte big-endian amount, then the 32-byte big-endian
    generatedLoss.  The leaf of generate-claims.mjs is another hash: the
    digest of the digest of the 96-byte standard ABI encoding, in which the
    address is padded on the left with 12 zero bytes. *)
Theorem leaf_encodings (address amount generatedLoss : string) (a g : Z) :
  isAddress address = true -> toLowerCase address = address ->
  parseDigits 10 amount = Some a -> parseDigits 10 generatedLoss = Some g ->
  a < 2 ^ 256 -> g < 2 ^ 256 ->
  exists addr,
    hexToBytes address = Some addr /\ List.length addr = 20%nat /\
    beValue (bytesBE 32 a) = a /\ beValue (bytesBE 32 g) = g /\
    List.length (addr ++ bytesBE 32 a ++ bytesBE 32 g) = 84%nat /\
    GenMerkle1.leafPacked address amount generatedLoss
    = Ok (bytesToHex (Keccak.keccak256 (addr ++ bytesBE 32 a ++ bytesBE 32 g))) /\
    GenMerkle2.leafPacked address amount generatedLoss
    = Ok (bytesToHex (Keccak.keccak256 (addr ++ bytesBE 32 a ++ bytesBE 32 g))) /\
    GenMerkle3.leafPacked address amount generatedLoss
    = Ok (bytesToHex (Keccak.keccak256 (addr ++ bytesBE 32 a ++ bytesBE 32 g))) /\
    List.length (repeat 0 12 ++ addr ++ bytesBE 32 a ++ bytesBE 32 g) = 96%nat /\
    GenerateClaims.rowLeaf address amount generatedLoss
    = Ok (bytesToHex
            (Keccak.keccak256
               (Keccak.keccak256 (repeat 0 12 ++ addr ++ bytesBE 32 a ++ bytesBE 32 g)))).
Proof.
  intros Haddr Hlow Ha Hg Hamax Hgmax.
  pose proof (parseDigits_nonneg _ _ Ha) as Ha0.
  pose proof (parseDigits_nonneg _ _ Hg) as Hg0.
  pose proof (rowLeaf_standard _ _ _ _ _ Haddr Hlow Ha Hg) as Hrow.
  destruct (isAddress_bytes address Haddr) as (body & addr & -> & Hb & Hlen).
  assert (Hpacked :
            (p <- encodePacked [PAddress (with0x body); PUint256 a; PUint256 g] ;;
             keccak256 p)
            = Ok (bytesToHex (Keccak.keccak256 (addr ++ bytesBE 32 a ++ bytesBE 32 g))))
    by (apply keccak256_encodePacked_record; auto; lia).
  exists addr. split; [exact Hb | split; [exact Hlen|]].
  split; [apply beValue_bytesBE; change (256 ^ Z.of_nat 32) with (2 ^ 256); lia|].
  split; [apply beValue_bytesBE; change (256 ^ Z.of_nat 32) with (2 ^ 256); lia|].
  split; [rewrite !length_app, !bytesBE_length, Hlen; reflexivity|].
  split; [|split; [|split; [|split]]].
  - unfold GenMerkle1.leafPacked.
    rewrite (BigInt_decimal _ _ Ha), (BigInt_decimal _ _ Hg). exact Hpacked.
  - unfold GenMerkle2.leafPacked.
    rewrite (BigInt_decimal _ _ Ha), (BigInt_decimal _ _ Hg). exact Hpacked.
  - unfold GenMerkle3.leafPacked.
    rewrite (BigInt_decimal _ _ Ha), (BigInt_decimal _ _ Hg). exact Hpacked.
  - rewrite !length_app, !bytesBE_length, Hlen. reflexivity.
  - rewrite Hrow. apply standardLeafHash_bytes; auto.
Qed.

Lemma leaf_encodings_witness :
  exists addr,
    hexToBytes sampleAddress = Some addr /\ List.length addr = 20%nat /\
    beValue (bytesBE 32 1) = 1 /\ beValue (bytesBE 32 256) = 256 /\
    List.length (addr ++ bytesBE 32 1 ++ bytesBE 32 256) = 84%nat /\
    GenMerkle1.leafPacked sampleAddress "1" "256"
    = Ok (bytesToHex (Keccak.keccak256 (addr ++ bytesBE 32 1 ++ bytesBE 32 256))) /\
    GenMerkle2.leafPacked sampleAddress "1" "256"
    = Ok (bytesToHex (Keccak.keccak256 (addr ++ bytesBE 32 1 ++ bytesBE 32 256))) /\
    GenMerkle3.leafPacked sampleAddress "1" "256"
    = Ok (bytesToHex (Keccak.keccak256 (addr ++ bytesBE 32 1 ++ bytesBE 32 256))) /\
    List.length (repeat 0 12 ++ addr ++ bytesBE 32 1 ++ bytesBE 32 256) = 96%nat /\
    GenerateClaims.rowLeaf sampleAddress "1" "256"
    = Ok (bytesToHex
            (Keccak.keccak256
               (Keccak.keccak256 (repeat 0 12 ++ addr ++ bytesBE 32 1 ++ bytesBE 32 256)))).
Proof.
  apply (leaf_encodings sampleAddress "1" "256" 1 256);
    try reflexivity.
Defined.

(** C2 as the specification states it fails on generate-claims.mjs: on
    the same record its leaf is not the packed hash, whether the standard
    encoding is hashed twice, as the library does, or once, as the comment
    in the script has it. *)
Lemma standard_leaf_is_not_packed :
  GenerateClaims.rowLeaf sampleAddress "1" "256"
  <> GenMerkle1.leafPacked sampleAddress "1" "256" /\
  (e <- GenerateClaims.abiEncode sampleAddress "1" "256" ;; keccak256 e)
  <> GenMerkle1.leafPacked sampleAddress "1" "256".
Proof.
  assert (H1 : GenMerkle1.leafPacked sampleAddress "1" "256"
    = Ok "0xb45342624dc06d08775abf2f499b2c26ebfd114007662c12b9ac1d9e43c13663")
    by (vm_compute; reflexivity).
  assert (H2 : GenerateClaims.rowLeaf sampleAddress "1" "256"
    = Ok "0xda7b8bd183a41bc2d514ac9669dc5fd7a039e1d3b58fbafc5252d7ec0cc99282")
    by (vm_compute; reflexivity).
  rewrite H1, H2. split; [discriminate|].
  vm_compute. discriminate.
Qed.

(* ===================================================================== *)
(** ** Tampered proofs and collisions

    Whether an altered proof can still reach the root is a question about
    Keccak-256, not about the scripts.  What the scripts' pairing rule
    does give is the reduction below: from a proof that still verifies
    after one of its elements was replaced by a different value, two
    colliding 64-byte messages can be read off. *)
(* ===================================================================== *)

Lemma app_inj_length {A : Type} (l1 : list A) :
  forall l1' l2 l2',
    List.length l1 = List.length l1' -> l1 ++ l2 = l1' ++ l2' ->
    l1 = l1' /\ l2 = l2'.
Proof.
  induction l1 as [|x l1 IH]; intros [|x' l1'] l2 l2' Hlen H;
    try discriminate; [auto|].
  cbn [app] in H. inversion H; subst.
  destruct (IH l1' l2 l2') as [-> ->]; [simpl in Hlen; lia | assumption | auto].
Qed.

Lemma bytesMin_length (x y : bytes) :
  List.length x = List.length y -> List.length (bytesMin x y) = List.length x.
Proof. unfold bytesMin. destruct (bytesLt y x); congruence. Qed.

(** The sorted pair determines the second component, given the first. *)
Lemma sortedPair_inj (c x y : bytes) :
  List.length c = List.length x -> List.length c = List.length y ->
  bytesMin c x ++ bytesMax c x = bytesMin c y ++ bytesMax c y -> x = y.
Proof.
  intros Hx Hy H.
  apply app_inj_length in H;
    [|rewrite !bytesMin_length; congruence].
  destruct H as [Hmin Hmax]. unfold bytesMin, bytesMax in *.
  destruct (bytesLt x c); destruct (bytesLt y c); congruence.
Qed.


Lemma sortedPair_length (x y : bytes) :
  List.length x = 32%nat -> List.length y = 32%nat ->
  List.length (bytesMin x y ++ bytesMax x y) = 64%nat.
Proof.
  intros Hx Hy. unfold bytesMin, bytesMax.
  destruct (bytesLt y x); rewrite length_app; lia.
Qed.

(** Two running hashes that differ, moved up by the same siblings, stay
    different unless a collision brings them together. *)
Lemma diverged_walks_collide (post : list string) :
  forall c c' r,
    isBytes32 c = true -> isBytes32 c' = true -> wellFormed post ->
    hexToBytes c <> hexToBytes c' ->
    processProof c post = Ok r -> processProof c' post = Ok r ->
    keccakCollision.
Proof.
  induction post as [|s post IH]; intros c c' r Hc Hc' Hwf Hne Hp Hp'.
  - cbn in Hp, Hp'. congruence.
  - inversion Hwf as [|? ? Hs Hpost]; subst.
    destruct (isBytes32_inv c Hc) as (x & Hx & Lx).
    destruct (isBytes32_inv c' Hc') as (x' & Hx' & Lx').
    destruct (isBytes32_inv s Hs) as (y & Hy & Ly).
    cbn [processProof] in Hp, Hp'.
    rewrite (hashPair_bytes c s x y) in Hp by assumption.
    rewrite (hashPair_bytes c' s x' y) in Hp' by assumption.
    cbn [bind] in Hp, Hp'.
    set (m := bytesMin x y ++ bytesMax x y) in *.
    set (m' := bytesMin x' y ++ bytesMax x' y) in *.
    assert (Hm : m <> m').
    { unfold m, m'. intros E.
      rewrite (bytesMin_bytesMax_comm x y), (bytesMin_bytesMax_comm x' y) in E
        by congruence.
      apply sortedPair_inj in E; congruence. }
    destruct (list_eq_dec Z.eq_dec (Keccak.keccak256 m) (Keccak.keccak256 m'))
      as [E|E].
    + exists m, m'. repeat split; auto; apply sortedPair_length; assumption.
    + apply (IH (bytesToHex (Keccak.keccak256 m)) (bytesToHex (Keccak.keccak256 m')) r);
        try apply isBytes32_digest; try assumption.
      rewrite !hexToBytes_digest. intros H. injection H. exact E.
Qed.

(** Replacing one element of a proof by a different 32-byte value and
    still reaching the same root exhibits a Keccak-256 collision. *)
Lemma tampered_proof_collides (pre : list string) :
  forall (post : list string) (leaf s s' r : string),
    isBytes32 leaf = true -> wellFormed (pre ++ s :: post) ->
    isBytes32 s' = true -> hexToBytes s <> hexToBytes s' ->
    processProof leaf (pre ++ s :: post) = Ok r ->
    processProof leaf (pre ++ s' :: post) = Ok r ->
    keccakCollision.
Proof.
  induction pre as [|p pre IH]; intros post leaf s s' r Hleaf Hwf Hs' Hne Hp Hp'.
  - cbn [app] in *. inversion Hwf as [|? ? Hs Hpost]; subst.
    destruct (isBytes32_inv leaf Hleaf) as (x & Hx & Lx).
    destruct (isBytes32_inv s Hs) as (y & Hy & Ly).
    destruct (isBytes32_inv s' Hs') as (y' & Hy' & Ly').
    cbn [processProof] in Hp, Hp'.
    rewrite (hashPair_bytes leaf s x y) in Hp by assumption.
    rewrite (hashPair_bytes leaf s' x y') in Hp' by assumption.
    cbn [bind] in Hp, Hp'.
    set (m := bytesMin x y ++ bytesMax x y) in *.
    set (m' := bytesMin x y' ++ bytesMax x y') in *.
    assert (Hm : m <> m').
    { unfold m, m'. intros E. apply sortedPair_inj in E; congruence. }
    destruct (list_eq_dec Z.eq_dec (Keccak.keccak256 m) (Keccak.keccak256 m'))
      as [E|E].
    + exists m, m'. repeat split; auto; apply sortedPair_length; assumption.
    + apply (diverged_walks_collide post
               (bytesToHex (Keccak.keccak256 m)) (bytesToHex (Keccak.keccak256 m')) r);
        try apply isBytes32_digest; try assumption.
      rewrite !hexToBytes_digest. intros H. injection H. exact E.
  - cbn [app] in *. inversion Hwf as [|? ? Hp0 Hrest]; subst.
    cbn [processProof] in Hp, Hp'.
    destruct (hashPair_defined leaf p Hleaf Hp0) as (d & Hd & Wd).
    rewrite Hd in Hp, Hp'. cbn [bind] in Hp, Hp'.
    eapply (IH post d s s' r); eassumption.
Qed.

(* ===================================================================== *)
(** ** More on the tree builder and the proof extractor *)
(* ===================================================================== *)

(** Whatever the leaves are, layers that [buildTree_while] returns are
    stacked on the level it started from. *)
Lemma buildTree_while_returns_stacked (n : nat) :
  forall level ls out,
    (List.length level <= n)%nat ->
    GenMerkle1.buildTree_while level ls = Ok out ->
    exists rest, out = ls ++ rest /\ stacked level rest.
Proof.
  induction n as [|n IH]; intros level ls out Hn;
    rewrite buildTree_while_unfold;
    destruct (Z.ltb_spec 1 (arrayLength level)) as [Hgt|Hle].
  - unfold arrayLength in Hgt. lia.
  - intros H. inversion H; subst. exists []. rewrite app_nil_r.
    split; [reflexivity | constructor; assumption].
  - destruct (GenMerkle1.buildTree_for level) as [next|e] eqn:Hnext;
      cbn [bind]; [|discriminate].
    intros H.
    pose proof (buildTree_for_arrayLength level next Hnext) as Hlen.
    assert (Hshort : (List.length next <= n)%nat).
    { unfold arrayLength in *.
      assert (Z.of_nat (List.length next) < Z.of_nat (List.length level))
        by (rewrite Hlen; apply Z.div_lt_upper_bound; lia).
      lia. }
    destruct (IH next (ls ++ [next]) out Hshort H) as (rest & -> & Hst).
    exists (next :: rest). rewrite <- app_assoc.
    split; [reflexivity | econstructor; eassumption].
  - intros H. inversion H; subst. exists []. rewrite app_nil_r.
    split; [reflexivity | constructor; assumption].
Qed.

Lemma buildTree_returns_stacked (leaves : list string) (t : Tree) :
  GenMerkle1.buildTree leaves = Ok t ->
  exists rest r,
    t = mkTree (Some r) (leaves :: rest) /\ stacked leaves rest /\
    last (leaves :: rest) [] = [r].
Proof.
  unfold GenMerkle1.buildTree.
  destruct (Z.eqb_spec (arrayLength leaves) 0) as [E|Hne]; [discriminate|].
  destruct (GenMerkle1.buildTree_while leaves [leaves]) as [out|e] eqn:Hw;
    cbn [bind]; [|discriminate].
  destruct (buildTree_while_returns_stacked _ _ _ _ (le_n _) Hw)
    as (rest & -> & Hst).
  assert (Hleaves : leaves <> []) by (intros ->; apply Hne; reflexivity).
  destruct (stacked_top_single leaves rest Hst Hleaves) as (r & Hr).
  cbn [app]. rewrite (arrayGet_last (leaves :: rest) []) by discriminate.
  rewrite Hr. cbn [arrayGet Z.ltb Z.compare Z.to_nat nth_error].
  intros H. inversion H; subst. exists rest, r. auto.
Qed.

(** The [for] loop by index: element [j] of the next level combines
    elements [2j] and [2j + 1] of the level, or [2j] with itself when
    [2j + 1] is past the end. *)
Lemma buildTree_for_index (level : list string) :
  forall next j,
    GenMerkle1.buildTree_for level = Ok next ->
    0 <= j < arrayLength next ->
    exists l r h,
      arrayGet level (2 * j) = Some l /\
      arrayGet level (if 2 * j + 1 <? arrayLength level then 2 * j + 1 else 2 * j)
      = Some r /\
      GenMerkle1.hashPair l r = Ok h /\
      arrayGet next j = Some h.
Proof.
  induction level as [|x|x y rest IH] using list_pair_ind; intros next j Hnext Hj.
  - inversion Hnext; subst. unfold arrayLength in Hj. cbn in Hj. lia.
  - cbn [GenMerkle1.buildTree_for] in Hnext.
    destruct (GenMerkle1.hashPair x x) as [h|] eqn:Hh; [|discriminate].
    inversion Hnext; subst.
    unfold arrayLength in Hj. cbn [List.length] in Hj.
    assert (j = 0) by lia. subst j.
    exists x, x, h. repeat split; auto.
  - cbn [GenMerkle1.buildTree_for] in Hnext.
    destruct (GenMerkle1.hashPair x y) as [h|] eqn:Hh; [|discriminate].
    destruct (GenMerkle1.buildTree_for rest) as [next'|] eqn:Hn'; [|discriminate].
    cbn [bind] in Hnext. inversion Hnext; subst.
    destruct (Z.eq_dec j 0) as [->|Hj0].
    + exists x, y, h. repeat split; auto.
      rewrite !arrayLength_cons. pose proof (arrayLength_nonneg rest).
      destruct (Z.ltb_spec (2 * 0 + 1) (arrayLength rest + 1 + 1)); [reflexivity | lia].
    + rewrite arrayLength_cons in Hj.
      set (i := j - 1). assert (Hi : 0 <= i < arrayLength next') by lia.
      assert (E : j = i + 1) by lia. clearbody i. subst j.
      destruct (IH next' i eq_refl Hi) as (l & r & h' & Hl & Hr & Hh' & Hup).
      exists l, r, h'.
      replace (2 * (i + 1)) with (2 * i + 2) by lia.
      rewrite !arrayLength_cons.
      rewrite arrayGet_shift2, arrayGet_shift1 by lia.
      repeat split; auto.
      destruct (Z.ltb_spec (2 * i + 1) (arrayLength rest));
        destruct (Z.ltb_spec (2 * i + 2 + 1) (arrayLength rest + 1 + 1));
        try lia.
      * replace (2 * i + 2 + 1) with (2 * i + 1 + 2) by lia.
        rewrite arrayGet_shift2 by lia. exact Hr.
      * rewrite arrayGet_shift2 by lia. exact Hr.
Qed.

Lemma stacked_adjacent (level : list string) (rest : list (list string)) :
  stacked level rest ->
  forall k layer next,
    arrayGet (level :: rest) k = Some layer ->
    arrayGet (level :: rest) (k + 1) = Some next ->
    1 < arrayLength layer /\ GenMerkle1.buildTree_for layer = Ok next.
Proof.
  induction 1 as [level Hle|level nx rest Hgt Hnext Hst IH]; intros k layer next Hk Hk1.
  - pose proof (arrayGet_bounds _ _ _ Hk1) as Hb.
    pose proof (arrayGet_bounds _ _ _ Hk) as Hb'.
    unfold arrayLength in Hb, Hb'. cbn [List.length] in Hb, Hb'. lia.
  - pose proof (arrayGet_bounds _ _ _ Hk) as Hb.
    destruct (Z.eq_dec k 0) as [->|Hk0].
    + cbn in Hk, Hk1. inversion Hk; inversion Hk1; subst. auto.
    + replace k with (k - 1 + 1) in Hk by lia.
      replace (k + 1) with (k - 1 + 1 + 1) in Hk1 by lia.
      rewrite arrayGet_shift1 in Hk, Hk1 by lia.
      apply (IH (k - 1)); assumption.
Qed.

(** X1 (shape of the tree).  In a tree that [buildTree] returns, layer 0 is
    the list of leaves; every layer that has a successor holds more than
    one hash, its successor has half as many (rounded up), and element [j]
    of the successor is [hashPair] of elements [2j] and [2j + 1], or of
    element [2j] with itself when [2j + 1] is past the end; the last layer
    holds the root alone. *)
Theorem buildTree_layers_shape (leaves : list string) (t : Tree) :
  GenMerkle1.buildTree leaves = Ok t ->
  arrayGet (layers t) 0 = Some leaves /\
  (exists r, arrayGet (layers t) (arrayLength (layers t) - 1) = Some [r] /\
             root t = Some r) /\
  forall k layer next,
    arrayGet (layers t) k = Some layer ->
    arrayGet (layers t) (k + 1) = Some next ->
    1 < arrayLength layer /\
    arrayLength next = (arrayLength layer + 1) / 2 /\
    forall j, 0 <= j < arrayLength next ->
      exists l r h,
        arrayGet layer (2 * j) = Some l /\
        arrayGet layer (if 2 * j + 1 <? arrayLength layer then 2 * j + 1 else 2 * j)
        = Some r /\
        GenMerkle1.hashPair l r = Ok h /\
        arrayGet next j = Some h.
Proof.
  intros Ht. destruct (buildTree_returns_stacked leaves t Ht)
    as (rest & r & -> & Hst & Hlast).
  cbn [layers root]. split; [reflexivity | split].
  - exists r. rewrite (arrayGet_last (leaves :: rest) []) by discriminate.
    rewrite Hlast. auto.
  - intros k layer next Hk Hk1.
    destruct (stacked_adjacent leaves rest Hst k layer next Hk Hk1) as [Hgt Hfor].
    split; [exact Hgt | split].
    + apply buildTree_for_arrayLength, Hfor.
    + intros j Hj. apply buildTree_for_index; assumption.
Qed.

Lemma getProof_for_length (ls : list (list string)) :
  forall idx, List.length (GenMerkle1.getProof_for ls idx) = pred (List.length ls).
Proof.
  induction ls as [|layer ls IH]; intros idx; [reflexivity|].
  destruct ls as [|next rest]; [reflexivity|].
  rewrite getProof_for_cons. cbn [List.length]. rewrite IH. reflexivity.
Qed.

Lemma log2_up_half (n : Z) :
  2 <= n -> Z.log2_up n = Z.log2_up ((n + 1) / 2) + 1.
Proof.
  intros Hn.
  assert (Hup : forall a, 1 < a -> Z.log2_up a = Z.log2 (a - 1) + 1).
  { intros a Ha. unfold Z.log2_up.
    destruct (Z.compare_spec 1 a); try lia.
    replace (Z.pred a) with (a - 1) by lia. lia. }
  rewrite (Hup n) by lia. f_equal.
  destruct (Z.eq_dec n 2) as [->|Hn2]; [reflexivity|].
  assert (Hm : 1 < (n + 1) / 2)
    by (assert (2 <= (n + 1) / 2) by (apply Z.div_le_lower_bound; lia); lia).
  rewrite (Hup _ Hm).
  replace ((n + 1) / 2 - 1) with ((n - 1) / 2)
    by (replace (n + 1) with (n - 1 + 1 * 2) by lia;
        rewrite Z.div_add by lia; lia).
  replace ((n - 1) / 2) with (Z.shiftr (n - 1) 1)
    by (rewrite Z.shiftr_div_pow2 by lia; reflexivity).
  rewrite Z.log2_shiftr by lia.
  assert (1 <= Z.log2 (n - 1)) by (apply Z.log2_le_pow2; simpl; lia).
  lia.
Qed.

Lemma stacked_height (level : list string) (rest : list (list string)) :
  stacked level rest -> 1 <= arrayLength level ->
  arrayLength rest = Z.log2_up (arrayLength level).
Proof.
  induction 1 as [level Hle|level next rest Hgt Hnext Hst IH]; intros Hpos.
  - replace (arrayLength level) with 1 by lia. reflexivity.
  - rewrite arrayLength_cons.
    pose proof (buildTree_for_arrayLength level next Hnext) as Hlen.
    rewrite IH.
    + rewrite Hlen. symmetry. apply log2_up_half. lia.
    + rewrite Hlen. apply Z.div_le_lower_bound; lia.
Qed.

(** X2 (height).  A tree over [n] leaves has [ceil(log2 n) + 1] layers, and
    the proof of every leaf has [ceil(log2 n)] elements. *)
Theorem proof_length_is_log2 (leaves : list string) (t : Tree) (leaf : string) :
  GenMerkle1.buildTree leaves = Ok t -> In leaf leaves ->
  arrayLength (layers t) = Z.log2_up (arrayLength leaves) + 1 /\
  exists proof,
    GenMerkle1.getProof leaf (layers t) = Ok proof /\
    arrayLength proof = Z.log2_up (arrayLength leaves).
Proof.
  intros Ht Hin. destruct (buildTree_returns_stacked leaves t Ht)
    as (rest & r & -> & Hst & Hlast).
  cbn [layers].
  assert (Hpos : 1 <= arrayLength leaves).
  { destruct leaves; [contradiction|]. rewrite arrayLength_cons.
    pose proof (arrayLength_nonneg leaves). lia. }
  pose proof (stacked_height leaves rest Hst Hpos) as Hh.
  split; [rewrite arrayLength_cons; lia|].
  destruct (indexOf_found leaves leaf Hin) as [Hidx _].
  exists (GenMerkle1.getProof_for (leaves :: rest) (indexOf leaves leaf)). split.
  - unfold GenMerkle1.getProof. cbn [arrayGet Z.ltb Z.compare Z.to_nat nth_error].
    destruct (Z.eqb_spec (indexOf leaves leaf) (-1)); [lia | reflexivity].
  - unfold arrayLength at 1. rewrite getProof_for_length. cbn [List.length pred].
    exact Hh.
Qed.

(** X3 (every position).  The loop of [getProof], started at any position
    [i] of layer 0 rather than at the first position holding a given value,
    collects a proof that takes the leaf at [i] to the root. *)
Theorem every_position_verifies (leaves : list string) (i : Z) (x : string) :
  allBytes32 leaves = true -> arrayGet leaves i = Some x ->
  exists t r proof,
    GenMerkle1.buildTree leaves = Ok t /\ root t = Some r /\
    GenMerkle1.getProof_for (layers t) i = map Some proof /\
    processProof x proof = Ok r.
Proof.
  intros Hwf Hx. apply allBytes32_wellFormed in Hwf.
  assert (Hne : leaves <> []) by (intros ->; rewrite arrayGet_nil in Hx; discriminate).
  destruct (buildTree_stacked leaves Hne Hwf) as (rest & r & Ht & Hst & Hlast).
  destruct (stacked_walk leaves rest Hst Hwf i x Hx)
    as (proof & r' & Hp & Hr & Hlast' & _).
  assert (r' = r) by congruence. subst r'.
  exists (mkTree (Some r) (leaves :: rest)), r, proof. cbn [layers root]. auto.
Qed.

Lemma buildTree_for_repeat_last (pre : list string) (x : string) :
  Nat.even (List.length pre) = true ->
  GenMerkle1.buildTree_for (pre ++ [x]) = GenMerkle1.buildTree_for (pre ++ [x; x]).
Proof.
  induction pre as [|a|a b rest IH] using list_pair_ind; intros Hev.
  - cbn [app GenMerkle1.buildTree_for].
    destruct (GenMerkle1.hashPair x x); reflexivity.
  - discriminate.
  - cbn [app GenMerkle1.buildTree_for]. rewrite IH by exact Hev. reflexivity.
Qed.

(** The layers already collected pass through the [while] loop untouched. *)
Lemma buildTree_while_prefix (n : nat) :
  forall level ls,
    (List.length level <= n)%nat ->
    GenMerkle1.buildTree_while level ls
    = (rest <- GenMerkle1.buildTree_while level [] ;; Ok (ls ++ rest)).
Proof.
  induction n as [|n IH]; intros level ls Hn;
    rewrite (buildTree_while_unfold level ls), (buildTree_while_unfold level []);
    destruct (Z.ltb_spec 1 (arrayLength level)) as [Hgt|Hle];
    try (cbn [bind]; rewrite app_nil_r; reflexivity).
  - unfold arrayLength in Hgt. lia.
  - destruct (GenMerkle1.buildTree_for level) as [next|e] eqn:Hnext;
      cbn [bind app]; [|reflexivity].
    pose proof (buildTree_for_arrayLength level next Hnext) as Hlen.
    assert (Hshort : (List.length next <= n)%nat).
    { unfold arrayLength in *.
      assert (Z.of_nat (List.length next) < Z.of_nat (List.length level))
        by (rewrite Hlen; apply Z.div_lt_upper_bound; lia).
      lia. }
    rewrite (IH next (ls ++ [next]) Hshort), (IH next [next] Hshort).
    destruct (GenMerkle1.buildTree_while next []) as [rest|e]; cbn [bind];
      [|reflexivity].
    rewrite <- app_assoc. reflexivity.
Qed.

(** X4 (repeated last leaf).  A list with an odd number of leaves, three
    or more, and the same list with its last leaf repeated give trees that
    differ in layer 0 only: same upper layers, same root (or the same
    error). *)
Theorem odd_tree_shares_root (pre : list string) (x : string) :
  Nat.even (List.length pre) = true -> pre <> [] ->
  match GenMerkle1.buildTree (pre ++ [x]), GenMerkle1.buildTree (pre ++ [x; x]) with
  | Ok t, Ok t' => root t = root t' /\ tl (layers t) = tl (layers t')
  | Err e, Err e' => e = e'
  | _, _ => False
  end.
Proof.
  intros Hev Hne. unfold GenMerkle1.buildTree.
  assert (Hlen : (2 <= List.length pre)%nat).
  { destruct pre as [|a [|b pre]]; [congruence | discriminate | simpl; lia]. }
  assert (L1 : arrayLength (pre ++ [x]) = arrayLength pre + 1)
    by (unfold arrayLength; rewrite length_app; cbn [List.length]; lia).
  assert (L2 : arrayLength (pre ++ [x; x]) = arrayLength pre + 2)
    by (unfold arrayLength; rewrite length_app; cbn [List.length]; lia).
  assert (Lp : 2 <= arrayLength pre) by (unfold arrayLength; lia).
  destruct (Z.eqb_spec (arrayLength (pre ++ [x])) 0); [lia|].
  destruct (Z.eqb_spec (arrayLength (pre ++ [x; x])) 0); [lia|].
  rewrite (buildTree_while_unfold (pre ++ [x])),
    (buildTree_while_unfold (pre ++ [x; x])).
  destruct (Z.ltb_spec 1 (arrayLength (pre ++ [x]))); [|lia].
  destruct (Z.ltb_spec 1 (arrayLength (pre ++ [x; x]))); [|lia].
  rewrite <- (buildTree_for_repeat_last pre x Hev).
  destruct (GenMerkle1.buildTree_for (pre ++ [x])) as [next|e]; cbn [bind app];
    [|reflexivity].
  rewrite (buildTree_while_prefix _ next [pre ++ [x]; next] (le_n _)),
    (buildTree_while_prefix _ next [pre ++ [x; x]; next] (le_n _)).
  destruct (GenMerkle1.buildTree_while next []) as [rest|e]; cbn [bind app];
    [|reflexivity].
  rewrite (arrayGet_last (_ :: next :: rest) []) by discriminate.
  rewrite (arrayGet_last ((pre ++ [x; x]) :: next :: rest) []) by discriminate.
  change (last ((pre ++ [x]) :: next :: rest) []) with (last (next :: rest) (@nil string)).
  change (last ((pre ++ [x; x]) :: next :: rest) []) with (last (next :: rest) (@nil string)).
  destruct (last (next :: rest) []); cbn [root layers tl]; auto.
Qed.

(* ===================================================================== *)
(** ** [readCsv] *)
(* ===================================================================== *)

Lemma lowerChar_idem (c : ascii) : lowerChar (lowerChar c) = lowerChar c.
Proof.
  destruct (code_lowerChar c) as [[Hr Hc]|[Hr Hc]].
  - destruct (code_lowerChar (lowerChar c)) as [[Hr' _]|[_ Hc']]; [lia | exact Hc'].
  - rewrite Hc, Hc. reflexivity.
Qed.

Lemma toLowerCase_idem (s : string) : toLowerCase (toLowerCase s) = toLowerCase s.
Proof.
  induction s as [|c s IH]; cbn [toLowerCase]; [reflexivity|].
  rewrite lowerChar_idem, IH. reflexivity.
Qed.

Lemma negb_elim (b : bool) : negb b = false -> b = true.
Proof. destruct b; [reflexivity | discriminate]. Qed.

Lemma readRows_returned (ia im il : Z) (lines : list string) :
  forall i rows,
    Script1.readRows ia im il i lines = Script1.Returned rows ->
    List.length rows = List.length lines /\ Forall Script1.validRow rows.
Proof.
  induction lines as [|line lines IH]; intros i rows H; cbn [Script1.readRows] in H.
  - inversion H. split; [reflexivity | constructor].
  - cbv zeta in H.
    destruct (negb (isAddress _)) eqn:Ha; [discriminate|].
    destruct (negb (Script1.isDecimal (Script1.orElse (arrayGet _ im) "0"))) eqn:Hm;
      [discriminate|].
    destruct (negb (Script1.isDecimal (Script1.orElse (arrayGet _ il) "0"))) eqn:Hl;
      [discriminate|].
    destruct (Script1.readRows ia im il (i + 1) lines) as [rows'|e] eqn:Hrest;
      [|discriminate].
    inversion H; subst. destruct (IH _ _ Hrest) as [Hlen Hvalid].
    split; [cbn [List.length]; lia|].
    constructor; [|exact Hvalid].
    unfold Script1.validRow.
    cbn [Script1.address Script1.amount Script1.generatedLoss].
    repeat split; auto using negb_elim, toLowerCase_idem.
Qed.

Lemma readRows_threw (ia im il : Z) (lines : list string) :
  forall i e,
    Script1.readRows ia im il i lines = Script1.Threw e ->
    e <> Script1.CsvTooShort /\ e <> Script1.CsvBadHeader.
Proof.
  induction lines as [|line lines IH]; intros i e H; cbn [Script1.readRows] in H.
  - discriminate.
  - cbv zeta in H.
    destruct (negb (isAddress _)); [inversion H; split; discriminate|].
    destruct (negb (Script1.isDecimal (Script1.orElse (arrayGet _ im) "0")));
      [inversion H; split; discriminate|].
    destruct (negb (Script1.isDecimal (Script1.orElse (arrayGet _ il) "0")));
      [inversion H; split; discriminate|].
    destruct (Script1.readRows ia im il (i + 1) lines) as [rows'|e'] eqn:Hrest;
      [discriminate|].
    inversion H; subst. eapply IH; eassumption.
Qed.


Lemma readCsv_rows_valid_aux (content : string) (rows : list Script1.Row) :
  Script1.readCsv content = Script1.Returned rows ->
  rows <> [] /\
  arrayLength rows = arrayLength (Script1.linesOf content) - 1 /\
  Forall Script1.validRow rows.
Proof.
  unfold Script1.readCsv. cbv zeta.
  destruct (Z.ltb_spec (arrayLength (Script1.linesOf content)) 2) as [|Hlen];
    [discriminate|].
  destruct (Script1.linesOf content) as [|first rest] eqn:Hlines;
    [unfold arrayLength in Hlen; cbn in Hlen; lia|].
  cbn [arrayGet Z.ltb Z.compare Z.to_nat nth_error tl].
  destruct (_ || _); [discriminate|].
  intros H. apply readRows_returned in H. destruct H as [Hl Hv].
  rewrite arrayLength_cons in *. unfold arrayLength in *.
  split; [|split; [lia | exact Hv]].
  intros ->. cbn in Hl. lia.
Qed.




Lemma leafPacked_isBytes32 (address amount generatedLoss leaf : string) :
  GenMerkle1.leafPacked address amount generatedLoss = Ok leaf ->
  isBytes32 leaf = true.
Proof.
  unfold GenMerkle1.leafPacked.
  destruct (BigInt amount) as [a|]; [|discriminate].
  destruct (BigInt generatedLoss) as [g|]; [|discriminate].
  cbn [bind]. destruct (encodePacked _) as [p|]; [|discriminate].
  cbn [bind]. unfold keccak256. destruct (hexToBytes p) as [bs|]; [|discriminate].
  intros H. inversion H. apply isBytes32_digest.
Qed.

Lemma isDecimal_value (s : string) :
  Script1.isDecimal s = true -> exists n, parseDigits 10 s = Some n.
Proof.
  unfold Script1.isDecimal. destruct (parseDigits 10 s) as [n|]; [eauto | discriminate].
Qed.

Lemma leafPacked_out_of_range (address amount generatedLoss : string) (a g : Z) :
  isAddress address = true ->
  parseDigits 10 amount = Some a -> parseDigits 10 generatedLoss = Some g ->
  2 ^ 256 <= a \/ 2 ^ 256 <= g ->
  GenMerkle1.leafPacked address amount generatedLoss = Err IntegerOutOfRange.
Proof.
  intros Haddr Ha Hg Hbig. unfold GenMerkle1.leafPacked.
  rewrite (BigInt_decimal _ _ Ha), (BigInt_decimal _ _ Hg). cbn [bind].
  unfold encodePacked. cbn [encodeAll encode]. rewrite Haddr. cbn [bind].
  destruct (Z.ltb_spec a (2 ^ 256)) as [Hlt|Hge].
  - destruct (Z.ltb_spec g (2 ^ 256)); [lia|].
    rewrite !andb_false_r. destruct (0 <=? a); reflexivity.
  - rewrite andb_false_r. reflexivity.
Qed.

Lemma validRow_leaf (r : Script1.Row) :
  Script1.validRow r ->
  exists a g,
    BigInt (Script1.amount r) = Ok a /\ BigInt (Script1.generatedLoss r) = Ok g /\
    0 <= a /\ 0 <= g /\
    (a < 2 ^ 256 /\ g < 2 ^ 256 ->
     exists leaf,
       GenMerkle1.leafPacked (Script1.address r) (Script1.amount r)
         (Script1.generatedLoss r) = Ok leaf /\
       isBytes32 leaf = true) /\
    (2 ^ 256 <= a \/ 2 ^ 256 <= g ->
     GenMerkle1.leafPacked (Script1.address r) (Script1.amount r)
       (Script1.generatedLoss r) = Err IntegerOutOfRange).
Proof.
  intros (Haddr & Hlow & Hm & Hl).
  destruct (isDecimal_value _ Hm) as (a & Ha).
  destruct (isDecimal_value _ Hl) as (g & Hg).
  exists a, g.
  split; [apply BigInt_decimal, Ha | split; [apply BigInt_decimal, Hg|]].
  split; [eapply parseDigits_nonneg, Ha | split; [eapply parseDigits_nonneg, Hg|]].
  split.
  - intros [Hamax Hgmax].
    destruct (isAddress_bytes _ Haddr) as (body & addr & E & Hb & Hlen).
    assert (Hleaf :
      GenMerkle1.leafPacked (Script1.address r) (Script1.amount r)
        (Script1.generatedLoss r)
      = Ok (bytesToHex (Keccak.keccak256 (addr ++ bytesBE 32 a ++ bytesBE 32 g)))).
    { unfold GenMerkle1.leafPacked.
      rewrite (BigInt_decimal _ _ Ha), (BigInt_decimal _ _ Hg). cbn [bind].
      apply keccak256_encodePacked_record; auto.
      - rewrite E, hexToBytes_with0x. exact Hb.
      - pose proof (parseDigits_nonneg _ _ Ha). lia.
      - pose proof (parseDigits_nonneg _ _ Hg). lia. }
    eexists. split; [exact Hleaf | apply isBytes32_digest].
  - apply leafPacked_out_of_range; assumption.
Qed.

(** X7 (from [readCsv] to [leafPacked]).  [readCsv] checks the digits of
    an amount, not its size: a row it returns is hashed by [leafPacked]
    into a well-formed 32-byte leaf when amount and generatedLoss are both
    below [2^256], and makes [leafPacked] throw [IntegerOutOfRangeError]
    otherwise. *)
Theorem readCsv_row_leaf (content : string) (rows : list Script1.Row) (r : Script1.Row) :
  Script1.readCsv content = Script1.Returned rows -> In r rows ->
  exists a g,
    BigInt (Script1.amount r) = Ok a /\ BigInt (Script1.generatedLoss r) = Ok g /\
    0 <= a /\ 0 <= g /\
    (a < 2 ^ 256 /\ g < 2 ^ 256 ->
     exists leaf,
       GenMerkle1.leafPacked (Script1.address r) (Script1.amount r)
         (Script1.generatedLoss r) = Ok leaf /\
       isBytes32 leaf = true) /\
    (2 ^ 256 <= a \/ 2 ^ 256 <= g ->
     GenMerkle1.leafPacked (Script1.address r) (Script1.amount r)
       (Script1.generatedLoss r) = Err IntegerOutOfRange).
Proof.
  intros Hread Hin.
  destruct (readCsv_rows_valid_aux content rows Hread) as (_ & _ & Hvalid).
  rewrite Forall_forall in Hvalid. apply validRow_leaf, Hvalid, Hin.
Qed.

(* ===================================================================== *)
(** ** The run of the script *)
(* ===================================================================== *)

Lemma leavesOf_cons_inv (r : Script1.Row) (rows : list Script1.Row) (ls : list string) :
  Script1.leavesOf (r :: rows) = Ok ls ->
  exists leaf rest,
    ls = leaf :: rest /\
    GenMerkle1.leafPacked (Script1.address r) (Script1.amount r)
      (Script1.generatedLoss r) = Ok leaf /\
    Script1.leavesOf rows = Ok rest.
Proof.
  cbn [Script1.leavesOf].
  destruct (GenMerkle1.leafPacked _ _ _) as [leaf|]; [|discriminate].
  destruct (Script1.leavesOf rows) as [rest|]; [|discriminate].
  cbn [bind]. intros H. inversion H. eauto.
Qed.

Lemma leavesOf_length (rows : list Script1.Row) :
  forall ls, Script1.leavesOf rows = Ok ls -> List.length ls = List.length rows.
Proof.
  induction rows as [|r rows IH]; intros ls H.
  - inversion H. reflexivity.
  - apply leavesOf_cons_inv in H. destruct H as (leaf & rest & -> & _ & Hrest).
    cbn [List.length]. rewrite (IH rest Hrest). reflexivity.
Qed.

Lemma leavesOf_wellFormed (rows : list Script1.Row) :
  forall ls, Script1.leavesOf rows = Ok ls -> wellFormed ls.
Proof.
  induction rows as [|r rows IH]; intros ls H.
  - inversion H. constructor.
  - apply leavesOf_cons_inv in H. destruct H as (leaf & rest & -> & Hleaf & Hrest).
    constructor; [eapply leafPacked_isBytes32; eassumption | apply IH, Hrest].
Qed.

Lemma leafPacked_BigInt (address amount generatedLoss leaf : string) :
  GenMerkle1.leafPacked address amount generatedLoss = Ok leaf ->
  exists a g,
    BigInt amount = Ok a /\ BigInt generatedLoss = Ok g /\
    0 <= a /\ 0 <= g /\ isAddress address = true.
Proof.
  unfold GenMerkle1.leafPacked.
  destruct (BigInt amount) as [a|]; [|discriminate].
  destruct (BigInt generatedLoss) as [g|]; [|discriminate].
  cbn [bind]. unfold encodePacked. cbn [encodeAll encode].
  destruct (isAddress address); [|discriminate]. cbn [bind].
  destruct (Z.leb_spec 0 a); [|discriminate].
  destruct (a <? 2 ^ 256); [|discriminate]. cbn [andb bind].
  destruct (Z.leb_spec 0 g); [|discriminate].
  intros _. exists a, g. auto.
Qed.

Lemma getProof_found (leaf : string) (layer0 : list string) (rest : list (list string)) :
  In leaf layer0 ->
  GenMerkle1.getProof leaf (layer0 :: rest)
  = Ok (Script1.proofOf (layer0 :: rest) leaf).
Proof.
  intros Hin. unfold Script1.proofOf, GenMerkle1.getProof.
  cbn [arrayGet Z.ltb Z.compare Z.to_nat nth_error].
  destruct (indexOf_found layer0 leaf Hin) as [Hr _].
  destruct (Z.eqb_spec (indexOf layer0 leaf) (-1)); [lia | reflexivity].
Qed.

(** What the loop over the rows does, once the leaves are those of the
    rows and layer 0 is the list of leaves. *)
Lemma writeClaims_spec (env : Script1.Env) (rows : list Script1.Row) :
  forall todo done rest tA tL ops,
    Script1.leavesOf rows = Ok todo ->
    Script1.writeClaims env (done ++ todo) ((done ++ todo) :: rest) rows
      (arrayLength done) tA tL ops
    = (ops ++ map (Script1.claimWrite env ((done ++ todo) :: rest)) (combine rows todo),
       Script1.Returned
         (tA + Script1.sumZ (map (fun r => Script1.valueOf (Script1.amount r)) rows),
          tL + Script1.sumZ (map (fun r => Script1.valueOf (Script1.generatedLoss r)) rows))).
Proof.
  induction rows as [|r rows IH]; intros todo done rest tA tL ops Hl.
  - inversion Hl. cbn. rewrite app_nil_r, !Z.add_0_r. reflexivity.
  - apply leavesOf_cons_inv in Hl. destruct Hl as (leaf & todo' & -> & Hleaf & Hrest).
    destruct (leafPacked_BigInt _ _ _ _ Hleaf) as (a & g & Ha & Hg & _).
    cbn [Script1.writeClaims].
    unfold Script1.andThen at 1. unfold Script1.pure at 1.
    unfold Script1.getProofAt. rewrite arrayGet_middle.
    rewrite getProof_found by (apply in_or_app; right; left; reflexivity).
    cbn [Script1.lift].
    unfold Script1.andThen at 1. unfold Script1.pure at 1. rewrite Ha. cbn [Script1.lift].
    unfold Script1.andThen at 1. unfold Script1.pure at 1. rewrite Hg. cbn [Script1.lift].
    unfold Script1.andThen at 1. unfold Script1.writeJson at 1.
    replace (done ++ leaf :: todo') with ((done ++ [leaf]) ++ todo')
      by (rewrite <- app_assoc; reflexivity).
    replace (arrayLength done + 1) with (arrayLength (done ++ [leaf]))
      by (unfold arrayLength; rewrite length_app; cbn [List.length]; lia).
    rewrite (IH todo' (done ++ [leaf]) rest _ _ _ Hrest).
    cbn [combine map Script1.sumZ fold_right].
    assert (Va : Script1.valueOf (Script1.amount r) = a)
      by (unfold Script1.valueOf; rewrite Ha; reflexivity).
    assert (Vg : Script1.valueOf (Script1.generatedLoss r) = g)
      by (unfold Script1.valueOf; rewrite Hg; reflexivity).
    rewrite Va, Vg.
    rewrite <- app_assoc. cbn [app].
    f_equal; try reflexivity. unfold Script1.sumZ. f_equal. f_equal; lia.
Qed.

(** The run, step by step. *)
Lemma run_spec (env : Script1.Env) (rows : list Script1.Row) (ops : list (Script1.fsOp env)) :
  Script1.run env rows ops =
  match Script1.leavesOf rows with
  | Err e => (ops, Script1.Threw (Script1.Raised e))
  | Ok leaves =>
      match GenMerkle1.buildTree leaves with
      | Err e => (ops, Script1.Threw (Script1.Raised e))
      | Ok t =>
          let meta :=
            Script1.epochMetaOf env rows (root t) (Script1.totalsOf rows) in
          (ops ++ [Script1.Mkdir env (Script1.claimsDir env);
                   Script1.Mkdir env (Script1.epochsDir env)]
               ++ map (Script1.claimWrite env (layers t)) (combine rows leaves)
               ++ [Script1.WriteJson env (Script1.epochFile env) (Script1.JMeta env meta);
                   Script1.WriteJson env (Script1.latestFile env) (Script1.JMeta env meta)],
           Script1.Returned tt)
      end
  end.
Proof.
  unfold Script1.run. unfold Script1.andThen at 1. unfold Script1.pure at 1.
  destruct (Script1.leavesOf rows) as [leaves|e] eqn:Hl; cbn [Script1.lift];
    [|reflexivity].
  unfold Script1.andThen at 1. unfold Script1.pure at 1.
  destruct (GenMerkle1.buildTree leaves) as [t|e] eqn:Ht; cbn [Script1.lift];
    [|reflexivity].
  destruct (buildTree_returns_stacked leaves t Ht) as (rest & r & -> & _ & _).
  cbn [layers root].
  unfold Script1.andThen at 1. unfold Script1.ensureDir at 1.
  unfold Script1.andThen at 1. unfold Script1.ensureDir at 1.
  unfold Script1.andThen at 1.
  change 0 with (arrayLength (@nil string)) at 1.
  rewrite (writeClaims_spec env rows leaves [] rest 0 0 _ Hl).
  cbn [app]. unfold Script1.andThen, Script1.writeJson. cbv zeta.
  rewrite !Z.add_0_l. rewrite <- !app_assoc. cbn [app]. reflexivity.
Qed.

(* ===================================================================== *)
(** ** Paths and files *)
(* ===================================================================== *)

Lemma append_assoc (a b c : string) :
  String.append (String.append a b) c = String.append a (String.append b c).
Proof.
  induction a as [|x a IH]; cbn [String.append]; [reflexivity | rewrite IH; reflexivity].
Qed.

Lemma append_length (a b : string) :
  String.length (String.append a b) = (String.length a + String.length b)%nat.
Proof.
  induction a as [|x a IH]; cbn [String.append String.length]; [reflexivity | rewrite IH; reflexivity].
Qed.

Lemma append_cancel_l (p a b : string) :
  String.append p a = String.append p b -> a = b.
Proof.
  induction p as [|x p IH]; cbn [String.append]; intros H; [exact H|].
  inversion H. auto.
Qed.

Lemma append_cancel_r (s : string) :
  forall a b, String.append a s = String.append b s -> a = b.
Proof.
  induction a as [|x a IH]; intros [|y b] H.
  - reflexivity.
  - apply (f_equal String.length) in H. cbn [String.append String.length] in H.
    rewrite append_length in H. lia.
  - apply (f_equal String.length) in H. cbn [String.append String.length] in H.
    rewrite append_length in H. lia.
  - cbn [String.append] in H. inversion H. f_equal. auto.
Qed.

Lemma claimFile_inj (env : Script1.Env) (a b : string) :
  Script1.claimFile env a = Script1.claimFile env b -> a = b.
Proof.
  unfold Script1.claimFile, Script1.pathJoin. cbn [String.concat].
  intros H. apply append_cancel_l in H. apply append_cancel_l in H.
  apply append_cancel_r in H. exact H.
Qed.

Lemma claimFile_not_epochs (env : Script1.Env) (a tail : string) :
  Script1.claimFile env a
  <> Script1.pathJoin [Script1.epochsDir env; tail].
Proof.
  unfold Script1.claimFile, Script1.claimsDir, Script1.epochsDir, Script1.pathJoin.
  cbn [String.concat]. rewrite !append_assoc. intros H.
  apply append_cancel_l in H. cbn [String.append] in H. discriminate H.
Qed.

Lemma fileAfter_app (env : Script1.Env) (path : string) (xs ys : list (Script1.fsOp env)) :
  forall before,
    Script1.fileAfter env (xs ++ ys) path before
    = Script1.fileAfter env ys path (Script1.fileAfter env xs path before).
Proof.
  induction xs as [|[p|p obj] xs IH]; intros before; cbn [app Script1.fileAfter];
    [reflexivity | apply IH | apply IH].
Qed.

Lemma fileAfter_claimWrite (env : Script1.Env) (layers : list (list string))
  (e : Script1.Row * string) (xs : list (Script1.fsOp env)) (path : string)
  (before : option (Script1.json env)) :
  Script1.fileAfter env (Script1.claimWrite env layers e :: xs) path before
  = Script1.fileAfter env xs path
      (if String.eqb (Script1.claimFile env (Script1.address (fst e))) path
       then Some (Script1.JBundle env
                    (Script1.mkBundle env (Script1.EPOCH_ID env)
                       (Script1.amount (fst e)) (Script1.generatedLoss (fst e))
                       (Script1.proofOf layers (snd e))))
       else before).
Proof. reflexivity. Qed.

Lemma fileAfter_claims_other (env : Script1.Env) (layers : list (list string))
  (path : string) (entries : list (Script1.Row * string)) :
  forall before,
    (forall e, In e entries -> Script1.claimFile env (Script1.address (fst e)) <> path) ->
    Script1.fileAfter env (map (Script1.claimWrite env layers) entries) path before
    = before.
Proof.
  induction entries as [|e entries IH]; intros before H; [reflexivity|].
  cbn [map]. unfold Script1.claimWrite at 1. cbn [Script1.fileAfter].
  destruct (String.eqb_spec (Script1.claimFile env (Script1.address (fst e))) path) as [E|_].
  - exfalso. apply (H e); [left; reflexivity | exact E].
  - apply IH. intros e' He'. apply H. right. exact He'.
Qed.

(* ===================================================================== *)
(** ** The text of a total *)
(* ===================================================================== *)

Lemma digitsValue_digit (d acc : Z) (s : string) :
  0 <= d < 10 ->
  digitsValue 10 acc (String (hexDigitChar d) s) = digitsValue 10 (10 * acc + d) s.
Proof.
  intros Hd. cbn [digitsValue].
  rewrite hexDigitVal_hexDigitChar by lia.
  destruct (Z.ltb_spec d 10); [reflexivity | lia].
Qed.

Lemma digitsOf_value (n : Z) (acc : string) :
  0 <= n ->
  exists k, 0 <= k /\
    forall a, digitsValue 10 a (Script1.digitsOf n acc)
              = digitsValue 10 (a * 10 ^ k + n) acc.
Proof.
  funelim (Script1.digitsOf n acc); intros Hn.
  - clear Heqcall. pose proof (proj1 (Z.ltb_lt _ _) e) as Hlt. exists 1. split; [lia|]. intros a.
    rewrite digitsValue_digit by lia. f_equal. lia.
  - clear Heqcall H0. pose proof (proj1 (Z.ltb_ge _ _) Hge) as Hn10.
    destruct H as (k & Hk0 & Hk); [apply Z.div_pos; lia|].
    exists (k + 1). split; [lia|]. intros a. rewrite Hk.
    rewrite digitsValue_digit by (apply Z.mod_pos_bound; lia).
    f_equal. rewrite Z.pow_add_r by lia.
    pose proof (Z.div_mod n 10). lia.
Qed.

Lemma digitsOf_nonEmpty (n : Z) (acc : string) :
  exists c s, Script1.digitsOf n acc = String c s.
Proof.
  funelim (Script1.digitsOf n acc).
  - eauto.
  - assumption.
Qed.

Lemma BigInt_toString (n : Z) : 0 <= n -> BigInt (Script1.toString n) = Ok n.
Proof.
  intros Hn. apply BigInt_decimal. unfold Script1.toString.
  destruct (Z.ltb_spec n 0); [lia|].
  destruct (digitsOf_nonEmpty n EmptyString) as (c & s & E).
  destruct (digitsOf_value n EmptyString Hn) as (k & _ & Hk).
  assert (P : parseDigits 10 (Script1.digitsOf n EmptyString)
              = digitsValue 10 0 (Script1.digitsOf n EmptyString))
    by (rewrite E; reflexivity).
  rewrite P, Hk. cbn [digitsValue]. reflexivity.
Qed.

(* ===================================================================== *)
(** ** What a run leaves behind *)
(* ===================================================================== *)

Lemma leavesOf_split (pre : list Script1.Row) (row : Script1.Row) (post : list Script1.Row) :
  forall leaves,
    Script1.leavesOf (pre ++ row :: post) = Ok leaves ->
    exists lpre leaf lpost,
      leaves = lpre ++ leaf :: lpost /\
      GenMerkle1.leafPacked (Script1.address row) (Script1.amount row)
        (Script1.generatedLoss row) = Ok leaf /\
      combine (pre ++ row :: post) leaves
      = combine pre lpre ++ (row, leaf) :: combine post lpost.
Proof.
  induction pre as [|p pre IH]; intros leaves H.
  - cbn [app] in H. apply leavesOf_cons_inv in H.
    destruct H as (leaf & rest & -> & Hleaf & _).
    exists [], leaf, rest. auto.
  - cbn [app] in H. apply leavesOf_cons_inv in H.
    destruct H as (l & rest & -> & _ & Hrest).
    destruct (IH rest Hrest) as (lpre & leaf & lpost & -> & Hleaf & Hc).
    exists (l :: lpre), leaf, lpost. cbn [app combine]. rewrite Hc. auto.
Qed.

Lemma leavesOf_values (rows : list Script1.Row) :
  forall leaves,
    Script1.leavesOf rows = Ok leaves ->
    (forall r, In r rows ->
       BigInt (Script1.amount r) = Ok (Script1.valueOf (Script1.amount r)) /\
       BigInt (Script1.generatedLoss r) = Ok (Script1.valueOf (Script1.generatedLoss r))) /\
    0 <= fst (Script1.totalsOf rows) /\ 0 <= snd (Script1.totalsOf rows).
Proof.
  induction rows as [|r rows IH]; intros leaves H.
  - split; [intros r []|]. cbn. lia.
  - apply leavesOf_cons_inv in H. destruct H as (leaf & rest & -> & Hleaf & Hrest).
    destruct (IH rest Hrest) as (Hall & Ha & Hg).
    destruct (leafPacked_BigInt _ _ _ _ Hleaf) as (a & g & Ea & Eg & Ha0 & Hg0 & _).
    assert (Va : Script1.valueOf (Script1.amount r) = a)
      by (unfold Script1.valueOf; rewrite Ea; reflexivity).
    assert (Vg : Script1.valueOf (Script1.generatedLoss r) = g)
      by (unfold Script1.valueOf; rewrite Eg; reflexivity).
    split.
    + intros r' [<-|Hin]; [rewrite Va, Vg; auto | apply Hall, Hin].
    + unfold Script1.totalsOf, Script1.sumZ in *. cbn [map fold_right fst snd] in *.
      rewrite Va, Vg. lia.
Qed.

Lemma proofOf_verifies (leaves : list string) (rest : list (list string))
  (r leaf : string) :
  stacked leaves rest -> wellFormed leaves -> last (leaves :: rest) [] = [r] ->
  In leaf leaves ->
  exists proof,
    Script1.proofOf (leaves :: rest) leaf = map Some proof /\
    processProof leaf proof = Ok r.
Proof.
  intros Hst Hwf Hlast Hin.
  destruct (indexOf_found leaves leaf Hin) as [_ Hget].
  destruct (stacked_walk leaves rest Hst Hwf _ _ Hget) as (proof & r' & Hp & Hr & Hlast' & _).
  assert (r' = r) by congruence. subst r'.
  exists proof. split; [|exact Hr].
  pose proof (getProof_found leaf leaves rest Hin) as Hf.
  unfold GenMerkle1.getProof in Hf. cbn [arrayGet Z.ltb Z.compare Z.to_nat nth_error] in Hf.
  destruct (indexOf leaves leaf =? -1); [discriminate|].
  injection Hf as E. rewrite <- E. exact Hp.
Qed.

(** A run that returns has hashed every row, built the tree and done its
    writes in this order. *)
Lemma run_returned (env : Script1.Env) (rows : list Script1.Row)
  (ops ops' : list (Script1.fsOp env)) :
  Script1.run env rows ops = (ops', Script1.Returned tt) ->
  exists leaves rest r,
    Script1.leavesOf rows = Ok leaves /\
    stacked leaves rest /\ wellFormed leaves /\ last (leaves :: rest) [] = [r] /\
    ops' = ops ++ [Script1.Mkdir env (Script1.claimsDir env);
                   Script1.Mkdir env (Script1.epochsDir env)]
               ++ map (Script1.claimWrite env (leaves :: rest)) (combine rows leaves)
               ++ [Script1.WriteJson env (Script1.epochFile env)
                     (Script1.JMeta env
                        (Script1.epochMetaOf env rows (Some r) (Script1.totalsOf rows)));
                   Script1.WriteJson env (Script1.latestFile env)
                     (Script1.JMeta env
                        (Script1.epochMetaOf env rows (Some r) (Script1.totalsOf rows)))].
Proof.
  rewrite run_spec.
  destruct (Script1.leavesOf rows) as [leaves|e] eqn:Hl; [|discriminate].
  destruct (GenMerkle1.buildTree leaves) as [t|e] eqn:Ht; [|discriminate].
  destruct (buildTree_returns_stacked leaves t Ht) as (rest & r & -> & Hst & Hlast).
  cbv zeta. cbn [layers root]. intros H. inversion H.
  exists leaves, rest, r. split; [reflexivity|].
  split; [exact Hst|]. split; [eapply leavesOf_wellFormed; eassumption|].
  split; [exact Hlast | reflexivity].
Qed.

(** X8 (nothing half-written).  When the script throws, it has not touched
    the file system: every throw comes from [readCsv], [leafPacked] or
    [buildTree], all of which run before the first [mkdirSync]; once the
    tree is built, the loop over the rows cannot throw. *)
Theorem script_throws_before_writing (env : Script1.Env) (content : string)
  (ops ops' : list (Script1.fsOp env)) (e : Script1.exn) :
  Script1.script env content ops = (ops', Script1.Threw e) -> ops' = ops.
Proof.
  unfold Script1.script.
  destruct (Script1.readCsv content) as [rows|e']; [|intros H; inversion H; reflexivity].
  rewrite run_spec.
  destruct (Script1.leavesOf _) as [leaves|e']; [|intros H; inversion H; reflexivity].
  destruct (GenMerkle1.buildTree leaves) as [t|e']; [|intros H; inversion H; reflexivity].
  cbv zeta. intros H. inversion H.
Qed.

(** X9 (every bundle verifies).  When the run returns, it has written, for
    every row, a bundle to [claims/<chainId>/<address>.json] that carries
    the row's amount and generatedLoss and a proof which takes the row's
    leaf to the [merkleRoot] written to the epoch file. *)
Theorem run_bundles_verify (env : Script1.Env) (rows : list Script1.Row)
  (ops ops' : list (Script1.fsOp env)) :
  Script1.run env rows ops = (ops', Script1.Returned tt) ->
  exists r meta,
    Script1.meta_merkleRoot env meta = Some r /\
    In (Script1.WriteJson env (Script1.epochFile env) (Script1.JMeta env meta)) ops' /\
    forall row, In row rows ->
      exists leaf proof,
        GenMerkle1.leafPacked (Script1.address row) (Script1.amount row)
          (Script1.generatedLoss row) = Ok leaf /\
        In (Script1.WriteJson env (Script1.claimFile env (Script1.address row))
              (Script1.JBundle env
                 (Script1.mkBundle env (Script1.EPOCH_ID env) (Script1.amount row)
                    (Script1.generatedLoss row) (map Some proof)))) ops' /\
        processProof leaf proof = Ok r.
Proof.
  intros H. destruct (run_returned env rows ops ops' H)
    as (leaves & rest & r & Hl & Hst & Hwf & Hlast & ->).
  exists r, (Script1.epochMetaOf env rows (Some r) (Script1.totalsOf rows)).
  split; [reflexivity|]. split.
  - apply in_or_app. right. apply in_or_app. right. apply in_or_app. right.
    left. reflexivity.
  - intros row Hin. apply in_split in Hin. destruct Hin as (pre & post & ->).
    destruct (leavesOf_split pre row post leaves Hl)
      as (lpre & leaf & lpost & -> & Hleaf & Hc).
    destruct (proofOf_verifies (lpre ++ leaf :: lpost) rest r leaf Hst Hwf Hlast)
      as (proof & Hp & Hv); [apply in_or_app; right; left; reflexivity|].
    exists leaf, proof. split; [exact Hleaf|]. split; [|exact Hv].
    apply in_or_app. right. apply in_or_app. right. apply in_or_app. left.
    rewrite Hc, map_app. apply in_or_app. right. left.
    unfold Script1.claimWrite. cbn [fst snd]. rewrite Hp. reflexivity.
Qed.

(** X10 (the last row of an address wins).  After a run that returns, the
    file [claims/<chainId>/<address>.json] holds the bundle of the last row
    with that address, whatever the file held before and whatever earlier
    rows had the same address; its proof verifies against the [merkleRoot]
    held by [latest.json]. *)
Theorem claim_file_holds_last_row (env : Script1.Env)
  (pre : list Script1.Row) (row : Script1.Row) (post : list Script1.Row)
  (ops ops' : list (Script1.fsOp env)) (before before' : option (Script1.json env)) :
  Script1.run env (pre ++ row :: post) ops = (ops', Script1.Returned tt) ->
  (forall r, In r post -> Script1.address r <> Script1.address row) ->
  exists leaf proof r meta,
    GenMerkle1.leafPacked (Script1.address row) (Script1.amount row)
      (Script1.generatedLoss row) = Ok leaf /\
    Script1.fileAfter env ops' (Script1.claimFile env (Script1.address row)) before
    = Some (Script1.JBundle env
              (Script1.mkBundle env (Script1.EPOCH_ID env) (Script1.amount row)
                 (Script1.generatedLoss row) (map Some proof))) /\
    processProof leaf proof = Ok r /\
    Script1.fileAfter env ops' (Script1.latestFile env) before'
    = Some (Script1.JMeta env meta) /\
    Script1.meta_merkleRoot env meta = Some r.
Proof.
  intros H Hpost. destruct (run_returned env _ ops ops' H)
    as (leaves & rest & r & Hl & Hst & Hwf & Hlast & ->).
  destruct (leavesOf_split pre row post leaves Hl)
    as (lpre & leaf & lpost & -> & Hleaf & Hc).
  destruct (proofOf_verifies (lpre ++ leaf :: lpost) rest r leaf Hst Hwf Hlast)
    as (proof & Hp & Hv); [apply in_or_app; right; left; reflexivity|].
  exists leaf, proof, r,
    (Script1.epochMetaOf env (pre ++ row :: post) (Some r)
       (Script1.totalsOf (pre ++ row :: post))).
  split; [exact Hleaf|]. split; [|split; [exact Hv|split; [|reflexivity]]].
  - rewrite !fileAfter_app. cbn [Script1.fileAfter].
    destruct (String.eqb_spec (Script1.latestFile env)
                (Script1.claimFile env (Script1.address row))) as [E|_];
      [symmetry in E; apply claimFile_not_epochs in E; destruct E|].
    destruct (String.eqb_spec (Script1.epochFile env)
                (Script1.claimFile env (Script1.address row))) as [E|_];
      [symmetry in E; apply claimFile_not_epochs in E; destruct E|].
    rewrite Hc, map_app, fileAfter_app. cbn [map].
    rewrite fileAfter_claimWrite. cbn [fst snd].
    rewrite String.eqb_refl, Hp.
    apply fileAfter_claims_other.
    intros [r' l'] Hin E. apply in_combine_l in Hin. cbn [fst] in E.
    apply claimFile_inj in E. exact (Hpost r' Hin E).
  - rewrite !fileAfter_app. cbn [Script1.fileAfter].
    rewrite String.eqb_refl. reflexivity.
Qed.

(** X11 (the epoch files).  After a run that returns, the epoch file and
    [latest.json] hold the same object; its [count] is the number of rows,
    and its two totals are decimal texts that read back, with [BigInt], as
    the sums of the rows' amounts and generated losses. *)
Theorem epoch_files_hold_totals (env : Script1.Env) (rows : list Script1.Row)
  (ops ops' : list (Script1.fsOp env)) (before before' : option (Script1.json env)) :
  Script1.run env rows ops = (ops', Script1.Returned tt) ->
  exists meta,
    Script1.fileAfter env ops' (Script1.epochFile env) before
    = Some (Script1.JMeta env meta) /\
    Script1.fileAfter env ops' (Script1.latestFile env) before'
    = Some (Script1.JMeta env meta) /\
    Script1.meta_count env meta = arrayLength rows /\
    (forall r, In r rows ->
       BigInt (Script1.amount r) = Ok (Script1.valueOf (Script1.amount r)) /\
       BigInt (Script1.generatedLoss r) = Ok (Script1.valueOf (Script1.generatedLoss r))) /\
    BigInt (Script1.meta_totalAmount env meta)
    = Ok (Script1.sumZ (map (fun r => Script1.valueOf (Script1.amount r)) rows)) /\
    BigInt (Script1.meta_totalGeneratedLoss env meta)
    = Ok (Script1.sumZ (map (fun r => Script1.valueOf (Script1.generatedLoss r)) rows)).
Proof.
  intros H. destruct (run_returned env rows ops ops' H)
    as (leaves & rest & r & Hl & Hst & Hwf & Hlast & ->).
  destruct (leavesOf_values rows leaves Hl) as (Hall & Ha & Hg).
  exists (Script1.epochMetaOf env rows (Some r) (Script1.totalsOf rows)).
  split; [|split; [|split; [reflexivity|split; [exact Hall|]]]].
  - rewrite !fileAfter_app. cbn [Script1.fileAfter].
    rewrite String.eqb_refl.
    destruct (String.eqb (Script1.latestFile env) (Script1.epochFile env)); reflexivity.
  - rewrite !fileAfter_app. cbn [Script1.fileAfter].
    rewrite String.eqb_refl. reflexivity.
  - unfold Script1.epochMetaOf.
    cbn [Script1.meta_totalAmount Script1.meta_totalGeneratedLoss].
    split; apply BigInt_toString; assumption.
Qed.

(* ===================================================================== *)
(** ** From the input file to the outcome of the script *)
(* ===================================================================== *)

Lemma leavesOf_defined (rows : list Script1.Row) :
  Forall Script1.validRow rows -> Forall Script1.inRange rows ->
  exists leaves, Script1.leavesOf rows = Ok leaves.
Proof.
  induction rows as [|r rows IH]; intros Hv Hr; [exists []; reflexivity|].
  inversion Hv as [|? ? Hv1 Hv2]; subst. inversion Hr as [|? ? Hr1 Hr2]; subst.
  destruct (IH Hv2 Hr2) as (leaves & Hl).
  destruct (validRow_leaf r Hv1) as (a & g & Ea & Eg & _ & _ & Hok & _).
  destruct Hr1 as [Ha Hg]. unfold Script1.valueOf in Ha, Hg. rewrite Ea in Ha.
  rewrite Eg in Hg. destruct (Hok (conj Ha Hg)) as (leaf & Hleaf & _).
  exists (leaf :: leaves). cbn [Script1.leavesOf]. rewrite Hleaf, Hl. reflexivity.
Qed.

Lemma leavesOf_oversized (rows : list Script1.Row) :
  Forall Script1.validRow rows -> Exists Script1.oversized rows ->
  Script1.leavesOf rows = Err IntegerOutOfRange.
Proof.
  induction rows as [|r rows IH]; intros Hv Hex; [inversion Hex|].
  inversion Hv as [|? ? Hv1 Hv2]; subst.
  destruct (validRow_leaf r Hv1) as (a & g & Ea & Eg & _ & _ & Hok & Hbad).
  cbn [Script1.leavesOf].
  destruct (Z.ltb_spec a (2 ^ 256)) as [Ha|Ha];
    [destruct (Z.ltb_spec g (2 ^ 256)) as [Hg|Hg]|].
  - destruct (Hok (conj Ha Hg)) as (leaf & Hleaf & _). rewrite Hleaf. cbn [bind].
    inversion Hex as [? ? Hhead|? ? Htail]; subst.
    + unfold Script1.oversized, Script1.valueOf in Hhead.
      rewrite Ea, Eg in Hhead. lia.
    + rewrite (IH Hv2 Htail). reflexivity.
  - rewrite Hbad by lia. reflexivity.
  - rewrite Hbad by lia. reflexivity.
Qed.

(** X12 (outcome of the script).  For an input that [readCsv] accepts,
    and a sort that only reorders the rows: when every amount and
    generatedLoss is below [2^256] the script returns, having created two
    directories and written one file per row and the two epoch files; when
    some amount or generatedLoss is [2^256] or more it throws viem's
    [IntegerOutOfRangeError] and writes nothing. *)
Theorem script_outcome (env : Script1.Env) (content : string)
  (rows : list Script1.Row) (ops : list (Script1.fsOp env)) :
  Script1.readCsv content = Script1.Returned rows ->
  Permutation (Script1.sortRows env rows) rows ->
  (Forall Script1.inRange rows ->
   exists ops',
     Script1.script env content ops = (ops', Script1.Returned tt) /\
     arrayLength ops' = arrayLength ops + arrayLength rows + 4) /\
  (Exists Script1.oversized rows ->
   Script1.script env content ops
   = (ops, Script1.Threw (Script1.Raised IntegerOutOfRange))).
Proof.
  intros Hread Hperm.
  destruct (readCsv_rows_valid_aux content rows Hread) as (Hne & _ & Hvalid).
  assert (Hsv : Forall Script1.validRow (Script1.sortRows env rows)).
  { rewrite Forall_forall in *. intros r Hin.
    apply Hvalid. eapply Permutation_in; eassumption. }
  pose proof (Permutation_length Hperm) as Hlen.
  unfold Script1.script. rewrite Hread, run_spec. split.
  - intros Hin.
    assert (Hsr : Forall Script1.inRange (Script1.sortRows env rows)).
    { rewrite Forall_forall in *. intros r Hr.
      apply Hin. eapply Permutation_in; eassumption. }
    destruct (leavesOf_defined _ Hsv Hsr) as (leaves & Hl). rewrite Hl.
    pose proof (leavesOf_length _ _ Hl) as Hll.
    assert (Hlne : leaves <> []).
    { intros ->. cbn [List.length] in Hll. destruct rows; [congruence|].
      cbn [List.length] in Hlen. lia. }
    destruct (buildTree_stacked leaves Hlne (leavesOf_wellFormed _ _ Hl))
      as (rest & r & Ht & _). rewrite Ht. cbv zeta.
    eexists. split; [reflexivity|].
    unfold arrayLength. rewrite !length_app, length_map, length_combine.
    cbn [List.length]. lia.
  - intros Hex.
    assert (Hse : Exists Script1.oversized (Script1.sortRows env rows)).
    { rewrite Exists_exists in *. destruct Hex as (r & Hr & Hbad).
      exists r. split; [|exact Hbad].
      eapply Permutation_in; [apply Permutation_sym|]; eassumption. }
    rewrite (leavesOf_oversized _ Hsv Hse). reflexivity.
Qed.



(** A blank line before the bad row is not counted: the row on the third
    line of the file is reported as line 2. *)
Example readCsv_line_number_skips_blank_lines :
  Script1.readCsv
    (String.concat newline ["address,amount,generatedLoss"; ""; "0xbad,1,1"])
  = Script1.Threw (Script1.BadAddressOnLine 2 "0xbad").
Proof. vm_compute. reflexivity. Qed.

(* ===================================================================== *)
(** ** scripts/generate-claims.mjs on the rows of gen-merkle.mjs *)
(* ===================================================================== *)

(** X14 (the two scripts on one row).  A row that [readCsv] of
    gen-merkle.mjs returns passes [normAddr] and [asUintStr] of
    generate-claims.mjs unchanged, and the leaf that script's tree holds
    for it is the library's standard leaf hash of the row as it stands. *)
Theorem entryOf_accepts_csv_rows (content : string) (rows : list Script1.Row)
  (r : Script1.Row) :
  Script1.readCsv content = Script1.Returned rows -> In r rows ->
  GenerateClaims.normAddr (Script1.address r) = Script1.address r /\
  GenerateClaims.entryOf (Script1.address r) (Script1.amount r) (Script1.generatedLoss r)
  = Ok (Script1.address r, Script1.amount r, Script1.generatedLoss r) /\
  GenerateClaims.rowLeaf (Script1.address r) (Script1.amount r) (Script1.generatedLoss r)
  = GenerateClaims.standardLeafHash (Script1.address r) (Script1.amount r)
      (Script1.generatedLoss r).
Proof.
  intros Hread Hin.
  destruct (readCsv_rows_valid_aux content rows Hread) as (_ & _ & Hvalid).
  rewrite Forall_forall in Hvalid.
  destruct (Hvalid r Hin) as (Haddr & Hlow & Hm & Hl).
  destruct (isDecimal_value _ Hm) as (a & Ha).
  destruct (isDecimal_value _ Hl) as (g & Hg).
  destruct (isAddress_bytes _ Haddr) as (body & addr & E & Hb & Hlen).
  pose proof (hexBody_length addr body Hb) as Hbody.
  assert (Hnorm : GenerateClaims.normAddr (Script1.address r) = Script1.address r).
  { unfold GenerateClaims.normAddr. cbv zeta. rewrite Hlow, E, strip0x_with0x.
    cbn [with0x String.length]. rewrite Hbody, Hlen. reflexivity. }
  split; [exact Hnorm|]. split.
  - unfold GenerateClaims.entryOf, GenerateClaims.asUintStr. cbv zeta.
    rewrite Hnorm, Ha, Hg. rewrite E. reflexivity.
  - eapply rowLeaf_standard; eassumption.
Qed.

(** The converse fails: [normAddr] looks at the prefix and the length
    only, so it lets through text that [isAddress] turns down. *)
Example normAddr_accepts_non_hexadecimal :
  GenerateClaims.normAddr "0xZZ000000000000000000000000000000000000ff"
  = "0xzz000000000000000000000000000000000000ff" /\
  isAddress "0xzz000000000000000000000000000000000000ff" = false.
Proof. split; reflexivity. Qed.

(* ===================================================================== *)
(** ** [readCsv] in the two revisions *)
(* ===================================================================== *)


Lemma headerOf_lowered (line : string) :
  Script2.headerOf line = map toLowerCase (Script1.headerOf line).
Proof.
  unfold Script2.headerOf, Script1.headerOf. rewrite map_map. reflexivity.
Qed.

Lemma indexOf_lowered (header : list string) (name : string) :
  In name header -> 0 <= indexOf (map toLowerCase header) (toLowerCase name).
Proof.
  intros Hin.
  assert (Hin' : In (toLowerCase name) (map toLowerCase header)) by (apply in_map, Hin).
  destruct (indexOf_found _ _ Hin') as [Hr _]. lia.
Qed.


(** X16 (the second revision's header test is the weaker one).  The
    second revision throws "CSV header must include ..." only where the
    first does; a header the first accepts is accepted in any case. *)
Theorem readCsv_v2_header_weaker (content : string) :
  Script2.readCsv content = Script1.Threw Script1.CsvBadHeader ->
  Script1.readCsv content = Script1.Threw Script1.CsvBadHeader.
Proof.
  unfold Script2.readCsv, Script1.readCsv. cbv zeta.
  destruct (arrayLength (Script1.linesOf content) <? 2); [discriminate|].
  destruct (arrayGet (Script1.linesOf content) 0) as [first|]; [|discriminate].
  rewrite headerOf_lowered. fold (Script1.headerOf first).
  destruct (Z.ltb_spec (indexOf (Script1.headerOf first) "address") 0) as [Ha|Ha];
    [reflexivity|].
  destruct (Z.ltb_spec (indexOf (Script1.headerOf first) "amount") 0) as [Hm|Hm];
    [reflexivity|].
  destruct (Z.ltb_spec (indexOf (Script1.headerOf first) "generatedLoss") 0) as [Hl|Hl];
    [reflexivity|].
  cbn [orb].
  assert (In "address" (Script1.headerOf first)) as Ia.
  { destruct (in_dec string_dec "address" (Script1.headerOf first)) as [|n]; [assumption|].
    rewrite (indexOf_absent _ _ n) in Ha. lia. }
  assert (In "amount" (Script1.headerOf first)) as Im.
  { destruct (in_dec string_dec "amount" (Script1.headerOf first)) as [|n]; [assumption|].
    rewrite (indexOf_absent _ _ n) in Hm. lia. }
  assert (In "generatedLoss" (Script1.headerOf first)) as Il.
  { destruct (in_dec string_dec "generatedLoss" (Script1.headerOf first)) as [|n];
      [assumption|].
    rewrite (indexOf_absent _ _ n) in Hl. lia. }
  pose proof (indexOf_lowered _ _ Ia) as Ja.
  pose proof (indexOf_lowered _ _ Im) as Jm.
  pose proof (indexOf_lowered _ _ Il) as Jl.
  change (toLowerCase "address") with "address" in Ja.
  change (toLowerCase "amount") with "amount" in Jm.
  change (toLowerCase "generatedLoss") with "generatedloss" in Jl.
  destruct (Z.ltb_spec (indexOf (map toLowerCase (Script1.headerOf first)) "address") 0)
    as [Ka|Ka]; [lia|].
  destruct (Z.ltb_spec (indexOf (map toLowerCase (Script1.headerOf first)) "amount") 0)
    as [Km|Km]; [lia|].
  destruct (Z.ltb_spec (indexOf (map toLowerCase (Script1.headerOf first)) "generatedloss") 0)
    as [Kl|Kl]; [lia|].
  cbn [orb]. intros H. apply readRows_threw in H. destruct H as [_ H]. congruence.
Qed.

(** Where the header has a column name in two cases, the revisions read
    different columns. *)
Example readCsv_revisions_differ :
  Script1.readCsv mixedCaseCsv
  = Script1.Returned [Script1.mkRow sampleAddress "2" "3"] /\
  Script2.readCsv mixedCaseCsv
  = Script1.Returned [Script1.mkRow sampleAddress "1" "3"].
Proof. split; vm_compute; reflexivity. Qed.

(* ===================================================================== *)
(** ** Leaves and the records they stand for *)
(* ===================================================================== *)





(* ===================================================================== *)
(** ** The theorems above on the sample inputs *)
(* ===================================================================== *)

Lemma buildTree_layers_shape_witness :
  arrayGet (layers sampleTree) 0 = Some [sample1; sample2; sample3] /\
  (exists r, arrayGet (layers sampleTree) (arrayLength (layers sampleTree) - 1) = Some [r] /\
             root sampleTree = Some r) /\
  forall k layer next,
    arrayGet (layers sampleTree) k = Some layer ->
    arrayGet (layers sampleTree) (k + 1) = Some next ->
    1 < arrayLength layer /\
    arrayLength next = (arrayLength layer + 1) / 2 /\
    forall j, 0 <= j < arrayLength next ->
      exists l r h,
        arrayGet layer (2 * j) = Some l /\
        arrayGet layer (if 2 * j + 1 <? arrayLength layer then 2 * j + 1 else 2 * j)
        = Some r /\
        GenMerkle1.hashPair l r = Ok h /\
        arrayGet next j = Some h.
Proof.
  apply (buildTree_layers_shape [sample1; sample2; sample3] sampleTree).
  vm_compute. reflexivity.
Defined.

Lemma proof_length_is_log2_witness :
  arrayLength (layers sampleTree) = Z.log2_up (arrayLength [sample1; sample2; sample3]) + 1 /\
  exists proof,
    GenMerkle1.getProof sample3 (layers sampleTree) = Ok proof /\
    arrayLength proof = Z.log2_up (arrayLength [sample1; sample2; sample3]).
Proof.
  apply (proof_length_is_log2 [sample1; sample2; sample3] sampleTree sample3).
  - vm_compute. reflexivity.
  - right. right. left. reflexivity.
Defined.

Lemma every_position_verifies_witness :
  exists t r proof,
    GenMerkle1.buildTree [sample1; sample2; sample1] = Ok t /\ root t = Some r /\
    GenMerkle1.getProof_for (layers t) 2 = map Some proof /\
    processProof sample1 proof = Ok r.
Proof.
  apply (every_position_verifies [sample1; sample2; sample1] 2 sample1).
  - vm_compute. reflexivity.
  - reflexivity.
Defined.

Lemma odd_tree_shares_root_witness :
  match GenMerkle1.buildTree ([sample1; sample2] ++ [sample3]),
        GenMerkle1.buildTree ([sample1; sample2] ++ [sample3; sample3]) with
  | Ok t, Ok t' => root t = root t' /\ tl (layers t) = tl (layers t')
  | Err e, Err e' => e = e'
  | _, _ => False
  end.
Proof.
  apply (odd_tree_shares_root [sample1; sample2] sample3).
  - reflexivity.
  - discriminate.
Defined.


Lemma readCsv_row_leaf_witness :
  exists a g,
    BigInt "100" = Ok a /\ BigInt "7" = Ok g /\
    0 <= a /\ 0 <= g /\
    (a < 2 ^ 256 /\ g < 2 ^ 256 ->
     exists leaf,
       GenMerkle1.leafPacked sampleAddress "100" "7" = Ok leaf /\
       isBytes32 leaf = true) /\
    (2 ^ 256 <= a \/ 2 ^ 256 <= g ->
     GenMerkle1.leafPacked sampleAddress "100" "7" = Err IntegerOutOfRange).
Proof.
  apply (readCsv_row_leaf sampleCsv sampleRows (Script1.mkRow sampleAddress "100" "7")).
  - vm_compute. reflexivity.
  - right. left. reflexivity.
Defined.

Lemma script_throws_before_writing_witness :
  [Script1.Mkdir sampleEnv "/old"] = [Script1.Mkdir sampleEnv "/old"].
Proof.
  apply (script_throws_before_writing sampleEnv oversizedCsv
           [Script1.Mkdir sampleEnv "/old"] [Script1.Mkdir sampleEnv "/old"]
           (Script1.Raised IntegerOutOfRange)).
  vm_compute. reflexivity.
Defined.

Lemma run_bundles_verify_witness :
  exists r meta,
    Script1.meta_merkleRoot sampleEnv meta = Some r /\
    In (Script1.WriteJson sampleEnv (Script1.epochFile sampleEnv)
          (Script1.JMeta sampleEnv meta)) sampleOps /\
    forall row, In row sampleRows ->
      exists leaf proof,
        GenMerkle1.leafPacked (Script1.address row) (Script1.amount row)
          (Script1.generatedLoss row) = Ok leaf /\
        In (Script1.WriteJson sampleEnv (Script1.claimFile sampleEnv (Script1.address row))
              (Script1.JBundle sampleEnv
                 (Script1.mkBundle sampleEnv (Script1.EPOCH_ID sampleEnv)
                    (Script1.amount row) (Script1.generatedLoss row) (map Some proof))))
           sampleOps /\
        processProof leaf proof = Ok r.
Proof.
  apply (run_bundles_verify sampleEnv sampleRows [] sampleOps).
  vm_compute. reflexivity.
Defined.

Lemma claim_file_holds_last_row_witness :
  exists leaf proof r meta,
    GenMerkle1.leafPacked sampleAddress "8" "0" = Ok leaf /\
    Script1.fileAfter sampleEnv sampleOps (Script1.claimFile sampleEnv sampleAddress) None
    = Some (Script1.JBundle sampleEnv
              (Script1.mkBundle sampleEnv (Script1.EPOCH_ID sampleEnv) "8" "0"
                 (map Some proof))) /\
    processProof leaf proof = Ok r /\
    Script1.fileAfter sampleEnv sampleOps (Script1.latestFile sampleEnv) None
    = Some (Script1.JMeta sampleEnv meta) /\
    Script1.meta_merkleRoot sampleEnv meta = Some r.
Proof.
  apply (claim_file_holds_last_row sampleEnv
           [Script1.mkRow "0x0000000000000000000000000000000000000001" "5" "0";
            Script1.mkRow sampleAddress "100" "7"]
           (Script1.mkRow sampleAddress "8" "0") [] [] sampleOps None None).
  - vm_compute. reflexivity.
  - intros r [].
Defined.

Lemma epoch_files_hold_totals_witness :
  exists meta,
    Script1.fileAfter sampleEnv sampleOps (Script1.epochFile sampleEnv) None
    = Some (Script1.JMeta sampleEnv meta) /\
    Script1.fileAfter sampleEnv sampleOps (Script1.latestFile sampleEnv) None
    = Some (Script1.JMeta sampleEnv meta) /\
    Script1.meta_count sampleEnv meta = arrayLength sampleRows /\
    (forall r, In r sampleRows ->
       BigInt (Script1.amount r) = Ok (Script1.valueOf (Script1.amount r)) /\
       BigInt (Script1.generatedLoss r) = Ok (Script1.valueOf (Script1.generatedLoss r))) /\
    BigInt (Script1.meta_totalAmount sampleEnv meta)
    = Ok (Script1.sumZ (map (fun r => Script1.valueOf (Script1.amount r)) sampleRows)) /\
    BigInt (Script1.meta_totalGeneratedLoss sampleEnv meta)
    = Ok (Script1.sumZ (map (fun r => Script1.valueOf (Script1.generatedLoss r)) sampleRows)).
Proof.
  apply (epoch_files_hold_totals sampleEnv sampleRows [] sampleOps None None).
  vm_compute. reflexivity.
Defined.

Lemma script_outcome_witness :
  (exists ops',
     Script1.script sampleEnv sampleCsv [] = (ops', Script1.Returned tt) /\
     arrayLength ops' = arrayLength (@nil (Script1.fsOp sampleEnv)) + arrayLength sampleRows + 4) /\
  Script1.script sampleEnv oversizedCsv []
  = ([], Script1.Threw (Script1.Raised IntegerOutOfRange)).
Proof.
  split.
  - apply (proj1 (script_outcome sampleEnv sampleCsv sampleRows []
                    ltac:(vm_compute; reflexivity) (Permutation_refl _))).
    repeat constructor; vm_compute; reflexivity.
  - apply (proj2 (script_outcome sampleEnv oversizedCsv oversizedRows []
                    ltac:(vm_compute; reflexivity) (Permutation_refl _))).
    left. left. vm_compute. discriminate.
Defined.


Lemma entryOf_accepts_csv_rows_witness :
  GenerateClaims.normAddr sampleAddress = sampleAddress /\
  GenerateClaims.entryOf sampleAddress "100" "7" = Ok (sampleAddress, "100", "7") /\
  GenerateClaims.rowLeaf sampleAddress "100" "7"
  = GenerateClaims.standardLeafHash sampleAddress "100" "7".
Proof.
  apply (entryOf_accepts_csv_rows sampleCsv sampleRows
           (Script1.mkRow sampleAddress "100" "7")).
  - vm_compute. reflexivity.
  - right. left. reflexivity.
Defined.


Lemma readCsv_v2_header_weaker_witness :
  Script1.readCsv (String.concat newline ["address,amount"; "0xff,1"])
  = Script1.Threw Script1.CsvBadHeader.
Proof.
  apply (readCsv_v2_header_weaker (String.concat newline ["address,amount"; "0xff,1"])).
  vm_compute. reflexivity.
Defined.

